(** * drtransformer.landscape: the TrafoLandscape object

    A shallow embedding of [src/drtransformer/landscape.py].

    Conventions of the embedding
    - A Python [dict] is an association list in insertion order with unique
      keys: iteration order is observable in the source ([sorted] is stable,
      [list(self.nodes)] fixes the order of eviction).
    - A Python [set] of structure keys is a duplicate-free list; its order
      stands for the iteration order of the set.
    - Occupancies, times and tolerances are Python floats; they are modelled
      by exact rationals [Q] and compared with [Qeq_bool]/[Qle_bool].
    - An uncaught Python exception is a [Raise] in the [result] monad.
    - Functions of other modules ([RNA], [.rnafolding], [.linalg]) are
      variables of the section that models the class. *)

From Stdlib Require Import List String Ascii Bool Arith ZArith QArith Qabs Reals Lia Lqa.
From Stdlib Require Import DecimalString DecimalNat Permutation Sorted.
From Stdlib Require Lra.
Import ListNotations.

Set Implicit Arguments.

Local Open Scope string_scope.
Local Open Scope list_scope.

(* ------------------------------------------------------------------ *)
(** ** Exceptions *)

Inductive fault : Type :=
| AssertionError
| KeyError
| TypeError
| IndexError
| RecursionError.

Inductive result (A : Type) : Type :=
| Ok (a : A)
| Raise (e : fault).

Arguments Ok {A} a.
Arguments Raise {A} e.

Definition bind {A B : Type} (m : result A) (f : A -> result B) : result B :=
match m with
| Ok a => f a
| Raise e => Raise e
end.

Notation "x <- m ;; k" := (bind m (fun x => k))
(at level 61, m at next level, right associativity).
Notation "' p <- m ;; k" := (bind m (fun x => let p := x in k))
(at level 61, p pattern, m at next level, right associativity).

(** [assert c] *)
Definition assert (c : bool) : result unit :=
if c then Ok tt else Raise AssertionError.

(** A [for] loop whose body may raise: the state is threaded through. *)
Fixpoint foldM {A S : Type} (f : A -> S -> result S) (l : list A) (s : S)
: result S :=
match l with
| [] => Ok s
| x :: r => s' <- f x s ;; foldM f r s'
end.

(* ------------------------------------------------------------------ *)
(** ** Dictionaries and sets *)

Section Dict.
Context {K V : Type}.
Variable eqb : K -> K -> bool.

(** [m.get(k)] *)
Fixpoint lookup (k : K) (m : list (K * V)) : option V :=
    match m with
    | [] => None
    | (k', v) :: r => if eqb k k' then Some v else lookup k r
    end.

(** [k in m] *)
Definition has_key (k : K) (m : list (K * V)) : bool :=
    match lookup k m with Some _ => true | None => false end.

(** [m[k]] *)
Definition getitem (k : K) (m : list (K * V)) : result V :=
    match lookup k m with Some v => Ok v | None => Raise KeyError end.

(** In-place update of the record stored under [k]; the position of the
      key in the dictionary is kept. *)
Fixpoint alter (f : V -> V) (k : K) (m : list (K * V)) : list (K * V) :=
    match m with
    | [] => []
    | (k', v) :: r =>
        if eqb k k' then (k', f v) :: r else (k', v) :: alter f k r
    end.

(** [m[k] = v] *)
Definition setitem (k : K) (v : V) (m : list (K * V)) : list (K * V) :=
    if has_key k m then alter (fun _ => v) k m else m ++ [(k, v)].

(** [del m[k]] on a present key. *)
Fixpoint remove_key (k : K) (m : list (K * V)) : list (K * V) :=
    match m with
    | [] => []
    | (k', v) :: r => if eqb k k' then r else (k', v) :: remove_key k r
    end.
End Dict.

Definition key := string.

Definition mem (k : key) (s : list key) : bool :=
existsb (String.eqb k) s.

(** [s.add(k)] *)
Definition set_add (k : key) (s : list key) : list key :=
if mem k s then s else s ++ [k].

(** [set(l)] *)
Definition set_of_list (l : list key) : list key :=
fold_left (fun s k => set_add k s) l [].

Definition pair_eqb (a b : key * key) : bool :=
String.eqb (fst a) (fst b) && String.eqb (snd a) (snd b).

(** Truth value of a container attribute: [None] and the empty set are
    false. *)
Definition truthy (s : option (list key)) : bool :=
match s with
| Some (_ :: _) => true
| _ => false
end.

(** [for x in s] on an attribute that may be [None]. *)
Definition iter (s : option (list key)) : result (list key) :=
match s with
| Some l => Ok l
| None => Raise TypeError
end.

(* ------------------------------------------------------------------ *)
(** ** Nodes and edges *)

Record node : Type := mkNode {
structure : option string;
occupancy : Q;
identity : string;
energy : option Z;
active : bool;
pruned : Z;
lminreps : option (list key);
hiddennodes : option (list key);
occtransfer : option (list key)
}.

Definition set_occupancy (q : Q) (d : node) : node :=
mkNode (structure d) q (identity d) (energy d) (active d) (pruned d)
         (lminreps d) (hiddennodes d) (occtransfer d).

Definition add_occupancy (q : Q) (d : node) : node :=
set_occupancy (occupancy d + q) d.

Definition set_active (b : bool) (d : node) : node :=
mkNode (structure d) (occupancy d) (identity d) (energy d) b (pruned d)
         (lminreps d) (hiddennodes d) (occtransfer d).

Definition set_pruned (p : Z) (d : node) : node :=
mkNode (structure d) (occupancy d) (identity d) (energy d) (active d) p
         (lminreps d) (hiddennodes d) (occtransfer d).

Definition set_lminreps (s : option (list key)) (d : node) : node :=
mkNode (structure d) (occupancy d) (identity d) (energy d) (active d)
         (pruned d) s (hiddennodes d) (occtransfer d).

Definition set_hiddennodes (s : option (list key)) (d : node) : node :=
mkNode (structure d) (occupancy d) (identity d) (energy d) (active d)
         (pruned d) (lminreps d) s (occtransfer d).

Definition set_occtransfer (s : option (list key)) (d : node) : node :=
mkNode (structure d) (occupancy d) (identity d) (energy d) (active d)
         (pruned d) (lminreps d) (hiddennodes d) s.

Definition nodes_t := list (key * node).

(** Model details ([vrna_md]): only the temperature is read here. *)
Record model_details : Type := mkMD { temperature : Q }.

(** A fine-grained edge record: ['weight'] is always present (possibly
    [None]); ['saddle_energy'] is present only once it was passed to
    [addedge] (the inner option is the stored value, which may be [None]). *)
Record edge : Type := mkEdge {
  weight : option R;
  saddle_energy : option (option Z)
}.

Definition set_saddle_energy (se : option Z) (e : edge) : edge :=
mkEdge (weight e) (Some se).

Record cg_edge : Type := mkCgEdge {
  cg_saddle_energy : Z;
  cg_weight : R
}.

Definition edges_t := list ((key * key) * edge).
Definition cg_edges_t := list ((key * key) * cg_edge).

Record landscape : Type := mkLandscape {
  sequence : string;
  md : model_details;
  prefix : string;
  nodeID : nat;
  nodes : nodes_t;
  edges : edges_t;
  cg_edges : cg_edges_t;
  k0 : Q;
  minh : Z;
  fpwm : Z;
  mfree : Z;
  transcript_length : nat
}.

Definition with_nodes (ns : nodes_t) (L : landscape) : landscape :=
mkLandscape (sequence L) (md L) (prefix L) (nodeID L) ns (edges L)
            (cg_edges L) (k0 L) (minh L) (fpwm L) (mfree L)
            (transcript_length L).

Definition with_nodeID (n : nat) (L : landscape) : landscape :=
mkLandscape (sequence L) (md L) (prefix L) n (nodes L) (edges L)
            (cg_edges L) (k0 L) (minh L) (fpwm L) (mfree L)
            (transcript_length L).

Definition with_edges (es : edges_t) (L : landscape) : landscape :=
mkLandscape (sequence L) (md L) (prefix L) (nodeID L) (nodes L) es
            (cg_edges L) (k0 L) (minh L) (fpwm L) (mfree L)
            (transcript_length L).

Definition with_cg_edges (ce : cg_edges_t) (L : landscape) : landscape :=
mkLandscape (sequence L) (md L) (prefix L) (nodeID L) (nodes L) (edges L)
            ce (k0 L) (minh L) (fpwm L) (mfree L) (transcript_length L).

Definition with_transcript_length (n : nat) (L : landscape) : landscape :=
mkLandscape (sequence L) (md L) (prefix L) (nodeID L) (nodes L) (edges L)
            (cg_edges L) (k0 L) (minh L) (fpwm L) (mfree L) n.

(** The samples a generator yields, in order, and how it ends. *)
Inductive trace : Type :=
| Stop
| Yield (t : Q) (pt : list Q) (rest : trace)
| Throw (e : fault).

(* ------------------------------------------------------------------ *)
(** ** External collaborators

    The functions the class imports from [RNA], [.rnafolding] and
    [.linalg]; they are used as pure functions of their arguments. *)

Class Externals : Type := {
  (** [fc.backtrack(n)[0]] of the fold compound of [(sequence, md)] *)
  fc_backtrack : string -> model_details -> nat -> string;
  (** [int(round(fc.eval_structure(s) * 100))] *)
  fc_eval_structure : string -> model_details -> string -> Z;
  (** [find_fraying_neighbors(seq, md, parents, mfree)]: a dictionary from
      parents to collections of structures *)
  find_fraying_neighbors :
    string -> model_details -> list string -> Z -> list (string * list string);
  (** [get_guide_graph(seq, md, keys)]: [(gnodes, gedges)] *)
  get_guide_graph :
    string -> model_details -> list string ->
    list (string * Z) * list (string * string);
  (** [neighborhood_flooding((fseq, md, fpwm), ndata, gedges, tedges, minh)]:
      node energies and saddle energies *)
  neighborhood_flooding :
    string * model_details * Z -> nodes_t -> list (key * key) -> edges_t ->
    Z -> list (key * Z) * list ((key * key) * option Z);
  (** [top_down_coarse_graining(ndata, edata, minh)]:
      [(cg_ndata, cg_edata, cg_mapping)] *)
  top_down_coarse_graining :
    nodes_t -> edges_t -> Z ->
    nodes_t * list ((key * key) * Z) * list (key * list key);
  (** [mx_simulate(R, p0, times, force, atol, rtol)] *)
  mx_simulate :
    list (list R) -> list Q -> list Q -> option (list Q) -> Q -> Q -> trace;
  (** [get_p8_detbal(R)] *)
  get_p8_detbal : list (list R) -> list Q;
  (** the four elapsed times [expand] measures with [datetime.now()] at a
      given transcript length *)
  elapsed : nat -> Q * Q * Q * Q
}.

(* ------------------------------------------------------------------ *)
(** ** The class TrafoLandscape *)

Section Landscape.
Context {X : Externals}.

(** [__init__]: the graph is empty, the parameters take their defaults. *)
Definition init (sequence : string) (vrna_md : model_details)
           (prefix : string) : landscape :=
mkLandscape sequence vrna_md prefix 0 [] [] [] 200000 0 0 6 0.

(** The property [RT]. *)
Definition RT (L : landscape) : R :=
let RT := 0.61632077549999997%R in
if negb (Qeq_bool (temperature (md L)) 37)
then
  let kelvin := (273.15 + Q2R (temperature (md L)))%R in
  ((RT / 310.15) * kelvin)%R
else RT.

(** The property [transcript]. *)
Definition transcript (L : landscape) : string :=
substring 0 (transcript_length L) (sequence L).

Definition has_node (L : landscape) (n : key) : bool :=
has_key String.eqb n (nodes L).

Definition has_edge (L : landscape) (s1 s2 : key) : bool :=
has_key pair_eqb (s1, s2) (edges L).

Definition has_cg_edge (L : landscape) (s1 s2 : key) : bool :=
has_key pair_eqb (s1, s2) (cg_edges L).

(** [self.nodes[k]] *)
Definition node_at (k : key) (ns : nodes_t) : result node :=
getitem String.eqb k ns.

(** [self.nodes[k][attr] = ...], the new record being [f] of the old. *)
Definition update_node (f : node -> node) (k : key) (ns : nodes_t)
  : result nodes_t :=
_ <- node_at k ns ;; Ok (alter String.eqb f k ns).

(** [f'{prefix}{nodeID}'] *)
Definition auto_identity (L : landscape) : string :=
prefix L ++ NilEmpty.string_of_uint (Nat.to_uint (nodeID L)).

(** [addnode]: every keyword argument is passed explicitly; the defaults of
    the source are [occupancy = 0], [identity = None], [energy = None],
    [active = True], [pruned = 0] and [None] for the three sets. *)
Definition addnode (L : landscape) (k : key) (structure : option string)
           (occupancy : Q) (identity : option string) (energy : option Z)
           (active : bool) (pruned : Z)
           (lminreps hiddennodes occtransfer : option (list key))
  : result landscape :=
_ <- assert (negb (has_node L k)) ;;
let energy :=
  match energy, structure with
  | Some e, _ => Some e
  | None, Some s => Some (fc_eval_structure (sequence L) (md L) s)
  | None, None => None
  end in
let '(identity, L) :=
  match identity with
  | Some i => (i, L)
  | None => (auto_identity L, with_nodeID (S (nodeID L)) L)
  end in
Ok (with_nodes
      (setitem String.eqb k
         (mkNode structure occupancy identity energy active pruned
                 lminreps hiddennodes occtransfer)
         (nodes L)) L).

(** [addedge(n1, n2, weight, **kwargs)]; of the keyword arguments only
    [saddle_energy] is modelled ([None] here: the keyword is not passed). *)
Definition addedge (L : landscape) (n1 n2 : key) (w : option R)
           (kw_saddle_energy : option (option Z)) : result landscape :=
_ <- assert (has_node L n1) ;;
_ <- assert (has_node L n2) ;;
let es :=
  if negb (has_edge L n1 n2)
  then setitem pair_eqb (n1, n2) (mkEdge w None) (edges L)
  else edges L in
let es :=
  match kw_saddle_energy with
  | Some se => alter pair_eqb (set_saddle_energy se) (n1, n2) es
  | None => es
  end in
Ok (with_edges es L).

(** [get_rate]: the weight of the edge, or [0] when there is none. *)
Definition get_rate (L : landscape) (s1 s2 : key) : result (option R) :=
if has_edge L s1 s2
then e <- getitem pair_eqb (s1, s2) (edges L) ;; Ok (weight e)
else Ok (Some 0%R).

(** [get_saddle]: the saddle energy of the edge, or [None]. *)
Definition get_saddle (L : landscape) (s1 s2 : key) : result (option Z) :=
if has_edge L s1 s2
then e <- getitem pair_eqb (s1, s2) (edges L) ;;
     match saddle_energy e with
     | Some se => Ok se
     | None => Raise KeyError
     end
else Ok None.

(** [get_cg_saddle] *)
Definition get_cg_saddle (L : landscape) (s1 s2 : key) : option Z :=
if has_cg_edge L s1 s2
then option_map cg_saddle_energy (lookup pair_eqb (s1, s2) (cg_edges L))
else None.

Definition keys_where (p : node -> bool) (ns : nodes_t) : list key :=
map fst (filter (fun kd => p (snd kd)) ns).

Definition local_mins (L : landscape) : list key :=
keys_where (fun d => negb (truthy (lminreps d))) (nodes L).

Definition active_local_mins (L : landscape) : list key :=
keys_where (fun d => active d && negb (truthy (lminreps d))) (nodes L).

Definition hidden_nodes (L : landscape) : list key :=
keys_where (fun d => truthy (lminreps d)) (nodes L).

Definition active_nodes (L : landscape) : list key :=
keys_where active (nodes L).

Definition inactive_nodes (L : landscape) : list key :=
keys_where (fun d => negb (active d)) (nodes L).

(* ---------------- expand ---------------- *)

(** ['.' * n] *)
Definition dots (n : nat) : string :=
string_of_list_ascii (repeat "."%char n).

Definition pair_set_add (p : key * key) (s : list (key * key))
  : list (key * key) :=
if existsb (pair_eqb p) s then s else s ++ [p].

(** A comprehension with a condition that may raise. *)
Fixpoint filterM {A : Type} (p : A -> result bool) (l : list A)
  : result (list A) :=
match l with
| [] => Ok []
| x :: r =>
    b <- p x ;;
    r' <- filterM p r ;;
    Ok (if b then x :: r' else r')
end.

(** The step [expand] repeats for every structure [k] it comes across:
    a new key becomes a node (and a member of [nn]), an inactive node is
    reactivated (and a member of [on]).  [checked] is set where the source
    asserts that the new node is active; [en] is the energy passed to
    [addnode], if any. *)
Definition discover (checked : bool) (k : key) (en : option Z)
           (st : landscape * list key * list key)
  : result (landscape * list key * list key) :=
let '(L, nn, on) := st in
if negb (has_node L k) then
  L <- addnode L k (Some k) 0 None en true 0 None None None ;;
  let nn := set_add k nn in
  _ <- (if checked
        then d <- node_at k (nodes L) ;; assert (active d)
        else Ok tt) ;;
  Ok (L, nn, on)
else
  d <- node_at k (nodes L) ;;
  if negb (active d) then
    let on := set_add k on in
    ns <- update_node (set_active true) k (nodes L) ;;
    Ok (with_nodes ns L, nn, on)
  else Ok (L, nn, on).

(** The condition of the comprehension that selects the seed edges:
    both ends active and a saddle energy that is not [None]. *)
Definition seed_edge (ns : nodes_t) (kv : (key * key) * edge)
  : result bool :=
d0 <- node_at (fst (fst kv)) ns ;;
if active d0 then
  d1 <- node_at (snd (fst kv)) ns ;;
  if active d1 then
    match saddle_energy (snd kv) with
    | Some (Some _) => Ok true
    | Some None => Ok false
    | None => Raise KeyError
    end
  else Ok false
else Ok false.

Definition timing : Type := (Q * Q * Q * Q)%type.

Definition expand (L : landscape) (performance_report : bool)
  : result (landscape * list key * list key * option timing) :=
let fseq := sequence L in
let L := with_transcript_length (S (transcript_length L)) L in
let L :=
  if (String.length fseq <? transcript_length L)%nat
  then with_transcript_length (String.length fseq) L
  else L in
let seq := transcript L in
(* Calculate MFE of current transcript. *)
let mfess := fc_backtrack fseq (md L) (String.length seq) in
let future := dots (String.length fseq - String.length seq) in
let mfess := (mfess ++ future)%string in
if (List.length (nodes L) =? 0)%nat then
  L <- addnode L mfess (Some mfess) 1 None None true 0 None None None ;;
  Ok (L, [mfess], [],
      if performance_report then Some (0, 0, 0, 0) else None)
else
  let parents :=
    map (substring 0 (String.length seq)) (active_local_mins L) in
  let fraying_nodes :=
    find_fraying_neighbors seq (md L) parents (mfree L) in
  (* 1) Add all new structures to the set of nodes. *)
  st <- discover true mfess None (L, [], []) ;;
  st <- foldM (fun fns st =>
                 foldM (fun fn st => discover true (fn ++ future)%string None st)
                       fns st)
              (map snd fraying_nodes) st ;;
  let '(L, nn, on) := st in
  let ndata_keys :=
    set_of_list (map (substring 0 (String.length seq)) (active_nodes L)) in
  let '(gnodes, gedges) := get_guide_graph seq (md L) ndata_keys in
  _ <- assert (forallb (fun g => negb (String.eqb (fst g) "")) gnodes) ;;
  st <- foldM (fun g st => discover false (fst g ++ future)%string None st)
              gnodes (L, nn, on) ;;
  let '(L, nn, on) := st in
  let ndata := filter (fun kd => active (snd kd)) (nodes L) in
  let gedges :=
    fold_left (fun s xy => pair_set_add ((fst xy ++ future)%string,
                                      (snd xy ++ future)%string) s)
              gedges [] in
  (* 2) Include edge-data from previous network if nodes are active. *)
  edata <- filterM (seed_edge (nodes L)) (edges L) ;;
  let '(ndata, edata) :=
    neighborhood_flooding (fseq, md L, fpwm L) ndata gedges edata (minh L) in
  (* 3) Extract new node data. *)
  st <- foldM (fun ne st =>
                 st <- discover false (fst ne) (Some (snd ne)) st ;;
                 d <- node_at (fst ne) (nodes (fst (fst st))) ;;
                 _ <- assert (match energy d with
                              | Some e => Z.eqb e (snd ne)
                              | None => false
                              end) ;;
                 Ok st)
              ndata (L, nn, on) ;;
  let '(L, nn, on) := st in
  (* 4) Update to new edges. *)
  L <- foldM (fun xyse L =>
                addedge L (fst (fst xyse)) (snd (fst xyse)) None
                        (Some (snd xyse)))
             edata L ;;
  Ok (L, nn, on,
      if performance_report then Some (elapsed (String.length seq)) else None).

(* ---------------- get_coarse_network ---------------- *)

Definition Qlen (l : list key) : Q := inject_Z (Z.of_nat (List.length l)).

(** The body of [for tn in self.nodes[n]['occtransfer']]: the target has
    to be active and receives its share of the occupancy of [n]. *)
Definition transfer_to (n : key) (tn : key) (ns : nodes_t)
  : result nodes_t :=
dt <- node_at tn ns ;;
_ <- assert (active dt) ;;
dn <- node_at n ns ;;
tg <- iter (occtransfer dn) ;;
update_node (add_occupancy (occupancy dn / Qlen tg)) tn ns.

(** One round of the first loop: the two sets of [n] are reset, and if [n]
    is inactive with a nonzero occupancy, that occupancy is handed in equal
    shares to the nodes of [occtransfer], each of which has to be active. *)
Definition reset_and_transfer (n : key) (ns : nodes_t) : result nodes_t :=
ns <- update_node (set_lminreps (Some [])) n ns ;;
ns <- update_node (set_hiddennodes (Some [])) n ns ;;
d <- node_at n ns ;;
if negb (active d) && negb (Qeq_bool (occupancy d) 0) then
  targets <- iter (occtransfer d) ;;
  ns <- foldM (transfer_to n) targets ns ;;
  update_node (set_occupancy 0) n ns
else Ok ns.

(** Lines 305-314: the first loop of [get_coarse_network]. *)
Definition transfer_inactive (ns : nodes_t) : result nodes_t :=
foldM reset_and_transfer (map fst ns) ns.

(** The condition of the comprehension for [edata]. *)
Definition both_active (ns : nodes_t) (kv : (key * key) * edge)
  : result bool :=
d0 <- node_at (fst (fst kv)) ns ;;
if active d0 then d1 <- node_at (snd (fst kv)) ns ;; Ok (active d1)
else Ok false.

(** [self.k0 * math.e**(-bar/self.RT)] with [bar = (se-ex) / 100] *)
Definition arrhenius (L : landscape) (se ex : Z) : R :=
let bar := (IZR (se - ex) / 100)%R in
(Q2R (k0 L) * Rpower (exp 1) (- bar / RT L))%R.

(** Translate coarse grain results to TL: one coarse edge. *)
Definition store_cg_edge (L : landscape) (cg_ndata : nodes_t)
           (xyse : (key * key) * Z) (ce : cg_edges_t) : result cg_edges_t :=
let se := snd xyse in
dx <- getitem String.eqb (fst (fst xyse)) cg_ndata ;;
match energy dx with
| None => Raise TypeError
| Some ex =>
    Ok (setitem pair_eqb (fst xyse) (mkCgEdge se (arrhenius L se ex)) ce)
end.

(** The body of [for hn in hidden]: the hidden node has to be active and
    gets [lmin] as one of its representatives. *)
Definition add_representative (lmin : key) (hn : key) (ns : nodes_t)
  : result nodes_t :=
dh <- node_at hn ns ;;
_ <- assert (active dh) ;;
reps <- iter (lminreps dh) ;;
update_node (set_lminreps (Some (set_add lmin reps))) hn ns.

(** One item [(lmin, hidden)] of [cg_mapping]. *)
Definition record_mapping (lh : key * list key) (ns : nodes_t)
  : result nodes_t :=
let '(lmin, hidden) := lh in
dl <- node_at lmin ns ;;
_ <- assert (active dl) ;;
ns <- foldM (add_representative lmin) hidden ns ;;
update_node (set_hiddennodes (Some hidden)) lmin ns.

(** The body of [for lrep in self.nodes[hn]['lminreps']]: the
    representative receives its share of the occupancy of [hn]. *)
Definition share_with (hn : key) (lrep : key) (ns : nodes_t)
  : result nodes_t :=
dh <- node_at hn ns ;;
reps <- iter (lminreps dh) ;;
update_node (add_occupancy (occupancy dh / Qlen reps)) lrep ns.

(** Move occupancy to lmins: the body of the last loop.  [n] is the
    variable the first loop left behind (the last key of [self.nodes]). *)
Definition move_to_lmins (n : key) (hn : key) (ns : nodes_t)
  : result nodes_t :=
dn <- node_at n ns ;;
_ <- (if negb (active dn) then assert (Qeq_bool (occupancy dn) 0)
      else Ok tt) ;;
dh <- node_at hn ns ;;
ns <- (if negb (Qeq_bool (occupancy dh) 0) then
         reps <- iter (lminreps dh) ;;
         foldM (share_with hn) reps ns
       else Ok ns) ;;
ns <- update_node (set_occupancy 0) hn ns ;;
update_node (set_active false) hn ns.

Definition get_coarse_network (L : landscape)
  : result (landscape * nat * nat) :=
let minh := minh L in
ns <- transfer_inactive (nodes L) ;;
let L := with_nodes ns L in
let ndata := filter (fun kd => active (snd kd)) (nodes L) in
edata <- filterM (both_active (nodes L)) (edges L) ;;
let '(cg_ndata, cg_edata, cg_mapping) :=
  top_down_coarse_graining ndata edata minh in
_ <- assert (forallb (fun kd => has_key String.eqb (fst kd) ndata)
                     cg_ndata) ;;
(* Translate coarse grain results to TL. *)
ce <- foldM (store_cg_edge L cg_ndata) cg_edata [] ;;
let L := with_cg_edges ce L in
ns <- foldM record_mapping cg_mapping (nodes L) ;;
let L := with_nodes ns L in
(* Move occupancy to lmins. *)
ns <- foldM (move_to_lmins (last (map fst (nodes L)) ""))
            (hidden_nodes L) (nodes L) ;;
Ok (with_nodes ns L, List.length cg_ndata, List.length cg_edata).

(* ---------------- occupancies and simulation ---------------- *)

(** [set_occupancies] *)
Fixpoint set_occupancies (ns : nodes_t) (snodes : list key) (pt : list Q)
  : result nodes_t :=
match snodes with
| [] => Ok ns
| n :: snodes' =>
    match pt with
    | [] => Raise IndexError
    | p :: pt' =>
        ns <- update_node (set_occupancy p) n ns ;;
        set_occupancies ns snodes' pt'
    end
end.

(** A comprehension whose element expression may raise. *)
Fixpoint mapM {A B : Type} (f : A -> result B) (l : list A)
  : result (list B) :=
match l with
| [] => Ok []
| x :: r => y <- f x ;; r' <- mapM f r ;; Ok (y :: r')
end.

(** [sorted(l, key = f)] for integer keys: stable. *)
Fixpoint insert_by_int (f : key -> Z) (x : key) (l : list key) : list key :=
match l with
| [] => [x]
| y :: r => if (f x <=? f y)%Z then x :: l else y :: insert_by_int f x r
end.

Definition sorted_by_int (f : key -> Z) (l : list key) : list key :=
fold_right (insert_by_int f) [] l.

(** [self.nodes[x]['energy']] of a node [x] of the graph. *)
Definition energy_at (ns : nodes_t) (x : key) : option Z :=
match lookup String.eqb x ns with
| Some d => energy d
| None => None
end.

Definition int_energy (ns : nodes_t) (x : key) : Z :=
match energy_at ns x with
| Some e => e
| None => 0%Z
end.

(** [get_occupancies]: the active local minima by ascending energy, and
    their occupancies.  An energy that is [None] cannot be compared with
    another energy ([TypeError]); [sorted] compares every key of a list of
    two or more keys at least once, and none of a shorter list. *)
Definition get_occupancies (L : landscape) : result (list key * list Q) :=
let lms := active_local_mins L in
if (1 <? List.length lms)%nat
   && existsb (fun x => match energy_at (nodes L) x with
                        | Some _ => false
                        | None => true
                        end) lms
then Raise TypeError
else
  let snodes := sorted_by_int (int_energy (nodes L)) lms in
  p0 <- mapM (fun n => d <- node_at n (nodes L) ;; Ok (occupancy d)) snodes ;;
  Ok (snodes, p0).

(** [sum(p0)] *)
Definition Qsum (l : list Q) : Q := fold_left Qplus l 0.

(** [np.isclose(a, b)] with numpy's defaults [rtol = 1e-05] and
    [atol = 1e-08], in exact arithmetic. *)
Definition isclose (a b : Q) : bool :=
Qle_bool (Qabs (a - b)) ((1 # 100000000) + (1 # 100000) * Qabs b).

(** [R[j][i] = self.cg_edges[(ni, nj)]['weight']], zero elsewhere. *)
Definition rate_matrix (L : landscape) (snodes : list key) : list (list R) :=
map (fun nj =>
       map (fun ni =>
              if has_cg_edge L ni nj then
                match lookup pair_eqb (ni, nj) (cg_edges L) with
                | Some ce => cg_weight ce
                | None => 0%R
                end
              else 0%R)
           snodes)
    snodes.

(** [get_equilibrium_occupancies] *)
Definition get_equilibrium_occupancies (L : landscape) (snodes : list key)
  : list Q :=
get_p8_detbal (rate_matrix L snodes).

(** [l[-1]] *)
Definition last_item (l : list Q) : result Q :=
match l with
| [] => Raise IndexError
| x :: r => Ok (last r x)
end.

(** [l[0]] *)
Definition first_item (l : list Q) : result Q :=
match l with
| [] => Raise IndexError
| x :: _ => Ok x
end.

(** [for ft in force: yield ft, pt] followed by [k]. *)
Fixpoint yield_each (pt : list Q) (force : list Q) (k : trace) : trace :=
match force with
| [] => k
| ft :: r => Yield ft pt (yield_each pt r k)
end.

(** The forced times of the single-node branch. *)
Definition single_node_force (times : list Q) (force : option (list Q))
  : result (list Q) :=
match force with
| None => tl <- last_item times ;; Ok [tl]
| Some force =>
    fl <- last_item force ;;
    tl <- last_item times ;;
    if negb (Qle_bool tl fl) then Ok (force ++ [tl]) else Ok force
end.

(** The body of the generator function [simulate]: what it does once its
    first element is asked for. *)
Definition simulate_body (L : landscape) (snodes : list key) (p0 : list Q)
           (times : list Q) (force : option (list Q)) (atol rtol : Q)
  : trace :=
if negb (isclose (Qsum p0) 1) then Throw AssertionError
else
  let dim := List.length snodes in
  if (dim =? 1)%nat then
    match single_node_force times force with
    | Raise e => Throw e
    | Ok force =>
        match first_item times, first_item force with
        | Ok t0, Ok f0 =>
            if negb (Qeq_bool t0 f0)
            then Yield t0 [1] (yield_each [1] force Stop)
            else yield_each [1] force Stop
        | Raise e, _ => Throw e
        | _, Raise e => Throw e
        end
    end
  else mx_simulate (rate_matrix L snodes) p0 times force atol rtol.

(** A generator object: [pending] is what is left of its body. *)
Record generator : Type := mkGenerator { pending : trace }.

(** [simulate] contains [yield], so it is a generator function: the call
    binds the arguments and returns the generator; nothing of the body has
    run when the call returns. *)
Definition simulate (L : landscape) (snodes : list key) (p0 : list Q)
           (times : list Q) (force : option (list Q)) (atol rtol : Q)
  : result generator :=
Ok (mkGenerator (simulate_body L snodes p0 times force atol rtol)).

(** [next(g)]: a sample, [StopIteration], or the exception the body raises;
    a generator that stopped or raised is exhausted. *)
Definition next (g : generator) : result (option (Q * list Q)) * generator :=
match pending g with
| Yield t pt rest => (Ok (Some (t, pt)), mkGenerator rest)
| Stop => (Ok None, mkGenerator Stop)
| Throw e => (Raise e, mkGenerator Stop)
end.

(** [list(g)]: every sample the generator produces, and the exception that
    ended the iteration, if any. *)
Fixpoint drain (tr : trace) : list (Q * list Q) * option fault :=
match tr with
| Stop => ([], None)
| Yield t pt rest => let '(l, e) := drain rest in ((t, pt) :: l, e)
| Throw e => ([], Some e)
end.

(* ---------------- prune ---------------- *)

Definition occupancy_of (ns : nodes_t) (k : key) : Q :=
match lookup String.eqb k ns with
| Some d => occupancy d
| None => 0
end.

(** [sorted(l, key = f)]: stable. *)
Fixpoint insert_by (f : key -> Q) (x : key) (l : list key) : list key :=
match l with
| [] => [x]
| y :: r => if Qle_bool (f x) (f y) then x :: l else y :: insert_by f x r
end.

Definition sorted_by (f : key -> Q) (l : list key) : list key :=
fold_right (insert_by f) [] l.

(** The loop over the hidden nodes of a local minimum that is being
    deactivated: each has to be empty and is deactivated. *)
Definition hide (hn : key) (ns : nodes_t) : result nodes_t :=
dh <- node_at hn ns ;;
_ <- assert (Qeq_bool (occupancy dh) 0) ;;
update_node (set_active false) hn ns.

(** The first loop of [prune], over the active local minima sorted by
    occupancy; leaving the recursion early is the [break]. *)
Fixpoint deactivate_lms (keep : option (list key)) (pmin : Q)
         (lms : list key) (tot_pruned : Q) (ns : nodes_t)
         (new_inactive_lms : list key) : result (nodes_t * list key) :=
match lms with
| [] => Ok (ns, new_inactive_lms)
| lm :: rest =>
    kp <- iter keep ;;
    if mem lm kp
    then deactivate_lms keep pmin rest tot_pruned ns new_inactive_lms
    else
      ns <- update_node (set_pruned 0) lm ns ;;
      d <- node_at lm ns ;;
      if negb (Qle_bool (tot_pruned + occupancy d) pmin)
      then Ok (ns, new_inactive_lms)
      else
        let tot_pruned := tot_pruned + occupancy d in
        hidden <- iter (hiddennodes d) ;;
        ns <- foldM hide hidden ns ;;
        ns <- update_node (set_active false) lm ns ;;
        deactivate_lms keep pmin rest tot_pruned ns
                       (new_inactive_lms ++ [lm])
end.

(** The loop over [self.cg_edges] in [get_active_nbrs]: the active
    neighbours are yielded, the inactive ones remembered. *)
Fixpoint scan_cg_edges (ns : nodes_t) (lm : key) (forbidden : list key)
         (es : list (key * key)) (found : bool) (yielded remaining : list key)
  : result (bool * list key * list key) :=
match es with
| [] => Ok (found, yielded, remaining)
| (x, y) :: r =>
    _ <- assert (negb (String.eqb x y)) ;;
    if String.eqb x lm && negb (mem y forbidden) then
      d <- node_at y ns ;;
      if active d
      then scan_cg_edges ns lm forbidden r true (yielded ++ [y]) remaining
      else scan_cg_edges ns lm forbidden r found yielded (remaining ++ [y])
    else scan_cg_edges ns lm forbidden r found yielded remaining
end.

(** [get_active_nbrs(lm, forbidden)]: the keys it yields, in order, and
    the set [forbidden] as the call leaves it (the set is shared by all
    recursive calls).  [depth] bounds the depth of the recursion; running
    out of it is a [RecursionError]. *)
Fixpoint get_active_nbrs_rec (depth : nat) (ce : list (key * key))
         (ns : nodes_t) (lm : key) (forbidden : list key)
  : result (list key * list key) :=
match depth with
| O => Raise RecursionError
| S depth' =>
    let forbidden := set_add lm forbidden in
    '(found, yielded, remaining) <-
      scan_cg_edges ns lm forbidden ce false [] [] ;;
    if negb found then
      foldM (fun r yf =>
               dr <- node_at r ns ;;
               _ <- assert (negb (active dr)) ;;
               '(ys, forbidden) <-
                 get_active_nbrs_rec depth' ce ns r (snd yf) ;;
               Ok (fst yf ++ ys, forbidden))
            remaining (yielded, forbidden)
    else Ok (yielded, forbidden)
end.

(** [get_active_nbrs(lm)]; the recursion cannot be deeper than the number
    of coarse edges plus one, which is shown below. *)
Definition get_active_nbrs (ce : cg_edges_t) (ns : nodes_t) (lm : key)
  : result (list key) :=
'(ys, _) <- get_active_nbrs_rec (S (List.length ce)) (map fst ce) ns lm [] ;;
Ok ys.

(** The second loop of [prune]. *)
Definition set_occtransfer_of (ce : cg_edges_t) (lm : key) (ns : nodes_t)
  : result nodes_t :=
d <- node_at lm ns ;;
_ <- assert (negb (active d)) ;;
ys <- get_active_nbrs ce ns lm ;;
ns <- update_node (set_occtransfer (Some (set_of_list ys))) lm ns ;;
_ <- assert (0 <? List.length (set_of_list ys))%nat ;;
Ok ns.

(** [node in (x, y)] *)
Definition touches (k : key) (xy : key * key) : bool :=
String.eqb k (fst xy) || String.eqb k (snd xy).

(** The body of the last loop of [prune]. *)
Definition age_node (delth : Z) (k : key)
           (st : nodes_t * edges_t * list key * list key)
  : result (nodes_t * edges_t * list key * list key) :=
let '(ns, es, pn, dn) := st in
d <- node_at k ns ;;
'(ns, pn) <-
  (if active d then
     ns <- update_node (set_pruned 0) k ns ;; Ok (ns, pn)
   else
     ns <- update_node (set_pruned (pruned d + 1)) k ns ;;
     d <- node_at k ns ;;
     Ok (ns, if (pruned d =? 1)%Z then set_add k pn else pn)) ;;
d <- node_at k ns ;;
if (delth <? pruned d)%Z then
  let es := filter (fun e => negb (touches k (fst e))) es in
  Ok (remove_key String.eqb k ns, es, pn, set_add k dn)
else Ok (ns, es, pn, dn).

(** [prune(pmin, delth, keep)]; the defaults of the source are
    [delth = 10] and [keep = None]. *)
Definition prune (L : landscape) (pmin : Q) (delth : Z)
           (keep : option (list key))
  : result (landscape * list key * list key) :=
let lms := sorted_by (occupancy_of (nodes L)) (active_local_mins L) in
'(ns, new_inactive_lms) <- deactivate_lms keep pmin lms 0 (nodes L) [] ;;
ns <- foldM (set_occtransfer_of (cg_edges L)) new_inactive_lms ns ;;
'(ns, es, pn, dn) <-
  foldM (age_node delth) (map fst ns) (ns, edges L, [], []) ;;
Ok (with_edges es (with_nodes ns L), pn, dn).

End Landscape.

(* ------------------------------------------------------------------ *)
(** ** Sequences of calls and the properties stated about them *)

(** The sum of the occupancies of all nodes. *)
Definition total_occupancy (ns : nodes_t) : Q :=
fold_right (fun kd s => occupancy (snd kd) + s) 0 ns.

(** A node is not at once hidden behind representatives and itself a
    representative of hidden nodes. *)
Definition exclusive (d : node) : Prop :=
truthy (lminreps d) && truthy (hiddennodes d) = false.

(** The calls that change a landscape. *)
Inductive op : Type :=
| OpExpand (performance_report : bool)
| OpCoarse
| OpPrune (pmin : Q) (delth : Z) (keep : option (list key))
| OpSetOccupancies (snodes : list key) (pt : list Q).

Section Calls.
Context {X : Externals}.

Definition exec (o : op) (L : landscape) : result landscape :=
match o with
| OpExpand pr => '(L, _, _, _) <- expand L pr ;; Ok L
| OpCoarse => '(L, _, _) <- get_coarse_network L ;; Ok L
| OpPrune pmin delth keep => '(L, _, _) <- prune L pmin delth keep ;; Ok L
| OpSetOccupancies snodes pt =>
    ns <- set_occupancies (nodes L) snodes pt ;; Ok (with_nodes ns L)
end.

Definition run (ops : list op) (L : landscape) : result landscape :=
foldM exec ops L.


(** The order of one transcription step without the simulation:
    [expand], [get_coarse_network], [prune], and again.  [i] is the
    position in the step at which [ops] starts. *)
Fixpoint step_order (i : nat) (ops : list op) : bool :=
match ops with
| [] => true
| o :: r =>
    match i, o with
    | 0%nat, OpExpand _ => step_order 1 r
    | 1%nat, OpCoarse => step_order 2 r
    | 2%nat, OpPrune _ _ _ => step_order 0 r
    | _, _ => false
    end
end.

(** Every [prune] of [ops] keeps an inactive node for at least one round. *)
Definition delays_eviction (ops : list op) : Prop :=
Forall (fun o => match o with
                 | OpPrune _ delth _ => (1 <= delth)%Z
                 | _ => True
                 end) ops.

(** The contract of the coarse-graining collaborator used below: the
    representatives and the hidden nodes of a mapping are disjoint. *)
Definition coarse_graining_partitions : Prop :=
forall ndata edata minh lmin hidden lmin' hidden',
  In (lmin, hidden) (snd (top_down_coarse_graining ndata edata minh)) ->
  In (lmin', hidden') (snd (top_down_coarse_graining ndata edata minh)) ->
  ~ In lmin hidden'.

(** The representatives come with the energies of the nodes passed in. *)
Definition coarse_graining_keeps_energies : Prop :=
forall ndata edata minh k d,
  In (k, d) (fst (fst (top_down_coarse_graining ndata edata minh))) ->
  exists d', In (k, d') ndata /\ energy d' = energy d.

End Calls.

(* ------------------------------------------------------------------ *)
(** ** A small landscape to run the class on

    The sequence is GGGAAACCC.  The collaborators below know three
    structures: the open chain and, once eight nucleotides are transcribed,
    two hairpins; coarse graining hides the open chain behind both
    hairpins. *)

Module Example.

Definition fseq : string := "GGGAAACCC".
Definition open_chain : key := ".........".
Definition hairpin1 : key := "(......).".
Definition hairpin2 : key := ".(.....).".

Definition node_energy (kd : key * node) : Z :=
match energy (snd kd) with Some e => e | None => 0%Z end.

Definition is_key (k : key) (kd : key * node) : bool := String.eqb (fst kd) k.

#[export] Instance collaborators : Externals := {|
  fc_backtrack := fun _ _ n => dots n;
  fc_eval_structure := fun _ _ s =>
    if String.eqb s open_chain then 0%Z else (-120)%Z;
  find_fraying_neighbors := fun _ _ _ _ => [];
  get_guide_graph := fun seq _ _ =>
    if (String.length seq =? 8)%nat
    then ([("(......)", (-120)%Z); (".(.....)", (-120)%Z)],
          [("........", "(......)"); ("(......)", "........");
           ("........", ".(.....)"); (".(.....)", "........")])
    else ([], []);
  neighborhood_flooding := fun _ ndata gedges _ _ =>
    (map (fun kd => (fst kd, node_energy kd)) ndata,
     map (fun xy => (xy, Some 180%Z)) gedges);
  top_down_coarse_graining := fun ndata _ _ =>
    if existsb (is_key open_chain) ndata
       && existsb (is_key hairpin1) ndata
       && existsb (is_key hairpin2) ndata
    then (filter (fun kd => negb (is_key open_chain kd)) ndata,
          [((hairpin1, hairpin2), 180%Z); ((hairpin2, hairpin1), 180%Z)],
          [(hairpin1, [open_chain]); (hairpin2, [open_chain])])
    else (ndata, [], map (fun kd => (fst kd, [])) ndata);
  mx_simulate := fun _ _ _ _ _ _ => Stop;
  get_p8_detbal := fun _ => [];
  elapsed := fun _ => (0, 0, 0, 0)
|}.

(** A fresh landscape whose transcript length was set to six. *)
Definition fresh : landscape :=
with_transcript_length 6 (init fseq (mkMD 37) "n").

(** One transcription step without the simulation. *)
Definition step (pmin : Q) (delth : Z) : list op :=
[OpExpand false; OpCoarse; OpPrune pmin delth (Some [])].

(** Two local minima [A] (occupancy 0.7) and [B] (occupancy 0.3) joined by
    coarse edges in both directions. *)
Definition A : key := "((...))".
Definition B : key := ".(...).".

Definition two_minima : landscape :=
mkLandscape "GGAAACC" (mkMD 37) "n" 2
  [(A, mkNode (Some A) (7 # 10) "n0" (Some (-150)%Z) true 0
              (Some []) (Some []) None);
   (B, mkNode (Some B) (3 # 10) "n1" (Some (-40)%Z) true 0
              (Some []) (Some []) None)]
  [((A, B), mkEdge None (Some (Some 60%Z)));
   ((B, A), mkEdge None (Some (Some 60%Z)))]
  [((A, B), mkCgEdge 60 1%R); ((B, A), mkCgEdge 60 1%R)]
  200000 0 0 6 7.

(** [two_minima] after [prune(pmin = 0.3, delth = 10, keep = {})]. *)
Definition two_minima_pruned : landscape :=
mkLandscape "GGAAACC" (mkMD 37) "n" 2
  [(A, mkNode (Some A) (7 # 10) "n0" (Some (-150)%Z) true 0
              (Some []) (Some []) None);
   (B, mkNode (Some B) (3 # 10) "n1" (Some (-40)%Z) false 1
              (Some []) (Some []) (Some [A]))]
  (edges two_minima) (cg_edges two_minima) 200000 0 0 6 7.


(** The landscape after the first step and the second [expand]. *)
Definition expanded : landscape :=
mkLandscape fseq (mkMD 37) "n" 3
  [(open_chain, mkNode (Some open_chain) 1 "n0" (Some 0%Z) true 0
                       (Some []) (Some []) None);
   (hairpin1, mkNode (Some hairpin1) 0 "n1" (Some (-120)%Z) true 0
                     None None None);
   (hairpin2, mkNode (Some hairpin2) 0 "n2" (Some (-120)%Z) true 0
                     None None None)]
  [((open_chain, hairpin1), mkEdge None (Some (Some 180%Z)));
   ((hairpin1, open_chain), mkEdge None (Some (Some 180%Z)));
   ((open_chain, hairpin2), mkEdge None (Some (Some 180%Z)));
   ((hairpin2, open_chain), mkEdge None (Some (Some 180%Z)))]
  []
  200000 0 0 6 8.

(** The same after [get_coarse_network]: the open chain is hidden behind
    both hairpins and its occupancy is shared between them. *)
Definition coarse : landscape :=
mkLandscape fseq (mkMD 37) "n" 3
  [(open_chain, mkNode (Some open_chain) 0 "n0" (Some 0%Z) false 0
                       (Some [hairpin1; hairpin2]) (Some []) None);
   (hairpin1, mkNode (Some hairpin1) (0 + 1 / Qlen [hairpin1; hairpin2])
                     "n1" (Some (-120)%Z) true 0
                     (Some []) (Some [open_chain]) None);
   (hairpin2, mkNode (Some hairpin2) (0 + 1 / Qlen [hairpin1; hairpin2])
                     "n2" (Some (-120)%Z) true 0
                     (Some []) (Some [open_chain]) None)]
  (edges expanded)
  [((hairpin1, hairpin2),
    mkCgEdge 180 (arrhenius expanded 180 (-120)));
   ((hairpin2, hairpin1),
    mkCgEdge 180 (arrhenius expanded 180 (-120)))]
  200000 0 0 6 8.

End Example.

(* ------------------------------------------------------------------ *)
(** * Properties *)

(** ** The exception monad *)

Lemma bind_Ok {A B : Type} (m : result A) (f : A -> result B) (b : B) :
  bind m f = Ok b -> exists a, m = Ok a /\ f a = Ok b.
Proof. destruct m as [a|e]; simpl; [eauto | discriminate]. Qed.

Lemma assert_Ok (c : bool) (u : unit) : assert c = Ok u -> c = true.
Proof. destruct c; [reflexivity | discriminate]. Qed.

Lemma iter_Ok (s : option (list key)) (l : list key) :
  iter s = Ok l -> s = Some l.
Proof. destruct s; simpl; congruence. Qed.

(** Decompose a successful monadic computation into its steps. *)
Ltac monad_inv H :=
  match type of H with
  | bind ?m ?f = Ok ?b =>
      let a := fresh "r" in
      let H1 := fresh "E" in
      let H2 := fresh "E" in
      apply bind_Ok in H; destruct H as [a [H1 H2]];
      cbv beta in H2; try monad_inv H1; try monad_inv H2
  | assert ?c = Ok ?u => apply assert_Ok in H
  | iter ?s = Ok ?l => apply iter_Ok in H
  | Ok ?a = Ok ?b => injection H as H; subst
  | Raise ?e = Ok ?b => discriminate H
  | (let '(x, y) := ?p in _) = Ok ?b =>
      let a := fresh x in let c := fresh y in
      destruct p as [a c]; try monad_inv H
  end.

Lemma foldM_invariant {A S : Type} (f : A -> S -> result S) (P : S -> Prop)
      (l : list A) :
  (forall x s s', In x l -> P s -> f x s = Ok s' -> P s') ->
  forall s s', P s -> foldM f l s = Ok s' -> P s'.
Proof.
  induction l as [|x l IH]; simpl; intros Hstep s s' Hs Hf.
  - injection Hf as <-. exact Hs.
  - apply bind_Ok in Hf. destruct Hf as [s1 [H1 H2]].
    apply (IH (fun y s0 s0' Hy => Hstep y s0 s0' (or_intror Hy)) s1 s'); auto.
    apply (Hstep x s s1); auto.
Qed.

(** The same with the elements already visited in hand. *)
Lemma foldM_invariant_done {A S : Type} (f : A -> S -> result S)
      (P : list A -> S -> Prop) (l : list A) :
  (forall done x s s', In x l -> P done s -> f x s = Ok s' ->
                       P (done ++ [x]) s') ->
  forall done s s', P done s -> foldM f l s = Ok s' -> P (done ++ l) s'.
Proof.
  induction l as [|x l IH]; simpl; intros Hstep done s s' Hs Hf.
  - injection Hf as <-. now rewrite app_nil_r.
  - apply bind_Ok in Hf. destruct Hf as [s1 [H1 H2]].
    replace (done ++ x :: l) with ((done ++ [x]) ++ l)
      by (now rewrite <- app_assoc).
    apply (IH (fun d y s0 s0' Hy => Hstep d y s0 s0' (or_intror Hy))
              (done ++ [x]) s1 s'); auto.
    apply (Hstep done x s s1); auto.
Qed.

Lemma foldM_app {A S : Type} (f : A -> S -> result S) (l1 l2 : list A)
      (s : S) :
  foldM f (l1 ++ l2) s = (s' <- foldM f l1 s ;; foldM f l2 s').
Proof.
  revert s. induction l1 as [|x l1 IH]; simpl; intros s; [reflexivity|].
  destruct (f x s) as [s1|e]; simpl; [apply IH | reflexivity].
Qed.

(** ** Dictionaries *)

Section DictFacts.
Context {K V : Type}.
Variable eqb : K -> K -> bool.
Hypothesis eqb_spec : forall a b, reflect (a = b) (eqb a b).

Lemma lookup_In (k : K) (v : V) (m : list (K * V)) :
  lookup eqb k m = Some v -> In (k, v) m.
Proof.
  induction m as [|[k' v'] m IH]; simpl; [discriminate|].
  destruct (eqb_spec k k') as [->|Hne]; intros H.
  - injection H as ->. now left.
  - right. auto.
Qed.

Lemma lookup_None (k : K) (m : list (K * V)) :
  lookup eqb k m = None <-> ~ In k (map fst m).
Proof.
  induction m as [|[k' v'] m IH]; simpl; [tauto|].
  destruct (eqb_spec k k') as [->|Hne].
  - split; [discriminate | intros H; exfalso; auto].
  - rewrite IH. split; intros H; [intros [E|E]; [congruence | auto] | auto].
Qed.

Lemma In_lookup (k : K) (v : V) (m : list (K * V)) :
  NoDup (map fst m) -> In (k, v) m -> lookup eqb k m = Some v.
Proof.
  induction m as [|[k' v'] m IH]; simpl; [tauto|].
  intros Hnd [E|Hin]; inversion Hnd; subst.
  - injection E as -> ->. destruct (eqb_spec k k); congruence.
  - destruct (eqb_spec k k') as [->|Hne]; [|auto].
    exfalso. apply H1. change k' with (fst (k', v)). now apply in_map.
Qed.

Lemma lookup_key_In (k : K) (v : V) (m : list (K * V)) :
  lookup eqb k m = Some v -> In k (map fst m).
Proof.
  intros H. apply lookup_In in H. change k with (fst (k, v)).
  now apply in_map.
Qed.

Lemma has_key_true (k : K) (m : list (K * V)) :
  has_key eqb k m = true <-> In k (map fst m).
Proof.
  unfold has_key. destruct (lookup eqb k m) eqn:E.
  - split; [intros _; eapply lookup_key_In; eauto | reflexivity].
  - apply lookup_None in E. split; [discriminate | tauto].
Qed.

Lemma has_key_false (k : K) (m : list (K * V)) :
  has_key eqb k m = false <-> ~ In k (map fst m).
Proof.
  rewrite <- has_key_true. destruct (has_key eqb k m); split; congruence.
Qed.

Lemma keys_alter (f : V -> V) (k : K) (m : list (K * V)) :
  map fst (alter eqb f k m) = map fst m.
Proof.
  induction m as [|[k' v'] m IH]; simpl; [reflexivity|].
  destruct (eqb k k'); simpl; congruence.
Qed.

Lemma lookup_alter_same (f : V -> V) (k : K) (m : list (K * V)) :
  lookup eqb k (alter eqb f k m) = option_map f (lookup eqb k m).
Proof.
  induction m as [|[k' v'] m IH]; simpl; [reflexivity|].
  destruct (eqb k k') eqn:E; simpl; rewrite E; auto.
Qed.

Lemma lookup_alter_other (f : V -> V) (k k' : K) (m : list (K * V)) :
  k' <> k -> lookup eqb k' (alter eqb f k m) = lookup eqb k' m.
Proof.
  intros Hne. induction m as [|[k1 v1] m IH]; simpl; [reflexivity|].
  destruct (eqb_spec k k1) as [->|Hk]; simpl.
  - destruct (eqb_spec k' k1); congruence.
  - destruct (eqb k' k1); auto.
Qed.

Lemma lookup_alter (f : V -> V) (k k' : K) (m : list (K * V)) :
  lookup eqb k' (alter eqb f k m)
  = if eqb k' k then option_map f (lookup eqb k m) else lookup eqb k' m.
Proof.
  destruct (eqb_spec k' k) as [->|Hne].
  - apply lookup_alter_same.
  - now apply lookup_alter_other.
Qed.

Lemma lookup_app (k : K) (m m' : list (K * V)) :
  lookup eqb k (m ++ m')
  = match lookup eqb k m with
    | Some v => Some v
    | None => lookup eqb k m'
    end.
Proof.
  induction m as [|[k1 v1] m IH]; simpl; [reflexivity|].
  destruct (eqb k k1); auto.
Qed.

Lemma keys_remove_incl (k k' : K) (m : list (K * V)) :
  In k' (map fst (remove_key eqb k m)) -> In k' (map fst m).
Proof.
  induction m as [|[k1 v1] m IH]; simpl; [tauto|].
  destruct (eqb k k1); simpl; tauto.
Qed.

Lemma NoDup_remove_key (k : K) (m : list (K * V)) :
  NoDup (map fst m) -> NoDup (map fst (remove_key eqb k m)).
Proof.
  induction m as [|[k1 v1] m IH]; simpl; intros Hnd; [constructor|].
  inversion Hnd; subst. destruct (eqb k k1); simpl; [assumption|].
  constructor; [|auto]. intros Hin. apply H1. eapply keys_remove_incl; eauto.
Qed.

Lemma lookup_remove_same (k : K) (m : list (K * V)) :
  NoDup (map fst m) -> lookup eqb k (remove_key eqb k m) = None.
Proof.
  induction m as [|[k1 v1] m IH]; simpl; intros Hnd; [reflexivity|].
  inversion Hnd; subst. destruct (eqb_spec k k1) as [->|Hne]; simpl.
  - now apply lookup_None.
  - destruct (eqb_spec k k1); [congruence | auto].
Qed.

Lemma lookup_remove_other (k k' : K) (m : list (K * V)) :
  k' <> k -> lookup eqb k' (remove_key eqb k m) = lookup eqb k' m.
Proof.
  intros Hne. induction m as [|[k1 v1] m IH]; simpl; [reflexivity|].
  destruct (eqb_spec k k1) as [->|Hk]; simpl.
  - destruct (eqb_spec k' k1); congruence.
  - destruct (eqb k' k1); auto.
Qed.

Lemma In_alter (f : V -> V) (k k' : K) (v' : V) (m : list (K * V)) :
  In (k', v') (alter eqb f k m) ->
  In (k', v') m \/ (k' = k /\ exists v, lookup eqb k m = Some v /\ v' = f v).
Proof.
  induction m as [|[k1 v1] m IH]; simpl; [tauto|].
  destruct (eqb_spec k k1) as [->|Hk]; simpl.
  - intros [E|Hin]; [|tauto]. injection E as <- <-. right. eauto.
  - intros [E|Hin]; [tauto|]. destruct (IH Hin) as [H|H]; tauto.
Qed.

Lemma In_setitem (k k' : K) (v v' : V) (m : list (K * V)) :
  In (k', v') (setitem eqb k v m) -> (k', v') = (k, v) \/ In (k', v') m.
Proof.
  unfold setitem. destruct (has_key eqb k m).
  - intros H. apply In_alter in H. destruct H as [H|[-> [v0 [_ ->]]]]; auto.
  - rewrite in_app_iff. simpl. intuition.
Qed.

End DictFacts.

Lemma pair_eqb_spec (a b : key * key) : reflect (a = b) (pair_eqb a b).
Proof.
  destruct a as [a1 a2], b as [b1 b2]. unfold pair_eqb. simpl.
  destruct (String.eqb_spec a1 b1), (String.eqb_spec a2 b2); simpl;
    constructor; congruence.
Qed.

Lemma mem_In (k : key) (s : list key) : mem k s = true <-> In k s.
Proof.
  unfold mem. rewrite existsb_exists. split.
  - intros [x [Hx E]]. apply String.eqb_eq in E. now subst.
  - intros H. exists k. split; [assumption | apply String.eqb_refl].
Qed.

Lemma mem_false (k : key) (s : list key) : mem k s = false <-> ~ In k s.
Proof. rewrite <- mem_In. destruct (mem k s); split; congruence. Qed.

Lemma In_set_add (k k' : key) (s : list key) :
  In k' (set_add k s) <-> k' = k \/ In k' s.
Proof.
  unfold set_add. destruct (mem k s) eqn:E.
  - apply mem_In in E. split; [tauto | intros [->|H]; auto].
  - rewrite in_app_iff. simpl. intuition.
Qed.

Lemma set_add_nonempty (k : key) (s : list key) : set_add k s <> [].
Proof.
  unfold set_add. destruct (mem k s) eqn:E.
  - apply mem_In in E. destruct s; [contradiction | discriminate].
  - destruct s; discriminate.
Qed.

(** ** Graph store lookups *)

(** C7: when the graph holds no fine-grained edge from [s1] to [s2], then
    [get_rate] returns 0 and [get_saddle] returns [None]; neither raises,
    whether or not [s1] and [s2] are nodes. *)
Theorem lookups_of_missing_edge (L : landscape) (s1 s2 : key) :
  (forall e, ~ In ((s1, s2), e) (edges L)) ->
  get_rate L s1 s2 = Ok (Some 0%R) /\ get_saddle L s1 s2 = Ok None.
Proof.
  intros Hno.
  assert (E : has_edge L s1 s2 = false).
  { unfold has_edge. apply (has_key_false _ pair_eqb_spec).
    intros Hin. apply in_map_iff in Hin. destruct Hin as [[xy e] [Hk Hin]].
    simpl in Hk. subst xy. exact (Hno e Hin). }
  unfold get_rate, get_saddle. rewrite E. split; reflexivity.
Qed.

Lemma lookups_of_missing_edge_witness :
  get_rate Example.two_minima Example.A Example.A = Ok (Some 0%R) /\
  get_saddle Example.two_minima Example.A Example.A = Ok None.
Proof.
  apply (lookups_of_missing_edge Example.two_minima Example.A Example.A).
  intros e H. simpl in H. destruct H as [H|[H|[]]]; discriminate H.
Defined.

(** ** The first expansion *)

Lemma string_length_append (a b : string) :
  String.length (a ++ b) = (String.length a + String.length b)%nat.
Proof. induction a as [|c a IH]; simpl; congruence. Qed.

Lemma dots_length (n : nat) : String.length (dots n) = n.
Proof. unfold dots. induction n as [|n IH]; simpl; congruence. Qed.

Lemma first_symbol_length (s : string) :
  s <> ""%string -> String.length (substring 0 1 s) = 1%nat.
Proof. destruct s as [|c [|c' s]]; simpl; congruence. Qed.

(** C9: on a landscape without nodes whose transcript is still empty,
    [expand] creates exactly one node, keyed by the minimum-free-energy
    structure of the one-symbol transcript followed by dots up to the
    length of the sequence; the node is active and has occupancy 1, no
    edge is created, and the call returns that key as the only new node
    and no reactivated node. *)
Theorem expand_bootstrap {X : Externals} (L : landscape) (pr : bool) :
  nodes L = [] ->
  transcript_length L = 0%nat ->
  sequence L <> ""%string ->
  let mfess :=
    (fc_backtrack (sequence L) (md L) 1
     ++ dots (String.length (sequence L) - 1))%string in
  exists L' d,
    expand L pr
    = Ok (L', [mfess], [], if pr then Some (0, 0, 0, 0) else None) /\
    nodes L' = [(mfess, d)] /\
    structure d = Some mfess /\
    occupancy d = 1 /\
    active d = true /\
    edges L' = edges L /\
    cg_edges L' = cg_edges L /\
    transcript L' = substring 0 1 (sequence L) /\
    (String.length (fc_backtrack (sequence L) (md L) 1) = 1%nat ->
     String.length mfess = String.length (sequence L)).
Proof.
  intros Hn Ht Hs mfess.
  assert (Hlen : (String.length (sequence L) <? 1)%nat = false).
  { apply Nat.ltb_ge. destruct (sequence L); simpl; [congruence | lia]. }
  assert (H1 : String.length (substring 0 1 (sequence L)) = 1%nat)
    by now apply first_symbol_length.
  unfold expand. cbn [with_transcript_length transcript_length sequence md].
  rewrite Ht, Hlen. unfold transcript.
  cbn [with_transcript_length transcript_length sequence md nodes].
  rewrite H1, Hn. cbn [List.length Nat.eqb].
  unfold addnode, has_node.
  cbn [with_transcript_length nodes sequence md]. rewrite Hn.
  cbn [has_key lookup negb assert bind with_nodeID with_nodes nodes setitem
       app].
  eexists. eexists. split; [reflexivity|].
  cbn. rewrite Hn. cbn. repeat split; try reflexivity.
  intros Hb. subst mfess. rewrite string_length_append, dots_length, Hb.
  destruct (sequence L); simpl; [congruence | lia].
Qed.

Lemma expand_bootstrap_witness :
  exists L' d,
    expand (X := Example.collaborators)
           (init Example.fseq (mkMD 37) "n") false
    = Ok (L', [Example.open_chain], [], None) /\
    nodes L' = [(Example.open_chain, d)] /\
    occupancy d = 1 /\ active d = true /\ edges L' = [].
Proof.
  destruct (@expand_bootstrap Example.collaborators
              (init Example.fseq (mkMD 37) "n") false)
    as [L' [d [He [Hn [_ [Ho [Ha [Hed _]]]]]]]];
    [reflexivity | reflexivity | discriminate |].
  exists L', d. repeat split; assumption.
Defined.

(** ** Pruning without a [keep] container *)

Lemma insert_by_nonempty (f : key -> Q) (x : key) (l : list key) :
  insert_by f x l <> [].
Proof. destruct l; simpl; [|destruct (Qle_bool _ _)]; discriminate. Qed.

Lemma sorted_by_nonempty (f : key -> Q) (l : list key) :
  l <> [] -> sorted_by f l <> [].
Proof.
  destruct l as [|x l]; [congruence|]. intros _. simpl.
  apply insert_by_nonempty.
Qed.

(** C10: on a landscape with at least one active local minimum, [prune]
    with [keep] left at its default [None] raises a [TypeError] (at the
    membership test of the first local minimum visited); so a [prune] that
    returns was given a container for [keep] or found no active local
    minimum. *)
Theorem prune_default_keep_raises (L : landscape) (pmin : Q) (delth : Z) :
  (active_local_mins L <> [] -> prune L pmin delth None = Raise TypeError) /\
  (forall keep r,
      prune L pmin delth keep = Ok r ->
      keep <> None \/ active_local_mins L = []).
Proof.
  assert (H : active_local_mins L <> [] ->
              prune L pmin delth None = Raise TypeError).
  { intros Hne. unfold prune.
    destruct (sorted_by (occupancy_of (nodes L)) (active_local_mins L))
      as [|lm rest] eqn:E.
    - exfalso. revert E. now apply sorted_by_nonempty.
    - reflexivity. }
  split; [exact H|].
  intros keep r Hr. destruct keep as [kp|]; [left; discriminate|].
  right. destruct (active_local_mins L) as [|k l] eqn:E; [reflexivity|].
  rewrite H in Hr; discriminate.
Qed.

Lemma prune_default_keep_raises_witness :
  prune Example.two_minima (3 # 10) 10 None = Raise TypeError.
Proof.
  apply (proj1 (prune_default_keep_raises Example.two_minima (3 # 10) 10)).
  discriminate.
Defined.

(** ** Simulation *)

Lemma drain_yield_each (pt : list Q) (force : list Q) :
  drain (yield_each pt force Stop) = (map (fun ft => (ft, pt)) force, None).
Proof.
  induction force as [|ft force IH]; simpl; [reflexivity|].
  now rewrite IH.
Qed.

Lemma last_cons_default (l : list Q) (x d : Q) : last (x :: l) d = last l x.
Proof.
  revert x d. induction l as [|y l IH]; intros x d; [reflexivity|].
  change (last (x :: y :: l) d) with (last (y :: l) d).
  now rewrite (IH y d), (IH y x).
Qed.

(** C3, as the code has it: with a single node, a start vector that sums
    to 1, a non-empty list of times and forced times that are not an empty
    list, the generator ends without an exception and its samples all
    carry the vector [1]: one at the first requested time, unless that is
    the first forced time, and then one at each forced time.  The forced
    times are [force] (by default only the last requested time), followed
    by the last requested time when the last forced time is smaller.
    Requested times in between are sampled only if they are forced. *)
Theorem simulate_single_node {X : Externals} (L : landscape) (n : key)
        (p0 : list Q) (t0 : Q) (times : list Q) (force : option (list Q))
        (atol rtol : Q) :
  isclose (Qsum p0) 1 = true ->
  force <> Some [] ->
  let tl := last times t0 in
  let forced :=
    match force with
    | None => [tl]
    | Some f => if Qle_bool tl (last f 0) then f else f ++ [tl]
    end in
  let samples :=
    (if Qeq_bool t0 (hd 0 forced) then [] else [(t0, [1])])
    ++ map (fun ft => (ft, [1])) forced in
  exists g,
    simulate L [n] p0 (t0 :: times) force atol rtol = Ok g /\
    drain (pending g) = (samples, None) /\
    (exists t, t == t0 /\ In (t, [1]) samples) /\
    (force = None -> In (tl, [1]) samples).
Proof.
  intros Hp Hf tl forced samples.
  assert (Hforce : single_node_force (t0 :: times) force = Ok forced).
  { unfold single_node_force, forced, last_item.
    destruct force as [[|f0 f]|]; cbn [bind].
    - congruence.
    - fold tl. rewrite (last_cons_default f f0 0).
      destruct (Qle_bool tl (last f f0)); reflexivity.
    - reflexivity. }
  assert (Hne : forced <> []).
  { unfold forced. destruct force as [[|f0 f]|].
    - congruence.
    - destruct (Qle_bool _ _); discriminate.
    - discriminate. }
  exists (mkGenerator (simulate_body L [n] p0 (t0 :: times) force atol rtol)).
  split; [reflexivity|].
  assert (Hd : drain (simulate_body L [n] p0 (t0 :: times) force atol rtol)
               = (samples, None)).
  { unfold simulate_body. rewrite Hp. cbn [negb List.length Nat.eqb].
    rewrite Hforce. unfold samples.
    destruct forced as [|f0 fr]; [congruence|].
    cbn [first_item hd]. destruct (Qeq_bool t0 f0); cbn [negb app].
    - apply drain_yield_each.
    - cbn [drain]. now rewrite drain_yield_each. }
  split; [exact Hd|]. split.
  - unfold samples. destruct forced as [|f0 fr]; [congruence|]. cbn [hd].
    destruct (Qeq_bool t0 f0) eqn:E.
    + exists f0. split; [symmetry; now apply Qeq_bool_eq | now left].
    + exists t0. split; [reflexivity | now left].
  - intros ->. unfold samples, forced. apply in_or_app. right. now left.
Qed.

Lemma simulate_single_node_witness :
  exists g,
    simulate (X := Example.collaborators) Example.two_minima [Example.A]
             [1] [0; 1; 2] None (1 # 10000) (1 # 10000) = Ok g /\
    drain (pending g) = ([(0, [1]); (2, [1])], None).
Proof.
  destruct (@simulate_single_node Example.collaborators Example.two_minima
              Example.A [1] 0 [1; 2] None (1 # 10000) (1 # 10000))
    as [g [Hs [Hd _]]]; [reflexivity | discriminate |].
  exists g. split; [exact Hs | exact Hd].
Defined.

(** C3 as stated fails: for the requested times 0, 1 and 2 a single-node
    simulation yields samples at 0 and 2 only; no sample is produced at the
    requested time 1. *)
Lemma simulate_skips_intermediate_times :
  isclose (Qsum [1]) 1 = true /\
  simulate (X := Example.collaborators) Example.two_minima [Example.A]
           [1] [0; 1; 2] None (1 # 10000) (1 # 10000)
  = Ok (mkGenerator (Yield 0 [1] (Yield 2 [1] Stop))) /\
  ~ (exists t, t == 1 /\ In (t, [1]) [(0, [1]); (2, [1 : Q])]).
Proof.
  split; [reflexivity|]. split; [reflexivity|].
  intros [t [Ht [H|[H|[]]]]]; injection H as <-; discriminate Ht.
Qed.

(** C4, as the code has it: [simulate] is a generator function, so a call
    with a start vector that does not sum to 1 (within the tolerance of
    [np.isclose]) returns a generator without raising; the
    [AssertionError] is raised when the first sample is asked for, before
    any sample has been produced, and the generator is exhausted then. *)
Theorem simulate_unnormalised {X : Externals} (L : landscape)
        (snodes : list key) (p0 times : list Q) (force : option (list Q))
        (atol rtol : Q) :
  isclose (Qsum p0) 1 = false ->
  exists g,
    simulate L snodes p0 times force atol rtol = Ok g /\
    next g = (Raise AssertionError, mkGenerator Stop) /\
    drain (pending g) = ([], Some AssertionError).
Proof.
  intros Hp. eexists. split; [reflexivity|].
  unfold next. cbn [pending]. unfold simulate_body. rewrite Hp.
  split; reflexivity.
Qed.

Lemma simulate_unnormalised_witness :
  exists g,
    simulate (X := Example.collaborators) Example.two_minima
             [Example.A; Example.B] [7 # 10; 29 # 100] [0; 1] None
             (1 # 10000) (1 # 10000) = Ok g /\
    next g = (Raise AssertionError, mkGenerator Stop) /\
    drain (pending g) = ([], Some AssertionError).
Proof.
  apply (@simulate_unnormalised Example.collaborators Example.two_minima
           [Example.A; Example.B] [7 # 10; 29 # 100] [0; 1] None
           (1 # 10000) (1 # 10000)).
  reflexivity.
Defined.

(** C4 as stated fails: the call with a start vector that sums to 0.99
    does not raise; it returns a generator. *)
Lemma simulate_call_does_not_raise :
  isclose (Qsum [7 # 10; 29 # 100]) 1 = false /\
  simulate (X := Example.collaborators) Example.two_minima
           [Example.A; Example.B] [7 # 10; 29 # 100] [0; 1] None
           (1 # 10000) (1 # 10000)
  = Ok (mkGenerator (Throw AssertionError)).
Proof. split; reflexivity. Qed.

(** ** Node records under in-place updates

    [refines R ns ns']: the two dictionaries have the same keys in the same
    order, and the records under each key are related by [R]. *)

Definition refines (R : node -> node -> Prop) (ns ns' : nodes_t) : Prop :=
Forall2 (fun a b => fst a = fst b /\ R (snd a) (snd b)) ns ns'.

Section Refines.
Variable R : node -> node -> Prop.

Lemma refines_refl (ns : nodes_t) : (forall d, R d d) -> refines R ns ns.
Proof.
  intros Hr. induction ns as [|[k d] ns IH]; constructor; auto.
Qed.

Lemma refines_trans (ns1 ns2 ns3 : nodes_t) :
  (forall a b c, R a b -> R b c -> R a c) ->
  refines R ns1 ns2 -> refines R ns2 ns3 -> refines R ns1 ns3.
Proof.
  intros Ht H12. revert ns3. induction H12 as [|a b l l' [Hk Hr] _ IH];
    intros ns3 H23; inversion H23 as [|b' c l2 l3 [Hk' Hr'] Hrest]; subst;
    constructor.
  - split; [congruence | eauto].
  - apply IH. exact Hrest.
Qed.

Lemma refines_keys (ns ns' : nodes_t) :
  refines R ns ns' -> map fst ns' = map fst ns.
Proof.
  induction 1 as [|a b l l' [Hk _] _ IH]; simpl; congruence.
Qed.

Lemma refines_In (ns ns' : nodes_t) (k : key) (d' : node) :
  refines R ns ns' -> In (k, d') ns' -> exists d, In (k, d) ns /\ R d d'.
Proof.
  induction 1 as [|[k0 d0] [k1 d1] l l' [Hk Hr] _ IH]; simpl; [tauto|].
  simpl in Hk, Hr. intros [E|Hin].
  - injection E as -> ->. subst. exists d0. auto.
  - destruct (IH Hin) as [d [Hd Hrd]]. eauto.
Qed.

Lemma refines_lookup (ns ns' : nodes_t) (k : key) (d : node) :
  refines R ns ns' -> lookup String.eqb k ns = Some d ->
  exists d', lookup String.eqb k ns' = Some d' /\ R d d'.
Proof.
  induction 1 as [|[k0 d0] [k1 d1] l l' [Hk Hr] _ IH]; simpl; [discriminate|].
  simpl in Hk, Hr. subst k1. destruct (String.eqb k k0).
  - intros E. injection E as <-. eauto.
  - exact IH.
Qed.

Lemma refines_lookup_inv (ns ns' : nodes_t) (k : key) (d' : node) :
  refines R ns ns' -> lookup String.eqb k ns' = Some d' ->
  exists d, lookup String.eqb k ns = Some d /\ R d d'.
Proof.
  induction 1 as [|[k0 d0] [k1 d1] l l' [Hk Hr] _ IH]; simpl; [discriminate|].
  simpl in Hk, Hr. subst k1. destruct (String.eqb k k0).
  - intros E. injection E as <-. eauto.
  - exact IH.
Qed.

Lemma refines_alter (f : node -> node) (k : key) (ns : nodes_t) :
  (forall d, R d d) ->
  (forall d, lookup String.eqb k ns = Some d -> R d (f d)) ->
  refines R ns (alter String.eqb f k ns).
Proof.
  intros Hr. induction ns as [|[k0 d0] ns IH]; simpl; [constructor|].
  destruct (String.eqb k k0) eqn:E; intros Hf.
  - constructor; [split; [reflexivity | simpl; auto] | now apply refines_refl].
  - constructor; [split; [reflexivity | apply Hr] | exact (IH Hf)].
Qed.

End Refines.

Lemma refines_weaken (R R' : node -> node -> Prop) (ns ns' : nodes_t) :
  (forall d d', R d d' -> R' d d') -> refines R ns ns' -> refines R' ns ns'.
Proof.
  intros Hw H. induction H as [|a b l l' [Hk Hr] _ IH]; constructor; auto.
Qed.

Lemma node_at_Ok (k : key) (ns : nodes_t) (d : node) :
  node_at k ns = Ok d <-> lookup String.eqb k ns = Some d.
Proof.
  unfold node_at, getitem. destruct (lookup String.eqb k ns); split; congruence.
Qed.

Lemma update_node_Ok (f : node -> node) (k : key) (ns ns' : nodes_t) :
  update_node f k ns = Ok ns' ->
  exists d, lookup String.eqb k ns = Some d /\ ns' = alter String.eqb f k ns.
Proof.
  unfold update_node. intros H. apply bind_Ok in H.
  destruct H as [d [Hd H]]. apply node_at_Ok in Hd. injection H as <-. eauto.
Qed.

(** An update that respects a reflexive relation refines the dictionary. *)
Lemma update_node_refines (R : node -> node -> Prop) (f : node -> node)
      (k : key) (ns ns' : nodes_t) :
  (forall d, R d d) ->
  (forall d, lookup String.eqb k ns = Some d -> R d (f d)) ->
  update_node f k ns = Ok ns' -> refines R ns ns'.
Proof.
  intros Hr Hf H. apply update_node_Ok in H. destruct H as [d [_ ->]].
  now apply refines_alter.
Qed.

Lemma foldM_refines {A : Type} (R : node -> node -> Prop)
      (f : A -> nodes_t -> result nodes_t) (l : list A) :
  (forall d, R d d) ->
  (forall a b c, R a b -> R b c -> R a c) ->
  (forall x ns ns', In x l -> f x ns = Ok ns' -> refines R ns ns') ->
  forall ns ns', foldM f l ns = Ok ns' -> refines R ns ns'.
Proof.
  intros Hr Ht Hstep ns ns' H.
  apply (foldM_invariant f (fun s => refines R ns s) l) with (s := ns);
    [|now apply refines_refl | exact H].
  intros x s s' Hx Hs Hf. eapply refines_trans; eauto.
Qed.

(** The attributes no method of the class changes after [addnode]. *)
Definition same_fixed (d d' : node) : Prop :=
structure d' = structure d /\ identity d' = identity d /\
energy d' = energy d.

Lemma same_fixed_refl (d : node) : same_fixed d d.
Proof. repeat split. Qed.

Lemma same_fixed_trans (a b c : node) :
  same_fixed a b -> same_fixed b c -> same_fixed a c.
Proof. unfold same_fixed. intuition congruence. Qed.
(** ** Coarse graining: stages and what the updates leave alone *)

(** What [get_coarse_network] never changes in a node record. *)
Definition gcn_rel (d d' : node) : Prop :=
same_fixed d d' /\ pruned d' = pruned d /\ occtransfer d' = occtransfer d.

Lemma gcn_rel_refl (d : node) : gcn_rel d d.
Proof. repeat split. Qed.

Lemma gcn_rel_trans (a b c : node) : gcn_rel a b -> gcn_rel b c -> gcn_rel a c.
Proof. unfold gcn_rel, same_fixed. intuition congruence. Qed.

Lemma gcn_refines_trans (a b c : nodes_t) :
  refines gcn_rel a b -> refines gcn_rel b c -> refines gcn_rel a c.
Proof. apply refines_trans, gcn_rel_trans. Qed.

Lemma gcn_refines_refl (a : nodes_t) : refines gcn_rel a a.
Proof. apply refines_refl, gcn_rel_refl. Qed.

Ltac gcn_updates :=
  repeat match goal with
         | H : update_node _ _ _ = Ok _ |- _ =>
             apply (update_node_refines gcn_rel) in H;
             [| exact gcn_rel_refl | intros; repeat split ]
         end.

Lemma gcn_foldM_refines {A : Type} (f : A -> nodes_t -> result nodes_t)
      (l : list A) (ns ns' : nodes_t) :
  (forall x s s', f x s = Ok s' -> refines gcn_rel s s') ->
  foldM f l ns = Ok ns' -> refines gcn_rel ns ns'.
Proof.
  intros Hf. apply (foldM_refines _ _ gcn_rel_refl gcn_rel_trans).
  intros x s s' _. apply Hf.
Qed.

Lemma reset_and_transfer_refines (n : key) (ns ns' : nodes_t) :
  reset_and_transfer n ns = Ok ns' -> refines gcn_rel ns ns'.
Proof.
  unfold reset_and_transfer. intros H. monad_inv H. 
  destruct (negb (active _) && negb (Qeq_bool (occupancy _) 0)).
  - match goal with H : bind _ _ = Ok _ |- _ => monad_inv H end.
    match goal with H : foldM _ _ _ = Ok _ |- _ =>
      apply gcn_foldM_refines in H end.
    + gcn_updates. eauto using gcn_refines_trans.
    + intros tn s s' Hs. unfold transfer_to in Hs. monad_inv Hs.
      now gcn_updates.
  - match goal with H : Ok _ = Ok _ |- _ => monad_inv H end.
    gcn_updates. eauto using gcn_refines_trans.
Qed.

Lemma transfer_inactive_refines (ns ns' : nodes_t) :
  transfer_inactive ns = Ok ns' -> refines gcn_rel ns ns'.
Proof.
  apply gcn_foldM_refines. intros n s s'. apply reset_and_transfer_refines.
Qed.

Lemma record_mapping_refines (lh : key * list key) (ns ns' : nodes_t) :
  record_mapping lh ns = Ok ns' -> refines gcn_rel ns ns'.
Proof.
  destruct lh as [lmin hidden]. unfold record_mapping. intros H. monad_inv H.
  match goal with H : foldM _ _ _ = Ok _ |- _ =>
    apply gcn_foldM_refines in H end.
  - gcn_updates. eauto using gcn_refines_trans.
  - intros hn s s' Hs. unfold add_representative in Hs. monad_inv Hs.
    now gcn_updates.
Qed.

Lemma move_to_lmins_refines (n hn : key) (ns ns' : nodes_t) :
  move_to_lmins n hn ns = Ok ns' -> refines gcn_rel ns ns'.
Proof.
  unfold move_to_lmins. intros H. monad_inv H.
  assert (H1 : refines gcn_rel ns r2).
  { destruct (negb (Qeq_bool (occupancy _) 0)).
    - match goal with H : bind _ _ = Ok _ |- _ => monad_inv H end.
      match goal with H : foldM _ _ _ = Ok _ |- _ =>
        apply gcn_foldM_refines in H; [exact H|] end.
      intros lrep s s' Hs. unfold share_with in Hs. monad_inv Hs.
      now gcn_updates.
    - match goal with H : Ok _ = Ok _ |- _ => monad_inv H end.
      apply gcn_refines_refl. }
  gcn_updates. eauto using gcn_refines_trans.
Qed.

Lemma filterM_incl {A : Type} (p : A -> result bool) (l l' : list A) :
  filterM p l = Ok l' -> incl l' l.
Proof.
  revert l'. induction l as [|x l IH]; simpl; intros l' H.
  - injection H as <-. apply incl_refl.
  - monad_inv H. destruct r.
    + apply incl_cons; [now left | apply incl_tl; auto].
    + apply incl_tl; auto.
Qed.

(** The stages of a [get_coarse_network] that returns. *)
Lemma gcn_stages {X : Externals} (L L' : landscape) (n m : nat) :
  get_coarse_network L = Ok (L', n, m) ->
  exists ns1 edata ce ns2 ns3,
    let ndata := filter (fun kd => active (snd kd)) ns1 in
    let cg := top_down_coarse_graining ndata edata (minh L) in
    transfer_inactive (nodes L) = Ok ns1 /\
    filterM (both_active ns1) (edges L) = Ok edata /\
    forallb (fun kd => has_key String.eqb (fst kd) ndata) (fst (fst cg))
    = true /\
    foldM (store_cg_edge (with_nodes ns1 L) (fst (fst cg))) (snd (fst cg)) []
    = Ok ce /\
    foldM record_mapping (snd cg) ns1 = Ok ns2 /\
    foldM (move_to_lmins (last (map fst ns2) ""))
          (keys_where (fun d => truthy (lminreps d)) ns2) ns2 = Ok ns3 /\
    L' = with_nodes ns3 (with_cg_edges ce L) /\
    n = List.length (fst (fst cg)) /\
    m = List.length (snd (fst cg)).
Proof.
  unfold get_coarse_network. intros H.
  apply bind_Ok in H. destruct H as [ns1 [H1 H]].
  apply bind_Ok in H. destruct H as [edata [H2 H]].
  cbn [nodes with_nodes edges minh] in H2, H.
  destruct (top_down_coarse_graining
              (filter (fun kd => active (snd kd)) ns1) edata (minh L))
    as [[cgn cge] cgm] eqn:Etd.
  apply bind_Ok in H. destruct H as [u [H3 H]]. apply assert_Ok in H3.
  apply bind_Ok in H. destruct H as [ce [H4 H]].
  apply bind_Ok in H. destruct H as [ns2 [H5 H]].
  apply bind_Ok in H. destruct H as [ns3 [H6 H]].
  injection H as <- <- <-.
  exists ns1, edata, ce, ns2, ns3. cbv zeta. rewrite Etd.
  cbn [fst snd]. repeat split; assumption.
Qed.

(** The facts about dictionaries, for dictionaries of nodes. *)

Lemma nodes_lookup_In (k : key) (d : node) (ns : nodes_t) :
  lookup String.eqb k ns = Some d -> In (k, d) ns.
Proof. apply lookup_In, String.eqb_spec. Qed.

Lemma nodes_In_lookup (k : key) (d : node) (ns : nodes_t) :
  NoDup (map fst ns) -> In (k, d) ns -> lookup String.eqb k ns = Some d.
Proof. apply In_lookup, String.eqb_spec. Qed.

Lemma nodes_lookup_None (k : key) (ns : nodes_t) :
  lookup String.eqb k ns = None <-> ~ In k (map fst ns).
Proof. apply lookup_None, String.eqb_spec. Qed.

Lemma nodes_lookup_key (k : key) (d : node) (ns : nodes_t) :
  lookup String.eqb k ns = Some d -> In k (map fst ns).
Proof. apply lookup_key_In, String.eqb_spec. Qed.

Lemma nodes_lookup_alter (f : node -> node) (k k' : key) (ns : nodes_t) :
  lookup String.eqb k' (alter String.eqb f k ns)
  = if String.eqb k' k then option_map f (lookup String.eqb k ns)
    else lookup String.eqb k' ns.
Proof. apply lookup_alter, String.eqb_spec. Qed.

Lemma nodes_has_key_true (k : key) (ns : nodes_t) :
  has_key String.eqb k ns = true <-> In k (map fst ns).
Proof. apply has_key_true, String.eqb_spec. Qed.

Lemma nodes_has_key_false (k : key) (ns : nodes_t) :
  has_key String.eqb k ns = false <-> ~ In k (map fst ns).
Proof. apply has_key_false, String.eqb_spec. Qed.

Lemma nodes_lookup_remove_same (k : key) (ns : nodes_t) :
  NoDup (map fst ns) -> lookup String.eqb k (remove_key String.eqb k ns) = None.
Proof. apply lookup_remove_same, String.eqb_spec. Qed.

Lemma nodes_lookup_remove_other (k k' : key) (ns : nodes_t) :
  k' <> k ->
  lookup String.eqb k' (remove_key String.eqb k ns) = lookup String.eqb k' ns.
Proof. apply lookup_remove_other, String.eqb_spec. Qed.

Lemma refines_In_fwd (R : node -> node -> Prop) (ns ns' : nodes_t) (k : key)
      (d : node) :
  refines R ns ns' -> In (k, d) ns -> exists d', In (k, d') ns' /\ R d d'.
Proof.
  induction 1 as [|[k0 d0] [k1 d1] l l' [Hk Hr] _ IH]; simpl; [tauto|].
  simpl in Hk, Hr. intros [E|Hin].
  - injection E as -> ->. subst. exists d1. auto.
  - destruct (IH Hin) as [d' [Hd Hrd]]. eauto.
Qed.

Lemma gcn_refines {X : Externals} (L L' : landscape) (n m : nat) :
  get_coarse_network L = Ok (L', n, m) ->
  refines gcn_rel (nodes L) (nodes L').
Proof.
  intros H. apply gcn_stages in H.
  destruct H as (ns1 & edata & ce & ns2 & ns3 & H1 & _ & _ & _ & H5 & H6 &
                 -> & _).
  apply transfer_inactive_refines in H1.
  apply gcn_foldM_refines in H5; [|apply record_mapping_refines].
  apply gcn_foldM_refines in H6;
    [|intros ? ? ?; apply move_to_lmins_refines].
  cbn [nodes with_nodes]. eauto using gcn_refines_trans.
Qed.

(** ** The weight of a coarse edge *)

Lemma e_power (y : R) : Rpower (exp 1) y = exp y.
Proof. unfold Rpower. rewrite ln_exp. now rewrite Rmult_1_r. Qed.

Lemma store_cg_edge_weights (L : landscape) (cgn : nodes_t)
      (cge : list ((key * key) * Z)) (ce0 ce : cg_edges_t) :
  let P := fun (e : (key * key) * cg_edge) =>
             exists dx ex,
               In (fst (fst e), dx) cgn /\ energy dx = Some ex /\
               cg_weight (snd e)
               = arrhenius L (cg_saddle_energy (snd e)) ex in
  foldM (store_cg_edge L cgn) cge ce0 = Ok ce ->
  Forall P ce0 -> Forall P ce.
Proof.
  intros P Hf H0. revert Hf. apply foldM_invariant; [|exact H0].
  intros xyse s s' _ Hs H.
  unfold store_cg_edge in H. monad_inv H.
  destruct (energy r) as [ex|] eqn:Een; [|discriminate].
  injection E0 as <-. apply Forall_forall. intros [xy c] Hin.
  apply (In_setitem _ pair_eqb_spec) in Hin. destruct Hin as [Heq|Hin].
  - injection Heq as -> ->. exists r, ex. cbn [fst snd cg_weight
      cg_saddle_energy]. repeat split; auto.
    apply nodes_lookup_In. now apply node_at_Ok.
  - rewrite Forall_forall in Hs. now apply Hs.
Qed.

(** C8: every coarse edge [(x, y)] that [get_coarse_network] stores has
    the weight [k0 * exp (- ((se - ex) / 100) / RT)], where [se] is the
    saddle energy stored with the edge, [ex] the energy of the node [x],
    and [RT] is 0.61632077549999997 at 37 degrees and that value divided
    by 310.15 and multiplied by the temperature in Kelvin otherwise.  The
    coarse-graining collaborator is taken to return its representatives
    with the energies of the nodes it was given. *)
Theorem coarse_edge_weight {X : Externals} (L L' : landscape) (n m : nat)
        (x y : key) (ce : cg_edge) :
  coarse_graining_keeps_energies ->
  get_coarse_network L = Ok (L', n, m) ->
  In ((x, y), ce) (cg_edges L') ->
  exists d ex,
    In (x, d) (nodes L') /\ energy d = Some ex /\
    let T := temperature (md L) in
    let RT :=
      if Qeq_bool T 37 then 0.61632077549999997%R
      else (0.61632077549999997 / 310.15 * (273.15 + Q2R T))%R in
    cg_weight ce
    = (Q2R (k0 L)
       * exp (- ((IZR (cg_saddle_energy ce) - IZR ex) / 100) / RT))%R.
Proof.
  intros Hkeep H Hin. pose proof (gcn_stages _ H) as Hst.
  destruct Hst as (ns1 & edata & cs & ns2 & ns3 & H1 & _ & _ & H4 & H5 & H6 &
                   -> & _).
  cbn [cg_edges with_nodes with_cg_edges] in Hin.
  apply store_cg_edge_weights in H4; [|constructor].
  rewrite Forall_forall in H4. destruct (H4 _ Hin) as [dx [ex [Hx [Hex Hw]]]].
  cbn [fst snd] in Hx, Hw.
  destruct (Hkeep _ _ _ _ _ Hx) as [d1 [Hd1 He1]].
  apply filter_In in Hd1. destruct Hd1 as [Hd1 _].
  apply gcn_foldM_refines in H5; [|apply record_mapping_refines].
  apply gcn_foldM_refines in H6;
    [|intros ? ? ?; apply move_to_lmins_refines].
  pose proof (gcn_refines_trans H5 H6) as H56.
  eapply refines_In_fwd in Hd1; [|exact H56].
  destruct Hd1 as [d [Hd [[_ [_ Hen]] _]]].
  exists d, ex. cbn [nodes with_nodes]. split; [exact Hd|].
  split; [congruence|]. cbv zeta. rewrite Hw. unfold arrhenius, RT.
  cbn [k0 md with_nodes]. rewrite e_power, minus_IZR.
  destruct (Qeq_bool (temperature (md L)) 37); reflexivity.
Qed.

(** The collaborators of the example meet both contracts. *)

Lemma example_keeps_energies :
  coarse_graining_keeps_energies (X := Example.collaborators).
Proof.
  intros ndata edata mh k d. cbn [top_down_coarse_graining
    Example.collaborators].
  destruct (existsb _ ndata && existsb _ ndata && existsb _ ndata);
    cbn [fst snd]; intros H.
  - apply filter_In in H. exists d. tauto.
  - exists d. tauto.
Qed.

Lemma example_partitions :
  coarse_graining_partitions (X := Example.collaborators).
Proof.
  intros ndata edata mh lmin hidden lmin' hidden'.
  cbn [top_down_coarse_graining Example.collaborators].
  destruct (existsb _ ndata && existsb _ ndata && existsb _ ndata);
    cbn [fst snd]; intros H H'.
  - destruct H as [H|[H|[]]], H' as [H'|[H'|[]]];
      injection H as <- <-; injection H' as <- <-;
      intros [E|[]]; discriminate E.
  - apply in_map_iff in H'. destruct H' as [kd [E _]].
    injection E as _ <-. intros [].
Qed.

Lemma example_expanded :
  run (X := Example.collaborators)
      (Example.step (1 # 2) 1 ++ [OpExpand false]) Example.fresh
  = Ok Example.expanded.
Proof. reflexivity. Qed.

Lemma coarse_edge_weight_witness :
  exists d ex,
    In (Example.hairpin1, d) (nodes Example.coarse) /\
    energy d = Some ex /\
    arrhenius Example.expanded 180 (-120)
    = (Q2R 200000
       * exp (- ((IZR 180 - IZR ex) / 100) / 0.61632077549999997))%R.
Proof.
  apply (@coarse_edge_weight Example.collaborators Example.expanded
           Example.coarse 2 2 Example.hairpin1 Example.hairpin2
           (mkCgEdge 180 (arrhenius Example.expanded 180 (-120)))
           example_keeps_energies).
  - reflexivity.
  - left. reflexivity.
Defined.

(** ** Pruning two local minima *)

Lemma Qle_bool_false (x y : Q) : y < x -> Qle_bool x y = false.
Proof.
  intros H. destruct (Qle_bool x y) eqn:E; [|reflexivity].
  apply Qle_bool_iff in E. lra.
Qed.

Section TwoNodes.
Variables a b : key.
Hypothesis Hab : a <> b.

Lemma two_eqb_ab : String.eqb a b = false.
Proof. now apply String.eqb_neq. Qed.

Lemma two_eqb_ba : String.eqb b a = false.
Proof. apply String.eqb_neq. congruence. Qed.

Lemma two_node_at_a (da db : node) : node_at a [(a, da); (b, db)] = Ok da.
Proof. unfold node_at, getitem. simpl. now rewrite String.eqb_refl. Qed.

Lemma two_node_at_b (da db : node) : node_at b [(a, da); (b, db)] = Ok db.
Proof.
  unfold node_at, getitem. simpl. now rewrite two_eqb_ba, String.eqb_refl.
Qed.

Lemma two_update_a (f : node -> node) (da db : node) :
  update_node f a [(a, da); (b, db)] = Ok [(a, f da); (b, db)].
Proof.
  unfold update_node. rewrite two_node_at_a. simpl.
  now rewrite String.eqb_refl.
Qed.

Lemma two_update_b (f : node -> node) (da db : node) :
  update_node f b [(a, da); (b, db)] = Ok [(a, da); (b, f db)].
Proof.
  unfold update_node. rewrite two_node_at_b. simpl.
  now rewrite two_eqb_ba, String.eqb_refl.
Qed.

Lemma two_occupancy_a (da db : node) :
  occupancy_of [(a, da); (b, db)] a = occupancy da.
Proof. unfold occupancy_of. simpl. now rewrite String.eqb_refl. Qed.

Lemma two_occupancy_b (da db : node) :
  occupancy_of [(a, da); (b, db)] b = occupancy db.
Proof.
  unfold occupancy_of. simpl. now rewrite two_eqb_ba, String.eqb_refl.
Qed.

Ltac two_step1 :=
  rewrite ?two_node_at_a, ?two_node_at_b, ?two_update_a, ?two_update_b,
    ?two_eqb_ab, ?two_eqb_ba, ?String.eqb_refl;
  cbn [bind assert iter negb andb orb mem existsb foldM fst snd
       active occupancy pruned hiddennodes lminreps occtransfer
       set_pruned set_active set_occtransfer set_occupancy add_occupancy
       set_lminreps set_hiddennodes app set_of_list fold_left set_add
       List.length Nat.ltb Nat.leb map].

Ltac two_step := repeat (progress two_step1).

(** C2, as the code has it: on a landscape whose nodes are two active local
    minima [a] (occupancy 0.7) and [b] (occupancy 0.3, nothing hidden behind
    it) joined by coarse edges in both directions, the call
    [prune(pmin = 0.3, delth = 10, keep = {})] deactivates [b], leaves it
    with [pruned = 1] and records [a] as its only occupancy-transfer
    target; it reports [b] as newly pruned and deletes nothing.  The
    occupancies are still 0.7 and 0.3 when [prune] returns: the 0.3 are
    added to [a], which then holds 1.0, by the first loop of the next
    [get_coarse_network]. *)
Theorem prune_two_minima (L : landscape) (da db : node) (ea eb : cg_edge) :
  nodes L = [(a, da); (b, db)] ->
  cg_edges L = [((a, b), ea); ((b, a), eb)] ->
  active da = true -> active db = true ->
  truthy (lminreps da) = false -> truthy (lminreps db) = false ->
  hiddennodes db = Some [] ->
  occupancy da == 7 # 10 -> occupancy db == 3 # 10 ->
  let da' := set_pruned 0 da in
  let db' := set_pruned 1 (set_occtransfer (Some [a]) (set_active false db)) in
  prune L (3 # 10) 10 (Some [])
  = Ok (with_edges (edges L) (with_nodes [(a, da'); (b, db')] L), [b], []) /\
  active da' = true /\ occupancy da' == 7 # 10 /\
  active db' = false /\ pruned db' = 1%Z /\ occupancy db' == 3 # 10 /\
  exists ns,
    transfer_inactive [(a, da'); (b, db')] = Ok ns /\
    occupancy_of ns a == 1 /\ occupancy_of ns b == 0.
Proof.
  intros Hn Hc Aa Ab La Lb Hb Oa Ob da' db'.
  assert (Q1 : Qle_bool (occupancy da) (occupancy db) = false).
  { apply Qle_bool_false. lra. }
  assert (Q2 : Qle_bool (0 + occupancy db) (3 # 10) = true).
  { apply Qle_bool_iff. lra. }
  assert (Q3 : Qle_bool (0 + occupancy db + occupancy da) (3 # 10) = false).
  { apply Qle_bool_false. lra. }
  assert (Q4 : Qeq_bool (occupancy db) 0 = false).
  { destruct (Qeq_bool (occupancy db) 0) eqn:E; [|reflexivity].
    apply Qeq_bool_eq in E. lra. }
  split; [|repeat split; try assumption].
  - unfold prune, active_local_mins, keys_where. rewrite Hn, Hc.
    cbn [filter snd map fst]. rewrite Aa, Ab, La, Lb.
    cbn [andb negb map fst sorted_by fold_right insert_by].
    rewrite two_occupancy_a, two_occupancy_b, Q1.
    unfold deactivate_lms. two_step. rewrite Q2. two_step. rewrite Hb.
    two_step. rewrite Q3. two_step.
    unfold set_occtransfer_of, get_active_nbrs, get_active_nbrs_rec.
    two_step. cbn [scan_cg_edges map fst List.length]. two_step. rewrite Aa.
    two_step.
    unfold age_node. two_step. rewrite Aa. two_step.
    change (10 <? 0)%Z with false. two_step.
    change (10 <? 0 + 1)%Z with false. change (0 + 1 =? 1)%Z with true.
    reflexivity.
  - unfold transfer_inactive, reset_and_transfer, da', db'.
    cbn [map fst]. two_step. rewrite Aa. two_step. rewrite Q4. two_step.
    unfold transfer_to. two_step. rewrite Aa. two_step. eexists. split; [reflexivity|].
    rewrite two_occupancy_a, two_occupancy_b. unfold add_occupancy.
    cbn [occupancy set_occupancy set_hiddennodes set_lminreps set_pruned
         set_occtransfer set_active].
    split; [|reflexivity]. rewrite Oa, Ob. reflexivity.
Qed.

End TwoNodes.

Lemma prune_two_minima_witness :
  prune Example.two_minima (3 # 10) 10 (Some [])
  = Ok (Example.two_minima_pruned, [Example.B], []) /\
  exists ns,
    transfer_inactive (nodes Example.two_minima_pruned) = Ok ns /\
    occupancy_of ns Example.A == 1 /\ occupancy_of ns Example.B == 0.
Proof.
  destruct (@prune_two_minima Example.A Example.B) with
    (L := Example.two_minima)
    (da := mkNode (Some Example.A) (7 # 10) "n0" (Some (-150)%Z) true 0
                  (Some []) (Some []) None)
    (db := mkNode (Some Example.B) (3 # 10) "n1" (Some (-40)%Z) true 0
                  (Some []) (Some []) None)
    (ea := mkCgEdge 60 1%R) (eb := mkCgEdge 60 1%R)
    as [Hp [_ [_ [_ [_ [_ Ht]]]]]];
    try reflexivity; [discriminate|].
  split; [exact Hp | exact Ht].
Defined.

(** C2 as stated fails: when [prune] returns, [A] still holds 0.7 and [B]
    still holds 0.3; no occupancy has been moved. *)
Lemma prune_leaves_occupancy_in_place :
  prune Example.two_minima (3 # 10) 10 (Some [])
  = Ok (Example.two_minima_pruned, [Example.B], []) /\
  occupancy_of (nodes Example.two_minima_pruned) Example.A == 7 # 10 /\
  ~ occupancy_of (nodes Example.two_minima_pruned) Example.A == 1 /\
  occupancy_of (nodes Example.two_minima_pruned) Example.B == 3 # 10.
Proof.
  split; [reflexivity|]. split; [reflexivity|].
  split; [discriminate | reflexivity].
Qed.

(** ** The total occupancy under the primitive updates *)

Lemma total_app (ns ns' : nodes_t) :
  total_occupancy (ns ++ ns') == total_occupancy ns + total_occupancy ns'.
Proof.
  induction ns as [|[k d] ns IH]; simpl; [lra|]. rewrite IH. lra.
Qed.

Lemma total_alter (f : node -> node) (k : key) (ns : nodes_t) (d : node) :
  lookup String.eqb k ns = Some d ->
  total_occupancy (alter String.eqb f k ns)
  == total_occupancy ns - occupancy d + occupancy (f d).
Proof.
  induction ns as [|[k0 d0] ns IH]; simpl; [discriminate|].
  destruct (String.eqb k k0).
  - intros E. injection E as ->. simpl. lra.
  - intros E. simpl. rewrite (IH E). lra.
Qed.

Lemma total_remove (k : key) (ns : nodes_t) (d : node) :
  lookup String.eqb k ns = Some d ->
  total_occupancy (remove_key String.eqb k ns)
  == total_occupancy ns - occupancy d.
Proof.
  induction ns as [|[k0 d0] ns IH]; simpl; [discriminate|].
  destruct (String.eqb k k0).
  - intros E. injection E as ->. lra.
  - intros E. simpl. rewrite (IH E). lra.
Qed.

Lemma total_refines (R : node -> node -> Prop) (ns ns' : nodes_t) :
  (forall d d', R d d' -> occupancy d' == occupancy d) ->
  refines R ns ns' -> total_occupancy ns' == total_occupancy ns.
Proof.
  intros HR H. induction H as [|a b l l' [_ Hr] _ IH]; simpl; [reflexivity|].
  rewrite IH, (HR _ _ Hr). reflexivity.
Qed.

(** ** Pruning: the three loops *)

Lemma In_insert_by (f : key -> Q) (x k : key) (l : list key) :
  In k (insert_by f x l) <-> k = x \/ In k l.
Proof.
  induction l as [|y l IH]; simpl; [intuition|].
  destruct (Qle_bool (f x) (f y)); simpl; [intuition|].
  rewrite IH. intuition.
Qed.

Lemma In_sorted_by (f : key -> Q) (k : key) (l : list key) :
  In k (sorted_by f l) <-> In k l.
Proof.
  induction l as [|y l IH]; simpl; [tauto|].
  rewrite In_insert_by, IH. intuition.
Qed.

Lemma In_keys_where (p : node -> bool) (k : key) (ns : nodes_t) :
  In k (keys_where p ns) <-> exists d, In (k, d) ns /\ p d = true.
Proof.
  unfold keys_where. rewrite in_map_iff. split.
  - intros [[k' d] [E H]]. simpl in E. subst k'. apply filter_In in H.
    exists d. exact H.
  - intros [d [H Hp]]. exists (k, d). split; [reflexivity|].
    apply filter_In. auto.
Qed.

(** What the first two loops of [prune] may change in a node record: the
    counter may be reset, the node may be deactivated, and the transfer
    targets may be set. *)
Definition prune_rel (d d' : node) : Prop :=
same_fixed d d' /\ occupancy d' = occupancy d /\
lminreps d' = lminreps d /\ hiddennodes d' = hiddennodes d /\
(active d = false -> active d' = false) /\
(pruned d' = pruned d \/ pruned d' = 0%Z).

Lemma prune_rel_refl (d : node) : prune_rel d d.
Proof. unfold prune_rel. repeat split; auto. Qed.

Lemma prune_rel_trans (a b c : node) :
  prune_rel a b -> prune_rel b c -> prune_rel a c.
Proof.
  unfold prune_rel, same_fixed.
  intros (H1 & H2 & H3 & H4 & H5 & H6) (G1 & G2 & G3 & G4 & G5 & G6).
  split; [intuition congruence|]. split; [congruence|].
  split; [congruence|]. split; [congruence|]. split; [tauto|].
  destruct H6, G6; [left | right | right | right]; congruence.
Qed.

Lemma prune_refines_trans (a b c : nodes_t) :
  refines prune_rel a b -> refines prune_rel b c -> refines prune_rel a c.
Proof. apply refines_trans, prune_rel_trans. Qed.

Lemma prune_refines_refl (a : nodes_t) : refines prune_rel a a.
Proof. apply refines_refl, prune_rel_refl. Qed.

Ltac prune_updates :=
  repeat match goal with
         | H : update_node _ _ _ = Ok _ |- _ =>
             apply (update_node_refines prune_rel) in H;
             [| exact prune_rel_refl
              | intros; unfold prune_rel; repeat split; auto ]
         end.

Lemma hide_origin (hidden : list key) (ns ns' : nodes_t) :
  foldM hide hidden ns = Ok ns' ->
  refines prune_rel ns ns' /\
  forall k d', lookup String.eqb k ns' = Some d' ->
    exists d, lookup String.eqb k ns = Some d /\ pruned d' = pruned d /\
              occtransfer d' = occtransfer d /\
              (active d' = active d \/
               (active d' = false /\ occupancy d' == 0)).
Proof.
  revert ns. induction hidden as [|hn hidden IH]; simpl; intros ns H.
  - injection H as <-. split; [apply prune_refines_refl|].
    intros k d' Hk. exists d'. auto.
  - apply bind_Ok in H. destruct H as [ns1 [H1 H2]].
    destruct (IH _ H2) as [Hr Ho]. clear IH.
    unfold hide in H1. monad_inv H1. apply node_at_Ok in E.
    apply Qeq_bool_eq in E1. pose proof E2 as Hu.
    apply update_node_Ok in Hu. destruct Hu as [d0 [Hd0 ->]].
    prune_updates. split; [eauto using prune_refines_trans|].
    intros k d' Hk. destruct (Ho _ _ Hk) as [d1 [Hd1 [Hp [Ht Ha]]]].
    rewrite nodes_lookup_alter in Hd1.
    destruct (String.eqb_spec k hn) as [->|Hne].
    + rewrite Hd0 in Hd1. simpl in Hd1. injection Hd1 as <-.
      exists d0. repeat split; auto. right. simpl in Ha.
      assert (r = d0) by congruence. subst r.
      destruct Ha as [Ha|[Ha Hz]]; [|auto].
      split; [exact Ha|].
      pose proof Hk as Hk2. eapply refines_lookup_inv in Hk2; [|exact Hr].
      destruct Hk2 as [d2 [Hd2 Hrel]].
      rewrite nodes_lookup_alter, String.eqb_refl, Hd0 in Hd2.
      injection Hd2 as <-. destruct Hrel as (_ & Hocc & _).
      simpl in Hocc. rewrite Hocc. exact E1.
    + exists d1. auto.
Qed.

(** The first loop of [prune].  Every record of the result comes from the
    record under the same key; the counter of a node that is not among the
    candidates is untouched; and a node that is inactive afterwards was
    inactive before, or is empty, or is one of the newly deactivated local
    minima and has its counter at 0. *)
Lemma deactivate_lms_spec (keep : option (list key)) (pmin : Q)
      (lms : list key) :
  forall tot ns acc ns' acc',
    deactivate_lms keep pmin lms tot ns acc = Ok (ns', acc') ->
    refines prune_rel ns ns' /\
    (forall k, In k acc -> In k acc') /\
    (forall k, In k acc' -> In k acc \/ In k lms) /\
    (forall k d', lookup String.eqb k ns' = Some d' ->
       exists d, lookup String.eqb k ns = Some d /\
         (~ In k lms -> pruned d' = pruned d) /\
         (active d' = false ->
          active d = false \/ occupancy d' == 0 \/
          (In k acc' /\ pruned d' = 0%Z))).
Proof.
  induction lms as [|lm rest IH]; intros tot ns acc ns' acc' H.
  - simpl in H. injection H as <- <-.
    split; [apply prune_refines_refl|]. split; [auto|]. split; [auto|].
    intros k d' Hk. exists d'. auto.
  - simpl in H. apply bind_Ok in H. destruct H as [kp [Hkp H]].
    destruct (mem lm kp).
    { destruct (IH _ _ _ _ _ H) as (Hr & Hm & Hi & Hl).
      split; [exact Hr|]. split; [exact Hm|].
      split; [intros k Hk; destruct (Hi k Hk); simpl; tauto|].
      intros k d' Hk. destruct (Hl k d' Hk) as (d & Hd & Hp & Ha).
      exists d. split; [exact Hd|]. split; [|exact Ha].
      intros Hn. apply Hp. simpl in Hn. tauto. }
    apply bind_Ok in H. destruct H as [ns1 [H1 H]].
    apply bind_Ok in H. destruct H as [d [Hd H]]. apply node_at_Ok in Hd.
    pose proof H1 as Hu1. apply update_node_Ok in Hu1.
    destruct Hu1 as [d0 [Hd0 ->]].
    assert (R1 : refines prune_rel ns
                   (alter String.eqb (set_pruned 0) lm ns)).
    { apply refines_alter; [exact prune_rel_refl|].
      intros; unfold prune_rel; repeat split; auto. }
    rewrite nodes_lookup_alter, String.eqb_refl, Hd0 in Hd.
    injection Hd as <-.
    destruct (negb (Qle_bool (tot + occupancy (set_pruned 0 d0)) pmin)).
    { injection H as <- <-. split; [exact R1|]. split; [auto|].
      split; [auto|]. intros k d' Hk. rewrite nodes_lookup_alter in Hk.
      destruct (String.eqb_spec k lm) as [->|Hne].
      - rewrite Hd0 in Hk. injection Hk as <-. exists d0.
        split; [exact Hd0|]. split; [simpl; tauto|]. simpl. auto.
      - exists d'. auto. }
    apply bind_Ok in H. destruct H as [hidden [Hh H]].
    apply bind_Ok in H. destruct H as [ns2 [H2 H]].
    apply bind_Ok in H. destruct H as [ns3 [H3 H]].
    destruct (hide_origin _ _ H2) as [R2 O2].
    pose proof H3 as Hu3. apply update_node_Ok in Hu3.
    destruct Hu3 as [d2 [Hd2 ->]].
    assert (R3 : refines prune_rel ns2
                   (alter String.eqb (set_active false) lm ns2)).
    { apply refines_alter; [exact prune_rel_refl|].
      intros; unfold prune_rel; repeat split; auto. }
    destruct (IH _ _ _ _ _ H) as (Hr & Hm & Hi & Hl). clear IH.
    split; [eauto using prune_refines_trans|].
    split; [intros k Hk; apply Hm, in_or_app; auto|].
    split.
    { intros k Hk. destruct (Hi k Hk) as [Hk'|Hk']; [|simpl; tauto].
      apply in_app_or in Hk'. simpl in *. tauto. }
    intros k d' Hk. destruct (Hl k d' Hk) as (d3 & Hd3 & Hp & Ha).
    pose proof Hk as Hk'. eapply refines_lookup_inv in Hk'; [|exact Hr].
    destruct Hk' as [d3' [Hd3' Hrel]].
    assert (d3' = d3) by congruence. subst d3'.
    destruct Hrel as (_ & Hocc & _ & _ & _ & Hpr).
    rewrite nodes_lookup_alter in Hd3.
    destruct (String.eqb_spec k lm) as [->|Hne].
    + rewrite Hd2 in Hd3. injection Hd3 as <-.
      destruct (O2 _ _ Hd2) as (d1 & Hd1 & Hp1 & _ & _).
      rewrite nodes_lookup_alter, String.eqb_refl, Hd0 in Hd1.
      injection Hd1 as <-. exists d0. split; [exact Hd0|].
      split; [simpl; tauto|]. intros _. right. right.
      split; [apply Hm, in_or_app; simpl; auto|].
      simpl in Hpr, Hp1. destruct Hpr; congruence.
    + destruct (O2 _ _ Hd3) as (d1 & Hd1 & Hp1 & _ & Ha1).
      rewrite nodes_lookup_alter in Hd1.
      destruct (String.eqb_spec k lm) as [|_]; [contradiction|].
      exists d1. split; [exact Hd1|]. split.
      * intros Hn. simpl in Hn. rewrite Hp; [congruence | tauto].
      * intros Hin. destruct (Ha Hin) as [Hx|[Hx|Hx]]; [|tauto|tauto].
        destruct Ha1 as [Ha1|[_ Hz]]; [left; congruence|].
        right. left. rewrite Hocc. exact Hz.
Qed.

(** Equal up to the transfer targets. *)
Definition occt_rel (d d' : node) : Prop :=
d' = set_occtransfer (occtransfer d') d.

Lemma occt_rel_refl (d : node) : occt_rel d d.
Proof. destruct d. reflexivity. Qed.

Lemma occt_rel_trans (a b c : node) :
  occt_rel a b -> occt_rel b c -> occt_rel a c.
Proof. unfold occt_rel. intros -> ->. reflexivity. Qed.

Lemma occt_rel_prune_rel (d d' : node) : occt_rel d d' -> prune_rel d d'.
Proof.
  unfold occt_rel. intros ->. unfold prune_rel, same_fixed. simpl.
  repeat split; auto.
Qed.

Lemma set_occtransfer_of_Ok (ce : cg_edges_t) (lm : key) (ns ns' : nodes_t) :
  set_occtransfer_of ce lm ns = Ok ns' ->
  exists d l, lookup String.eqb lm ns = Some d /\ active d = false /\
              l <> [] /\ ns' = alter String.eqb (set_occtransfer (Some l)) lm ns.
Proof.
  unfold set_occtransfer_of. intros H. monad_inv H.
  apply node_at_Ok in E. apply update_node_Ok in E2.
  destruct E2 as [d [Hd ->]]. exists r, (set_of_list r1).
  split; [exact E|]. split; [now destruct (active r)|].
  split; [|reflexivity]. intros Hnil.
  match goal with
  | H : (0 <? _)%nat = true |- _ => rewrite Hnil in H; discriminate H
  end.
Qed.

(** The second loop of [prune]: only transfer targets change, and every
    node of the list ends with a non-empty set of them. *)
Lemma set_occtransfer_loop (ce : cg_edges_t) (lms : list key) :
  forall ns ns',
    foldM (set_occtransfer_of ce) lms ns = Ok ns' ->
    refines occt_rel ns ns' /\
    (forall k, ~ In k lms ->
               lookup String.eqb k ns' = lookup String.eqb k ns) /\
    (forall k, In k lms ->
       exists d' l, lookup String.eqb k ns' = Some d' /\
                    occtransfer d' = Some l /\ l <> []).
Proof.
  induction lms as [|lm rest IH]; simpl; intros ns ns' H.
  - injection H as <-. split; [apply refines_refl, occt_rel_refl|].
    split; [auto | contradiction].
  - apply bind_Ok in H. destruct H as [ns1 [H1 H2]].
    destruct (IH _ _ H2) as (Hr & Hf & Hs). clear IH.
    apply set_occtransfer_of_Ok in H1.
    destruct H1 as (d & l & Hd & Ha & Hl & ->).
    split.
    { eapply refines_trans; [exact occt_rel_trans | | exact Hr].
      apply refines_alter; [exact occt_rel_refl|].
      intros d0 _. unfold occt_rel. destruct d0. reflexivity. }
    split.
    { intros k Hk. rewrite Hf by tauto. rewrite nodes_lookup_alter.
      destruct (String.eqb_spec k lm); [subst; tauto | reflexivity]. }
    intros k Hk. destruct (in_dec string_dec k rest) as [Hin|Hnin].
    + now apply Hs.
    + destruct Hk as [<-|Hk]; [|contradiction].
      rewrite (Hf _ Hnin), nodes_lookup_alter, String.eqb_refl, Hd.
      simpl. eexists. exists l. split; [reflexivity|]. simpl. auto.
Qed.

(** The last loop of [prune]: aging and eviction. *)

(** The record of a node after its counter was updated. *)
Definition aged (d : node) : node :=
if active d then set_pruned 0 d else set_pruned (pruned d + 1) d.

(** Whether the node under [k] is evicted in this round. *)
Definition evicted (delth : Z) (ns : nodes_t) (k : key) : bool :=
match lookup String.eqb k ns with
| Some d => (delth <? pruned (aged d))%Z
| None => false
end.

Lemma alter_ext_at (f g : node -> node) (k : key) (ns : nodes_t) (d : node) :
  lookup String.eqb k ns = Some d -> f d = g d ->
  alter String.eqb f k ns = alter String.eqb g k ns.
Proof.
  induction ns as [|[k0 d0] ns IH]; simpl; [discriminate|].
  destruct (String.eqb k k0).
  - intros E Hfg. injection E as ->. now rewrite Hfg.
  - intros E Hfg. now rewrite IH.
Qed.

Lemma age_node_Ok (delth : Z) (k : key) (ns : nodes_t) (es : edges_t)
      (pn dn : list key) (st' : nodes_t * edges_t * list key * list key) :
  age_node delth k (ns, es, pn, dn) = Ok st' ->
  exists d pn', lookup String.eqb k ns = Some d /\
    st' = if (delth <? pruned (aged d))%Z
          then (remove_key String.eqb k (alter String.eqb aged k ns),
                filter (fun e => negb (touches k (fst e))) es,
                pn', set_add k dn)
          else (alter String.eqb aged k ns, es, pn', dn).
Proof.
  unfold age_node. intros H. apply bind_Ok in H. destruct H as [d [Hd H]].
  apply node_at_Ok in Hd. apply bind_Ok in H.
  destruct H as [[ns1 pn1] [H1 H]]. exists d, pn1. split; [exact Hd|].
  assert (Hns1 : ns1 = alter String.eqb aged k ns).
  { unfold aged. destruct (active d) eqn:Ea.
    - monad_inv H1. apply update_node_Ok in E. destruct E as [d1 [_ ->]].
      apply (alter_ext_at _ _ _ _ Hd). now rewrite Ea.
    - monad_inv H1. apply update_node_Ok in E. destruct E as [d1 [_ ->]].
      apply (alter_ext_at _ _ _ _ Hd). now rewrite Ea. }
  subst ns1. apply bind_Ok in H. destruct H as [d1 [Hd1 H]].
  apply node_at_Ok in Hd1.
  rewrite nodes_lookup_alter, String.eqb_refl, Hd in Hd1.
  injection Hd1 as <-.
  destruct (delth <? pruned (aged d))%Z; now injection H as <-.
Qed.

Lemma evicted_alter_other (delth : Z) (f : node -> node) (k x : key)
      (ns : nodes_t) :
  x <> k -> evicted delth (alter String.eqb f k ns) x = evicted delth ns x.
Proof.
  intros Hne. unfold evicted. rewrite nodes_lookup_alter.
  destruct (String.eqb_spec x k); [contradiction | reflexivity].
Qed.

Lemma evicted_remove_other (delth : Z) (k x : key) (ns : nodes_t) :
  x <> k -> evicted delth (remove_key String.eqb k ns) x = evicted delth ns x.
Proof.
  intros Hne. unfold evicted. now rewrite nodes_lookup_remove_other.
Qed.

Lemma age_loop_spec (delth : Z) (ks : list key) :
  forall ns es pn dn ns' es' pn' dn',
    NoDup ks -> NoDup (map fst ns) ->
    foldM (age_node delth) ks (ns, es, pn, dn) = Ok (ns', es', pn', dn') ->
    NoDup (map fst ns') /\
    (forall k, In k ks ->
       lookup String.eqb k ns'
       = if evicted delth ns k then None
         else option_map aged (lookup String.eqb k ns)) /\
    (forall k, ~ In k ks ->
       lookup String.eqb k ns' = lookup String.eqb k ns) /\
    (forall k, In k dn' <->
               In k dn \/ (In k ks /\ evicted delth ns k = true)) /\
    (forall e, In e es' <->
               In e es /\
               forall k, In k ks -> evicted delth ns k = true ->
                         touches k (fst e) = false).
Proof.
  induction ks as [|k ks IH]; intros ns es pn dn ns' es' pn' dn' Hks Hns H.
  - simpl in H. injection H as <- <- <- <-. split; [exact Hns|].
    split; [contradiction|]. split; [auto|]. simpl. split; [tauto|].
    intros e. tauto.
  - simpl in H. apply bind_Ok in H. destruct H as [[[[ns1 es1] pn1] dn1] [H1 H]].
    inversion Hks as [|? ? Hk Hks']; subst.
    apply age_node_Ok in H1. destruct H1 as (d & pnx & Hd & Hst).
    assert (Hev : evicted delth ns k = (delth <? pruned (aged d))%Z)
      by (unfold evicted; now rewrite Hd).
    assert (Hns1 : NoDup (map fst ns1)).
    { destruct (delth <? pruned (aged d))%Z; injection Hst as -> _ _ _.
      - apply NoDup_remove_key. now rewrite keys_alter.
      - now rewrite keys_alter. }
    assert (Hother : forall x, x <> k ->
              lookup String.eqb x ns1 = lookup String.eqb x ns /\
              evicted delth ns1 x = evicted delth ns x).
    { intros x Hx.
      destruct (delth <? pruned (aged d))%Z; injection Hst as -> _ _ _.
      - rewrite evicted_remove_other, evicted_alter_other by assumption.
        rewrite nodes_lookup_remove_other, nodes_lookup_alter by assumption.
        destruct (String.eqb_spec x k); [contradiction | auto].
      - rewrite evicted_alter_other, nodes_lookup_alter by assumption.
        destruct (String.eqb_spec x k); [contradiction | auto]. }
    assert (Hself : lookup String.eqb k ns1
                    = if evicted delth ns k then None
                      else option_map aged (lookup String.eqb k ns)).
    { rewrite Hev, Hd.
      destruct (delth <? pruned (aged d))%Z; injection Hst as -> _ _ _.
      - apply nodes_lookup_remove_same. now rewrite keys_alter.
      - now rewrite nodes_lookup_alter, String.eqb_refl, Hd. }
    destruct (IH _ _ _ _ _ _ _ _ Hks' Hns1 H) as (N & L1 & L2 & D & E).
    clear IH. split; [exact N|]. split; [|split; [|split]].
    + intros x [<-|Hx].
      * rewrite (L2 _ Hk). exact Hself.
      * assert (x <> k) by (intros ->; contradiction).
        rewrite (L1 _ Hx). destruct (Hother x H0) as [-> ->]. reflexivity.
    + intros x Hx. simpl in Hx.
      assert (x <> k) by (intros ->; tauto).
      rewrite L2 by tauto. now destruct (Hother x H0).
    + intros x. rewrite D. simpl.
      assert (Hdn1 : In x dn1 <-> In x dn \/ (x = k /\ evicted delth ns k = true)).
      { rewrite Hev.
        destruct (delth <? pruned (aged d))%Z; injection Hst as _ _ _ ->.
        - rewrite In_set_add. intuition.
        - intuition discriminate. }
      rewrite Hdn1. split.
      * intros [[Hx|[-> Hx]]|[Hx Hx']]; auto.
        right. split; [auto|].
        assert (x <> k) by (intros ->; contradiction).
        destruct (Hother x H0) as [_ <-]. exact Hx'.
      * intros [Hx|[[<-|Hx] Hx']]; auto.
        right. split; [exact Hx|].
        assert (x <> k) by (intros ->; contradiction).
        destruct (Hother x H0) as [_ ->]. exact Hx'.
    + intros e. rewrite E.
      assert (Hes1 : In e es1 <->
                     In e es /\ (evicted delth ns k = true ->
                                 touches k (fst e) = false)).
      { rewrite Hev.
        destruct (delth <? pruned (aged d))%Z; injection Hst as _ -> _ _.
        - rewrite filter_In. destruct (touches k (fst e)); simpl;
            intuition discriminate.
        - intuition discriminate. }
      rewrite Hes1. split.
      * intros [[He Hk1] Hrest]. split; [exact He|].
        intros x [<-|Hx] Hx'; [auto|].
        apply Hrest; [exact Hx|].
        assert (x <> k) by (intros ->; contradiction).
        destruct (Hother x H0) as [_ ->]. exact Hx'.
      * intros [He Hall]. split; [split; [exact He|]|].
        -- intros Hx. apply Hall; simpl; auto.
        -- intros x Hx Hx'. apply Hall; [simpl; auto|].
           assert (x <> k) by (intros ->; contradiction).
           destruct (Hother x H0) as [_ <-]. exact Hx'.
Qed.

Lemma aged_occupancy (d : node) : occupancy (aged d) = occupancy d.
Proof. unfold aged. now destruct (active d). Qed.

(** Aging keeps the total occupancy when every evicted node is empty. *)
Lemma age_loop_total (delth : Z) (ks : list key) :
  forall ns es pn dn ns' es' pn' dn',
    NoDup ks ->
    (forall k d, In k ks -> lookup String.eqb k ns = Some d ->
                 evicted delth ns k = true -> occupancy d == 0) ->
    foldM (age_node delth) ks (ns, es, pn, dn) = Ok (ns', es', pn', dn') ->
    total_occupancy ns' == total_occupancy ns.
Proof.
  induction ks as [|k ks IH]; intros ns es pn dn ns' es' pn' dn' Hks Hz H.
  - simpl in H. injection H as <- _ _ _. reflexivity.
  - simpl in H. apply bind_Ok in H.
    destruct H as [[[[ns1 es1] pn1] dn1] [H1 H]].
    inversion Hks as [|? ? Hk Hks']; subst.
    apply age_node_Ok in H1. destruct H1 as (d & pnx & Hd & Hst).
    assert (Hev : evicted delth ns k = (delth <? pruned (aged d))%Z)
      by (unfold evicted; now rewrite Hd).
    assert (Ha : total_occupancy (alter String.eqb aged k ns)
                 == total_occupancy ns).
    { rewrite (total_alter _ _ _ Hd), aged_occupancy. lra. }
    assert (Hla : lookup String.eqb k (alter String.eqb aged k ns)
                  = Some (aged d))
      by (now rewrite nodes_lookup_alter, String.eqb_refl, Hd).
    assert (T1 : total_occupancy ns1 == total_occupancy ns).
    { destruct (delth <? pruned (aged d))%Z eqn:Ev;
        injection Hst as -> _ _ _.
      - rewrite (total_remove _ _ Hla), Ha, aged_occupancy.
        rewrite (Hz k d); [lra | now left | exact Hd | now rewrite Hev]. 
      - exact Ha. }
    rewrite <- T1. apply (IH _ _ _ _ _ _ _ _ Hks') in H; [exact H|].
    intros x dx Hx Hlx Hex.
    assert (Hne : x <> k) by (intros ->; contradiction).
    assert (Hl : lookup String.eqb x ns1 = lookup String.eqb x ns /\
                 evicted delth ns1 x = evicted delth ns x).
    { destruct (delth <? pruned (aged d))%Z; injection Hst as -> _ _ _.
      - rewrite evicted_remove_other, evicted_alter_other by assumption.
        rewrite nodes_lookup_remove_other, nodes_lookup_alter by assumption.
        destruct (String.eqb_spec x k); [contradiction | auto].
      - rewrite evicted_alter_other, nodes_lookup_alter by assumption.
        destruct (String.eqb_spec x k); [contradiction | auto]. }
    destruct Hl as [Hl1 Hl2]. rewrite Hl1 in Hlx. rewrite Hl2 in Hex.
    apply (Hz x dx); [now right | exact Hlx | exact Hex].
Qed.

Lemma prune_stages (L L' : landscape) (pmin : Q) (delth : Z)
      (keep : option (list key)) (pn dn : list key) :
  prune L pmin delth keep = Ok (L', pn, dn) ->
  exists ns1 lms' ns2 ns3 es,
    deactivate_lms keep pmin
      (sorted_by (occupancy_of (nodes L)) (active_local_mins L)) 0
      (nodes L) [] = Ok (ns1, lms') /\
    foldM (set_occtransfer_of (cg_edges L)) lms' ns1 = Ok ns2 /\
    foldM (age_node delth) (map fst ns2) (ns2, edges L, [], [])
    = Ok (ns3, es, pn, dn) /\
    L' = with_edges es (with_nodes ns3 L).
Proof.
  unfold prune. intros H.
  apply bind_Ok in H. destruct H as [[ns1 lms'] [H1 H]].
  apply bind_Ok in H. destruct H as [ns2 [H2 H]].
  apply bind_Ok in H. destruct H as [[[[ns3 es] pn'] dn'] [H3 H]].
  injection H as <- <- <-. exists ns1, lms', ns2, ns3, es. auto.
Qed.

(** One [prune] in terms of the records [ns2] it ages: the dictionary as
    the first two loops leave it. *)
Lemma prune_summary (L L' : landscape) (pmin : Q) (delth : Z)
      (keep : option (list key)) (pn dn : list key) :
  NoDup (map fst (nodes L)) ->
  prune L pmin delth keep = Ok (L', pn, dn) ->
  exists ns2,
    refines prune_rel (nodes L) ns2 /\
    NoDup (map fst (nodes L')) /\
    (forall k, lookup String.eqb k (nodes L')
               = if evicted delth ns2 k then None
                 else option_map aged (lookup String.eqb k ns2)) /\
    (forall k, In k dn <-> evicted delth ns2 k = true) /\
    (forall e, In e (edges L') <->
               In e (edges L) /\
               forall k, evicted delth ns2 k = true ->
                         touches k (fst e) = false) /\
    (forall k d2, lookup String.eqb k ns2 = Some d2 ->
       exists d, lookup String.eqb k (nodes L) = Some d /\
         (active d = false -> pruned d2 = pruned d) /\
         (active d2 = false ->
          active d = false \/ occupancy d2 == 0 \/
          (pruned d2 = 0%Z /\
           exists l, occtransfer d2 = Some l /\ l <> []))) /\
    cg_edges L' = cg_edges L /\
    ((forall k d2, lookup String.eqb k ns2 = Some d2 ->
                   evicted delth ns2 k = true -> occupancy d2 == 0) ->
     total_occupancy (nodes L') == total_occupancy (nodes L)).
Proof.
  intros Hnd H. apply prune_stages in H.
  destruct H as (ns1 & lms' & ns2 & ns3 & es & H1 & H2 & H3 & ->).
  apply deactivate_lms_spec in H1. destruct H1 as (R1 & _ & I1 & O1).
  apply set_occtransfer_loop in H2. destruct H2 as (R2 & F2 & S2).
  assert (R12 : refines prune_rel (nodes L) ns2).
  { eapply prune_refines_trans; [exact R1|].
    eapply refines_weaken; [exact occt_rel_prune_rel | exact R2]. }
  assert (Hk2 : map fst ns2 = map fst (nodes L))
    by (eapply refines_keys; eauto).
  assert (Hnd2 : NoDup (map fst ns2)) by (now rewrite Hk2).
  pose proof H3 as Htot.
  apply age_loop_spec in H3; [|exact Hnd2|exact Hnd2].
  destruct H3 as (N & L1 & L2 & D & E).
  assert (Hkey : forall k, evicted delth ns2 k = true -> In k (map fst ns2)).
  { intros k Hk. unfold evicted in Hk.
    destruct (lookup String.eqb k ns2) eqn:El; [|discriminate].
    eapply nodes_lookup_key; eauto. }
  exists ns2. cbn [nodes edges cg_edges with_nodes with_edges].
  split; [exact R12|]. split; [exact N|].
  split; [|split; [|split; [|split; [|split]]]].
  - intros k. destruct (in_dec string_dec k (map fst ns2)) as [Hin|Hnin].
    + now apply L1.
    + rewrite (L2 _ Hnin). unfold evicted.
      apply nodes_lookup_None in Hnin. now rewrite Hnin.
  - intros k. rewrite D. simpl. split; [intros [[]|[_ Hk]]|]; auto.
  - intros e. rewrite E. split; intros [He Ht]; (split; [exact He|]); auto.
  - intros k d2 Hd2.
    pose proof Hd2 as Hd1. eapply refines_lookup_inv in Hd1; [|exact R2].
    destruct Hd1 as [d1 [Hd1 Hrel]]. unfold occt_rel in Hrel.
    destruct (O1 _ _ Hd1) as (d & Hd & Hp & Ha). exists d.
    split; [exact Hd|].
    assert (Hd2eq : pruned d2 = pruned d1 /\ active d2 = active d1 /\
                    occupancy d2 = occupancy d1)
      by (rewrite Hrel; simpl; auto).
    destruct Hd2eq as (Ep & Ea & Eo). split.
    + intros Hina. rewrite Ep. apply Hp. intros Hin.
      apply In_sorted_by in Hin. apply In_keys_where in Hin.
      destruct Hin as [d0 [Hin0 Hp0]].
      apply nodes_In_lookup in Hin0; [|exact Hnd].
      assert (d0 = d) by congruence. subst d0. rewrite Hina in Hp0.
      discriminate.
    + rewrite Ea, Eo, Ep. intros Hina.
      destruct (Ha Hina) as [Hx|[Hx|[Hin Hx]]]; auto.
      right. right. split; [exact Hx|].
      destruct (I1 _ Hin) as [[]|Hlm].
      clear Hlm. destruct (S2 k) as (d2' & l & Hd2' & Hl & Hne).
      * exact Hin.
      * exists l. split; [congruence | exact Hne].
  - reflexivity.
  - intros Hz. apply age_loop_total in Htot.
    + rewrite Htot. eapply total_refines; [|exact R12].
      intros d d' (_ & -> & _). reflexivity.
    + exact Hnd2.
    + intros k d _ Hk Hev. eapply Hz; eauto.
Qed.

(** ** Eviction: one round seen from one node *)

Lemma aged_active (d : node) : active (aged d) = active d.
Proof. unfold aged. destruct (active d) eqn:E; simpl; exact E. Qed.

Lemma aged_pruned (d : node) :
  pruned (aged d) = if active d then 0%Z else (pruned d + 1)%Z.
Proof. unfold aged. now destruct (active d). Qed.





(** ** Expansion only adds fresh nodes and reactivates old ones *)

(** A node as [expand] creates it after the first step. *)
Definition fresh (d : node) : Prop :=
occupancy d = 0 /\ active d = true /\ pruned d = 0%Z /\
lminreps d = None /\ hiddennodes d = None /\ occtransfer d = None.

Inductive grows : nodes_t -> nodes_t -> Prop :=
| grows_refl : forall ns, grows ns ns
| grows_activate : forall ns ns' k,
    grows ns ns' -> grows ns (alter String.eqb (set_active true) k ns')
| grows_add : forall ns ns' k d,
    grows ns ns' -> has_key String.eqb k ns' = false -> fresh d ->
    grows ns (ns' ++ [(k, d)]).

Lemma grows_trans (a b c : nodes_t) : grows a b -> grows b c -> grows a c.
Proof.
  intros Hab Hbc. induction Hbc; [assumption | |];
    [apply grows_activate | apply grows_add]; auto.
Qed.

Lemma grows_NoDup (ns ns' : nodes_t) :
  grows ns ns' -> NoDup (map fst ns) -> NoDup (map fst ns').
Proof.
  induction 1 as [|ns ns' k _ IH|ns ns' k d _ IH Hk _]; intros Hnd.
  - exact Hnd.
  - rewrite keys_alter. auto.
  - rewrite map_app. simpl. apply nodes_has_key_false in Hk.
    specialize (IH Hnd). clear Hnd.
    induction (map fst ns') as [|x l IHl]; simpl.
    + constructor; [tauto | constructor].
    + inversion IH; subst. constructor.
      * rewrite in_app_iff. simpl. simpl in Hk. intuition.
      * apply IHl; [simpl in Hk; tauto | assumption].
Qed.

Lemma grows_total (ns ns' : nodes_t) :
  grows ns ns' -> total_occupancy ns' == total_occupancy ns.
Proof.
  induction 1 as [|ns ns' k _ IH|ns ns' k d _ IH _ Hf].
  - reflexivity.
  - rewrite <- IH. destruct (lookup String.eqb k ns') as [d|] eqn:E.
    + rewrite (total_alter _ _ _ E). simpl. lra.
    + apply (total_refines (R := fun d d' => occupancy d' = occupancy d)).
      * intros d d' ->. reflexivity.
      * apply refines_alter; [reflexivity|]. intros d Hd. congruence.
  - rewrite total_app, IH. simpl. destruct Hf as [-> _]. lra.
Qed.

Lemma fresh_activate (d : node) : fresh d -> fresh (set_active true d).
Proof. unfold fresh. simpl. tauto. Qed.

Lemma grows_origin (ns ns' : nodes_t) :
  grows ns ns' ->
  forall k d', lookup String.eqb k ns' = Some d' ->
    (exists d, lookup String.eqb k ns = Some d /\
               (d' = d \/ d' = set_active true d)) \/
    fresh d'.
Proof.
  induction 1 as [|ns ns' k0 _ IH|ns ns' k0 d0 _ IH Hk Hf]; intros k d' Hl.
  - left. eauto.
  - rewrite nodes_lookup_alter in Hl.
    destruct (String.eqb_spec k k0) as [->|Hne]; [|auto].
    destruct (lookup String.eqb k0 ns') as [d1|] eqn:E; [|discriminate].
    simpl in Hl. injection Hl as <-.
    destruct (IH _ _ E) as [[d [Hd [-> | ->]]]|Hfr].
    + left. exists d. auto.
    + left. exists d. auto.
    + right. now apply fresh_activate.
  - rewrite (lookup_app String.eqb) in Hl.
    destruct (lookup String.eqb k ns') as [d1|] eqn:E.
    + injection Hl as <-. auto.
    + simpl in Hl. destruct (String.eqb k k0); [|discriminate].
      injection Hl as <-. auto.
Qed.

Lemma addnode_Ok {X : Externals} (L L' : landscape) (k : key)
      (s : option string) (occ : Q) (id : option string) (en : option Z)
      (act : bool) (pr : Z) (lr hn ot : option (list key)) :
  addnode L k s occ id en act pr lr hn ot = Ok L' ->
  has_key String.eqb k (nodes L) = false /\
  exists d,
    nodes L' = nodes L ++ [(k, d)] /\
    occupancy d = occ /\ active d = act /\ pruned d = pr /\
    lminreps d = lr /\ hiddennodes d = hn /\ occtransfer d = ot.
Proof.
  unfold addnode. intros H. apply bind_Ok in H. destruct H as [u [Ha H]].
  apply assert_Ok in Ha. unfold has_node in Ha.
  assert (Hk : has_key String.eqb k (nodes L) = false)
    by (now destruct (has_key String.eqb k (nodes L))).
  split; [exact Hk|].
  destruct id as [i|]; injection H as <-; cbn [nodes with_nodes with_nodeID];
    unfold setitem; rewrite Hk; eexists; (split; [reflexivity|]);
    cbn; repeat split.
Qed.

Lemma discover_grows {X : Externals} (c : bool) (k : key) (en : option Z)
      (st st' : landscape * list key * list key) :
  discover c k en st = Ok st' ->
  grows (nodes (fst (fst st))) (nodes (fst (fst st'))).
Proof.
  destruct st as [[L nn] on]. unfold discover. cbn [fst].
  destruct (negb (has_node L k)).
  - intros H. apply bind_Ok in H. destruct H as [L1 [H1 H]].
    apply bind_Ok in H. destruct H as [u [_ H]]. injection H as <-.
    cbn [fst]. apply addnode_Ok in H1.
    destruct H1 as (Hk & d & -> & Ho & Ha & Hp & Hl & Hh & Ht).
    apply grows_add; [apply grows_refl | exact Hk |].
    unfold fresh. repeat split; assumption.
  - intros H. apply bind_Ok in H. destruct H as [d [_ H]].
    destruct (negb (active d)).
    + apply bind_Ok in H. destruct H as [ns [H1 H]]. injection H as <-.
      cbn [fst nodes with_nodes]. apply update_node_Ok in H1.
      destruct H1 as [d0 [_ ->]]. apply grows_activate, grows_refl.
    + injection H as <-. apply grows_refl.
Qed.

Lemma foldM_grows {A : Type}
      (f : A -> landscape * list key * list key ->
           result (landscape * list key * list key))
      (l : list A) (st st' : landscape * list key * list key) :
  (forall x s s', f x s = Ok s' ->
                  grows (nodes (fst (fst s))) (nodes (fst (fst s')))) ->
  foldM f l st = Ok st' ->
  grows (nodes (fst (fst st))) (nodes (fst (fst st'))).
Proof.
  intros Hf.
  apply (foldM_invariant f
           (fun s => grows (nodes (fst (fst st))) (nodes (fst (fst s))))).
  - intros x s s' _ Hs Hx. eapply grows_trans; eauto.
  - apply grows_refl.
Qed.

Lemma addedge_nodes (L L' : landscape) (n1 n2 : key) (w : option R)
      (se : option (option Z)) :
  addedge L n1 n2 w se = Ok L' -> nodes L' = nodes L.
Proof.
  unfold addedge. intros H. monad_inv H. reflexivity.
Qed.

(** What [expand] does to the nodes: the first node gets occupancy 1,
    every later call only adds fresh nodes and reactivates old ones. *)
Lemma expand_nodes {X : Externals} (L L' : landscape) (pr : bool)
      (nn on : list key) (t : option timing) :
  expand L pr = Ok (L', nn, on, t) ->
  (nodes L = [] /\
   exists k d, nodes L' = [(k, d)] /\ occupancy d = 1 /\ active d = true /\
               lminreps d = None /\ hiddennodes d = None) \/
  (nodes L <> [] /\ grows (nodes L) (nodes L')).
Proof.
  unfold expand.
  set (L1 := if (String.length (sequence L) <?
                 transcript_length
                   (with_transcript_length (S (transcript_length L)) L))%nat
             then with_transcript_length (String.length (sequence L))
                    (with_transcript_length (S (transcript_length L)) L)
             else with_transcript_length (S (transcript_length L)) L).
  assert (HL1 : nodes L1 = nodes L).
  { unfold L1. destruct (_ <? _)%nat; reflexivity. }
  clearbody L1. rewrite HL1.
  destruct (nodes L) as [|kd0 ns0] eqn:En.
  - cbn [List.length Nat.eqb]. intros H.
    apply bind_Ok in H. destruct H as [L2 [H2 H]]. injection H as <- _ _ _.
    apply addnode_Ok in H2. destruct H2 as (_ & d & Hn & Ho & Ha & _ & Hl & Hh & _).
    rewrite HL1 in Hn. left. split; [reflexivity|]. eauto 10.
  - cbn [List.length Nat.eqb]. intros H. right. split; [discriminate|].
    rewrite <- HL1.
    apply bind_Ok in H. destruct H as [st1 [H1 H]].
    apply discover_grows in H1. cbn [fst] in H1.
    apply bind_Ok in H. destruct H as [st2 [H2 H]].
    apply foldM_grows in H2;
      [|intros fns s s' Hs; eapply foldM_grows; [|exact Hs];
        intros fn s0 s0'; apply discover_grows].
    destruct st2 as [[L2 nn2] on2]. cbn [fst] in H2.
    destruct (get_guide_graph _ _ _) as [gnodes gedges].
    apply bind_Ok in H. destruct H as [u [_ H]].
    apply bind_Ok in H. destruct H as [st3 [H3 H]].
    apply foldM_grows in H3; [|intros g s s'; apply discover_grows].
    destruct st3 as [[L3 nn3] on3]. cbn [fst] in H3.
    apply bind_Ok in H. destruct H as [edata [_ H]].
    destruct (neighborhood_flooding _ _ _ _ _) as [ndata edata'].
    apply bind_Ok in H. destruct H as [st4 [H4 H]].
    apply foldM_grows in H4.
    2:{ intros ne s s' Hs. apply bind_Ok in Hs. destruct Hs as [s1 [Hs1 Hs]].
        apply discover_grows in Hs1. monad_inv Hs. exact Hs1. }
    destruct st4 as [[L4 nn4] on4]. cbn [fst] in H4.
    apply bind_Ok in H. destruct H as [L5 [H5 H]]. injection H as <- _ _ _.
    assert (Hn5 : nodes L5 = nodes L4).
    { revert H5. apply (foldM_invariant _ (fun M => nodes M = nodes L4));
        [|reflexivity].
      intros e s s' _ Hs He. apply addedge_nodes in He. congruence. }
    rewrite Hn5. eauto using grows_trans.
Qed.

(** ** Coarse graining and the occupancy *)

(** Take the first step of a successful computation apart. *)
Tactic Notation "bind_inv" hyp(H) "as" ident(x) ident(Hx) :=
  apply bind_Ok in H; destruct H as [x [Hx H]];
  try apply node_at_Ok in Hx; try apply assert_Ok in Hx;
  try apply iter_Ok in Hx.

(** The representatives recorded for a node. *)
Definition reps (d : node) : list key :=
match lminreps d with Some l => l | None => [] end.

(** Both sets of the node are empty sets. *)
Definition cleared (d : node) : Prop :=
lminreps d = Some [] /\ hiddennodes d = Some [].

(** Every inactive node that holds occupancy knows where it goes. *)
Definition occt_ok (ns : nodes_t) : Prop :=
forall k d, lookup String.eqb k ns = Some d -> active d = false ->
            ~ occupancy d == 0 ->
            exists l, occtransfer d = Some l /\ l <> [].

(** No inactive node holds occupancy. *)
Definition drained (ns : nodes_t) : Prop :=
forall k d, lookup String.eqb k ns = Some d -> active d = false ->
            occupancy d == 0.

(** Equal up to the occupancy, which changes on active nodes only. *)
Definition occ_rel (d d' : node) : Prop :=
d' = set_occupancy (occupancy d') d /\
(active d = false -> occupancy d' = occupancy d).

Lemma occ_rel_refl (d : node) : occ_rel d d.
Proof. split; [destruct d; reflexivity | reflexivity]. Qed.

Lemma occ_rel_trans (a b c : node) : occ_rel a b -> occ_rel b c -> occ_rel a c.
Proof.
  unfold occ_rel. intros [Hb Hb'] [Hc Hc']. split.
  - rewrite Hc, Hb. reflexivity.
  - intros Ha. rewrite Hc', Hb'; auto. rewrite Hb. exact Ha.
Qed.

Lemma Qlen_pos (l : list key) : l <> [] -> 0 < Qlen l.
Proof.
  intros Hl. unfold Qlen. destruct l as [|x l]; [congruence|].
  unfold Qlt. simpl. lia.
Qed.

Lemma Qlen_cons (x : key) (l : list key) : Qlen (x :: l) == Qlen l + 1.
Proof.
  unfold Qlen. simpl List.length. rewrite Nat2Z.inj_succ. unfold Z.succ.
  rewrite inject_Z_plus. reflexivity.
Qed.

(** The loop that hands the occupancy of the inactive node [n] to its
    targets: [n] itself is not touched, and each round adds one share. *)
Lemma transfer_loop (n : key) (dn : node) (l : list key) (targets : list key) :
  forall ns ns',
    lookup String.eqb n ns = Some dn -> active dn = false ->
    occtransfer dn = Some l ->
    foldM (transfer_to n) targets ns = Ok ns' ->
    lookup String.eqb n ns' = Some dn /\
    refines occ_rel ns ns' /\
    total_occupancy ns'
    == total_occupancy ns + Qlen targets * (occupancy dn / Qlen l).
Proof.
  induction targets as [|tn targets IH]; intros ns ns' Hn Ha Ht H.
  - simpl in H. injection H as <-. split; [exact Hn|].
    split; [apply refines_refl, occ_rel_refl|].
    generalize (occupancy dn / Qlen l). intros q.
    change (Qlen []) with 0. lra.
  - simpl in H. apply bind_Ok in H. destruct H as [ns1 [H1 H]].
    unfold transfer_to in H1.
    bind_inv H1 as dt Hdt. bind_inv H1 as u Hact. bind_inv H1 as dn' Hdn'.
    bind_inv H1 as tg Htg. apply update_node_Ok in H1.
    destruct H1 as [dt' [_ ->]].
    assert (dn' = dn) by congruence. subst dn'.
    assert (tg = l) by congruence. subst tg.
    assert (Hne : n <> tn).
    { intros ->. rewrite Hn in Hdt. injection Hdt as <-. congruence. }
    set (q := occupancy dn / Qlen l) in *.
    destruct (IH (alter String.eqb (add_occupancy q) tn ns) ns')
      as (Hn' & Hr & Htot); auto.
    { rewrite nodes_lookup_alter.
      destruct (String.eqb_spec n tn); [contradiction | exact Hn]. }
    split; [exact Hn'|]. split.
    + eapply refines_trans; [exact occ_rel_trans | | exact Hr].
      apply refines_alter; [exact occ_rel_refl|].
      intros d Hd. assert (d = dt) by congruence. subst d.
      split; [reflexivity | congruence].
    + rewrite Htot, (total_alter _ _ _ Hdt), Qlen_cons. simpl.
      clearbody q. lra.
Qed.

(** What the first loop of [get_coarse_network] may change in a node
    record besides the two sets. *)
Definition T_rel (d d' : node) : Prop :=
gcn_rel d d' /\ active d' = active d /\
(active d = false -> occupancy d' = occupancy d \/ occupancy d' = 0).

Lemma T_rel_refl (d : node) : T_rel d d.
Proof. split; [apply gcn_rel_refl | auto]. Qed.

Lemma T_rel_trans (a b c : node) : T_rel a b -> T_rel b c -> T_rel a c.
Proof.
  intros (G1 & A1 & O1) (G2 & A2 & O2).
  split; [eapply gcn_rel_trans; eauto|]. split; [congruence|].
  intros Ha. assert (Hb : active b = false) by congruence.
  destruct (O1 Ha) as [E1|E1], (O2 Hb) as [E2|E2];
    [left | right | right | right]; congruence.
Qed.

Lemma occ_rel_T_rel (d d' : node) : occ_rel d d' -> T_rel d d'.
Proof.
  intros [E Ho]. split; [|split].
  - rewrite E. repeat split.
  - rewrite E. reflexivity.
  - auto.
Qed.

Lemma Qlen_share (l : list key) (x : Q) :
  l <> [] -> Qlen l * (x / Qlen l) == x.
Proof.
  intros Hl. apply Qlen_pos in Hl. field. intros E. rewrite E in Hl.
  discriminate Hl.
Qed.

(** One round of the first loop of [get_coarse_network]. *)
Lemma reset_and_transfer_step (n : key) (ns ns' : nodes_t) :
  reset_and_transfer n ns = Ok ns' ->
  refines T_rel ns ns' /\
  (forall k d', lookup String.eqb k ns' = Some d' -> k <> n ->
     exists d, lookup String.eqb k ns = Some d /\
               lminreps d' = lminreps d /\ hiddennodes d' = hiddennodes d) /\
  (forall d', lookup String.eqb n ns' = Some d' ->
     cleared d' /\ (active d' = false -> occupancy d' == 0)) /\
  (occt_ok ns -> total_occupancy ns' == total_occupancy ns).
Proof.
  unfold reset_and_transfer. intros H.
  apply bind_Ok in H. destruct H as [nsa [Ha H]].
  apply update_node_Ok in Ha. destruct Ha as [d0 [Hd0 ->]].
  apply bind_Ok in H. destruct H as [nsb [Hb H]].
  apply update_node_Ok in Hb. destruct Hb as [da [Hda ->]].
  rewrite nodes_lookup_alter, String.eqb_refl, Hd0 in Hda.
  injection Hda as <-.
  set (dc := set_hiddennodes (Some []) (set_lminreps (Some []) d0)).
  set (nsb := alter String.eqb (set_hiddennodes (Some [])) n
                (alter String.eqb (set_lminreps (Some [])) n ns)) in *.
  assert (Hnb : lookup String.eqb n nsb = Some dc).
  { unfold nsb. now rewrite !nodes_lookup_alter, String.eqb_refl, Hd0. }
  assert (Hob : forall k, k <> n ->
                  lookup String.eqb k nsb = lookup String.eqb k ns).
  { intros k Hk. unfold nsb. rewrite !nodes_lookup_alter.
    destruct (String.eqb_spec k n); [contradiction | reflexivity]. }
  assert (Rb : refines (fun d d' => occupancy d' = occupancy d /\ T_rel d d')
                       ns nsb).
  { unfold nsb.
    eapply refines_trans with
      (ns2 := alter String.eqb (set_lminreps (Some [])) n ns).
    - intros a b c [E1 T1] [E2 T2]. split; [congruence|].
      eapply T_rel_trans; eauto.
    - apply refines_alter; [split; [reflexivity | apply T_rel_refl]|].
      intros d _. split; [reflexivity|]. repeat split; auto.
    - apply refines_alter; [split; [reflexivity | apply T_rel_refl]|].
      intros d _. split; [reflexivity|]. repeat split; auto. }
  assert (Tb : total_occupancy nsb == total_occupancy ns).
  { eapply total_refines; [|exact Rb]. intros d d' [-> _]. reflexivity. }
  assert (RTb : refines T_rel ns nsb).
  { eapply refines_weaken; [|exact Rb]. intros d d' [_ T]. exact T. }
  bind_inv H as d Hd. assert (d = dc) by congruence. subst d.
  destruct (negb (active dc) && negb (Qeq_bool (occupancy dc) 0)) eqn:Ec.
  - apply andb_true_iff in Ec. destruct Ec as [Eact Eocc].
    apply negb_true_iff in Eact, Eocc.
    bind_inv H as l Hl. bind_inv H as nsc Hc.
    apply update_node_Ok in H. destruct H as [dn [Hdn ->]].
    pose proof Hc as Hc'.
    eapply transfer_loop in Hc'; [| exact Hnb | exact Eact | exact Hl].
    destruct Hc' as (Hnc & Rc & Tc).
    assert (dn = dc) by congruence. subst dn.
    split; [|split; [|split]].
    + eapply refines_trans; [exact T_rel_trans | exact RTb |].
      eapply refines_trans; [exact T_rel_trans | |].
      * eapply refines_weaken; [exact occ_rel_T_rel | exact Rc].
      * apply refines_alter; [exact T_rel_refl|].
        intros d Hd'. split; [repeat split|]. split; [reflexivity|].
        intros _. right. reflexivity.
    + intros k d' Hk Hne. rewrite nodes_lookup_alter in Hk.
      destruct (String.eqb_spec k n); [contradiction|].
      eapply refines_lookup_inv in Hk; [|exact Rc].
      destruct Hk as [db [Hdb [E _]]]. rewrite (Hob _ Hne) in Hdb.
      exists db. split; [exact Hdb|]. rewrite E. auto.
    + intros d' Hd'. rewrite nodes_lookup_alter, String.eqb_refl, Hnc in Hd'.
      injection Hd' as <-. split; [split; reflexivity|].
      intros _. reflexivity.
    + intros Hok. rewrite (total_alter _ _ _ Hnc), Tc, Tb. simpl.
      assert (Hne : l <> []).
      { destruct (Hok n d0 Hd0) as [l' [Hl' Hne]].
        - exact Eact.
        - intros E. apply Qeq_bool_neq in Eocc. apply Eocc. exact E.
        - simpl in Hl. congruence. }
      rewrite Qlen_share by exact Hne. lra.
  - injection H as <-. split; [exact RTb|]. split; [|split; [|auto]].
    + intros k d' Hk Hne. rewrite (Hob _ Hne) in Hk. eauto.
    + intros d' Hd'. assert (d' = dc) by congruence. subst d'.
      split; [split; reflexivity|]. intros Hact. rewrite Hact in Ec.
      simpl in Ec. apply negb_false_iff in Ec. now apply Qeq_bool_eq.
Qed.

Lemma occt_ok_T_rel (ns ns' : nodes_t) :
  refines T_rel ns ns' -> occt_ok ns -> occt_ok ns'.
Proof.
  intros Hr Hok k d' Hk Ha Ho.
  eapply refines_lookup_inv in Hk; [|exact Hr].
  destruct Hk as [d [Hd ((_ & _ & Ht) & Hact & Hocc)]].
  assert (Had : active d = false) by congruence.
  destruct (Hocc Had) as [E|E]; [|rewrite E in Ho; exfalso; now apply Ho].
  destruct (Hok k d Hd Had) as [l [Hl Hne]]; [now rewrite <- E|].
  exists l. split; [congruence | exact Hne].
Qed.

Lemma reset_and_transfer_loop (ks : list key) :
  forall ns ns',
    foldM reset_and_transfer ks ns = Ok ns' ->
    refines T_rel ns ns' /\
    (forall k d', lookup String.eqb k ns' = Some d' -> ~ In k ks ->
       exists d, lookup String.eqb k ns = Some d /\
                 lminreps d' = lminreps d /\
                 hiddennodes d' = hiddennodes d) /\
    (forall k d', In k ks -> lookup String.eqb k ns' = Some d' ->
       cleared d' /\ (active d' = false -> occupancy d' == 0)) /\
    (occt_ok ns -> total_occupancy ns' == total_occupancy ns).
Proof.
  induction ks as [|n ks IH]; intros ns ns' H.
  - simpl in H. injection H as <-.
    split; [apply refines_refl, T_rel_refl|]. split; [eauto|].
    split; [contradiction | reflexivity].
  - simpl in H. apply bind_Ok in H. destruct H as [ns1 [H1 H]].
    apply reset_and_transfer_step in H1.
    destruct H1 as (R1 & B1 & C1 & D1).
    destruct (IH _ _ H) as (R2 & B2 & C2 & D2). clear IH.
    split; [eapply refines_trans; [exact T_rel_trans | exact R1 | exact R2]|].
    split; [|split].
    + intros k d' Hk Hn. simpl in Hn.
      destruct (B2 _ _ Hk) as (d1 & Hd1 & El & Eh); [tauto|].
      destruct (B1 _ _ Hd1) as (d & Hd & El' & Eh');
        [intros ->; tauto|].
      exists d. split; [exact Hd|]. split; congruence.
    + intros k d' Hin Hk.
      destruct (in_dec string_dec k ks) as [Hks|Hks];
        [exact (C2 k d' Hks Hk)|].
      destruct Hin as [<-|Hin]; [|contradiction].
      destruct (B2 _ _ Hk Hks) as (d1 & Hd1 & El & Eh).
      destruct (C1 _ Hd1) as [[Cl Ch] Hdr].
      split; [split; congruence|].
      pose proof Hk as Hk'. eapply refines_lookup_inv in Hk'; [|exact R2].
      destruct Hk' as [d1' [Hd1' (_ & Hact & Hocc)]].
      assert (d1' = d1) by congruence. subst d1'.
      intros Ha. assert (Ha1 : active d1 = false) by congruence.
      destruct (Hocc Ha1) as [E|E]; rewrite E; [auto | reflexivity].
    + intros Hok. rewrite D2; [auto|]. eapply occt_ok_T_rel; eauto.
Qed.

(** The first loop of [get_coarse_network]: afterwards the two sets of
    every node are empty and no inactive node holds occupancy; the total
    is kept when every inactive node with occupancy has transfer
    targets. *)
Lemma transfer_inactive_spec (ns ns' : nodes_t) :
  transfer_inactive ns = Ok ns' ->
  refines T_rel ns ns' /\
  (forall k d', lookup String.eqb k ns' = Some d' -> cleared d') /\
  drained ns' /\
  (occt_ok ns -> total_occupancy ns' == total_occupancy ns).
Proof.
  intros H. apply reset_and_transfer_loop in H.
  destruct H as (R & _ & C & D).
  assert (Hkeys : forall k d', lookup String.eqb k ns' = Some d' ->
                               In k (map fst ns)).
  { intros k d' Hk. rewrite <- (refines_keys R).
    eapply nodes_lookup_key; eauto. }
  split; [exact R|]. split; [|split; [|exact D]].
  - intros k d' Hk. exact (proj1 (C k d' (Hkeys _ _ Hk) Hk)).
  - intros k d' Hk. exact (proj2 (C k d' (Hkeys _ _ Hk) Hk)).
Qed.

(** What recording the mapping leaves alone: everything but the two sets. *)
Definition M_rel (d d' : node) : Prop :=
occupancy d' = occupancy d /\ active d' = active d /\ gcn_rel d d'.

Lemma M_rel_refl (d : node) : M_rel d d.
Proof. split; [|split]; auto using gcn_rel_refl. Qed.

Lemma M_rel_trans (a b c : node) : M_rel a b -> M_rel b c -> M_rel a c.
Proof.
  intros (O1 & A1 & G1) (O2 & A2 & G2).
  split; [congruence|]. split; [congruence|]. eapply gcn_rel_trans; eauto.
Qed.

Lemma add_representative_loop (lmin : key) (hidden : list key) :
  forall ns ns',
    foldM (add_representative lmin) hidden ns = Ok ns' ->
    refines M_rel ns ns' /\
    forall k d', lookup String.eqb k ns' = Some d' ->
      exists d, lookup String.eqb k ns = Some d /\
        hiddennodes d' = hiddennodes d /\
        forall r, In r (reps d') ->
                  In r (reps d) \/ (r = lmin /\ In k hidden).
Proof.
  induction hidden as [|hn hidden IH]; intros ns ns' H.
  - simpl in H. injection H as <-.
    split; [apply refines_refl, M_rel_refl|]. intros k d' Hk. eauto.
  - simpl in H. apply bind_Ok in H. destruct H as [ns1 [H1 H]].
    destruct (IH _ _ H) as [R2 O2]. clear IH.
    unfold add_representative in H1.
    bind_inv H1 as dh Hdh. bind_inv H1 as u Hact. bind_inv H1 as rs Hrs.
    apply update_node_Ok in H1. destruct H1 as [dh' [_ ->]]. split.
    + eapply refines_trans; [exact M_rel_trans | | exact R2].
      apply refines_alter; [exact M_rel_refl|].
      intros d _. repeat split.
    + intros k d' Hk. destruct (O2 _ _ Hk) as (d1 & Hd1 & Eh & Hr).
      rewrite nodes_lookup_alter in Hd1.
      destruct (String.eqb_spec k hn) as [->|Hne].
      * rewrite Hdh in Hd1. simpl in Hd1. injection Hd1 as <-.
        exists dh. split; [exact Hdh|]. split; [exact Eh|].
        intros r Hin. destruct (Hr r Hin) as [Hin1|[-> Hin1]].
        -- unfold reps in Hin1. simpl in Hin1. apply In_set_add in Hin1.
           destruct Hin1 as [->|Hin1]; [right; simpl; auto|].
           left. unfold reps. now rewrite Hrs.
        -- right. simpl. auto.
      * exists d1. split; [exact Hd1|]. split; [exact Eh|].
        intros r Hin. destruct (Hr r Hin) as [Hin1|[-> Hin1]]; [auto|].
        right. simpl. auto.
Qed.

Lemma record_mapping_step (lmin : key) (hidden : list key)
      (ns ns' : nodes_t) :
  record_mapping (lmin, hidden) ns = Ok ns' ->
  refines M_rel ns ns' /\
  (exists dl, lookup String.eqb lmin ns' = Some dl /\ active dl = true) /\
  forall k d', lookup String.eqb k ns' = Some d' ->
    exists d, lookup String.eqb k ns = Some d /\
      (forall r, In r (reps d') ->
                 In r (reps d) \/ (r = lmin /\ In k hidden)) /\
      (truthy (hiddennodes d') = true ->
       truthy (hiddennodes d) = true \/ k = lmin).
Proof.
  unfold record_mapping. intros H.
  bind_inv H as dl Hdl. bind_inv H as u Hact. bind_inv H as ns1 H1.
  apply add_representative_loop in H1. destruct H1 as [R1 O1].
  apply update_node_Ok in H. destruct H as [dl1 [Hdl1 ->]].
  assert (R : refines M_rel ns
                (alter String.eqb (set_hiddennodes (Some hidden)) lmin ns1)).
  { eapply refines_trans; [exact M_rel_trans | exact R1 |].
    apply refines_alter; [exact M_rel_refl|]. intros d _. repeat split. }
  split; [exact R|]. split.
  - pose proof Hdl as Hdl'. eapply refines_lookup in Hdl'; [|exact R].
    destruct Hdl' as [d' [Hd' (_ & Ha & _)]]. exists d'.
    split; [exact Hd' | congruence].
  - intros k d' Hk. rewrite nodes_lookup_alter in Hk.
    destruct (String.eqb_spec k lmin) as [->|Hne].
    + rewrite Hdl1 in Hk. simpl in Hk. injection Hk as <-.
      destruct (O1 _ _ Hdl1) as (d & Hd & _ & Hr).
      exists d. split; [exact Hd|]. split; [exact Hr | auto].
    + destruct (O1 _ _ Hk) as (d & Hd & Eh & Hr).
      exists d. split; [exact Hd|]. split; [exact Hr|].
      rewrite Eh. auto.
Qed.

(** The loop over [cg_mapping]: a representative recorded for [k] is a
    key of the mapping with [k] among its hidden nodes, a node with hidden
    nodes is a key of the mapping, and every key of the mapping is an
    active node. *)
Lemma record_mapping_loop (cgm : list (key * list key)) :
  forall ns ns',
    foldM record_mapping cgm ns = Ok ns' ->
    refines M_rel ns ns' /\
    (forall lmin hidden, In (lmin, hidden) cgm ->
       exists dl, lookup String.eqb lmin ns' = Some dl /\ active dl = true) /\
    forall k d', lookup String.eqb k ns' = Some d' ->
      exists d, lookup String.eqb k ns = Some d /\
        (forall r, In r (reps d') ->
           In r (reps d) \/
           exists hidden, In (r, hidden) cgm /\ In k hidden) /\
        (truthy (hiddennodes d') = true ->
         truthy (hiddennodes d) = true \/
         exists hidden, In (k, hidden) cgm).
Proof.
  induction cgm as [|[lmin hidden] cgm IH]; intros ns ns' H.
  - simpl in H. injection H as <-.
    split; [apply refines_refl, M_rel_refl|]. split; [contradiction|].
    intros k d' Hk. exists d'. auto.
  - simpl in H. apply bind_Ok in H. destruct H as [ns1 [H1 H]].
    destruct (IH _ _ H) as (R2 & A2 & O2). clear IH.
    apply record_mapping_step in H1. destruct H1 as (R1 & [dl [Hdl Hal]] & O1).
    split; [eapply refines_trans; [exact M_rel_trans | exact R1 | exact R2]|].
    split.
    + intros lm hd [E|Hin]; [|eauto].
      injection E as <- <-. eapply refines_lookup in Hdl; [|exact R2].
      destruct Hdl as [d' [Hd' (_ & Ha & _)]]. exists d'.
      split; [exact Hd' | congruence].
    + intros k d' Hk. destruct (O2 _ _ Hk) as (d1 & Hd1 & Hr2 & Hh2).
      destruct (O1 _ _ Hd1) as (d & Hd & Hr1 & Hh1).
      exists d. split; [exact Hd|]. split.
      * intros r Hin. destruct (Hr2 r Hin) as [Hin1|[hd [Hin1 Hk1]]].
        -- destruct (Hr1 r Hin1) as [Hin0|[-> Hk0]]; [auto|].
           right. exists hidden. simpl. auto.
        -- right. exists hd. simpl. auto.
      * intros Ht. destruct (Hh2 Ht) as [Ht1|[hd Hin1]].
        -- destruct (Hh1 Ht1) as [Ht0| ->]; [auto|].
           right. exists hidden. simpl. auto.
        -- right. exists hd. simpl. auto.
Qed.

(** What moving the occupancy to the representatives leaves alone. *)
Definition H_rel (d d' : node) : Prop :=
lminreps d' = lminreps d /\ hiddennodes d' = hiddennodes d /\ gcn_rel d d'.

Lemma H_rel_refl (d : node) : H_rel d d.
Proof. split; [|split]; auto using gcn_rel_refl. Qed.

Lemma H_rel_trans (a b c : node) : H_rel a b -> H_rel b c -> H_rel a c.
Proof.
  intros (O1 & A1 & G1) (O2 & A2 & G2).
  split; [congruence|]. split; [congruence|]. eapply gcn_rel_trans; eauto.
Qed.

Lemma truthy_reps (d : node) : truthy (lminreps d) = true <-> reps d <> [].
Proof.
  unfold reps. destruct (lminreps d) as [[|x l]|]; simpl;
    split; congruence.
Qed.

(** The loop that shares the occupancy of the hidden node [hn] among its
    representatives. *)
Lemma share_loop (hn : key) (dh : node) (l : list key) (targets : list key) :
  forall ns ns',
    lookup String.eqb hn ns = Some dh -> lminreps dh = Some l ->
    ~ In hn targets ->
    foldM (share_with hn) targets ns = Ok ns' ->
    lookup String.eqb hn ns' = Some dh /\
    refines H_rel ns ns' /\
    total_occupancy ns'
    == total_occupancy ns + Qlen targets * (occupancy dh / Qlen l) /\
    forall k d', lookup String.eqb k ns' = Some d' ->
      exists d, lookup String.eqb k ns = Some d /\ active d' = active d /\
                (occupancy d' = occupancy d \/ In k targets).
Proof.
  induction targets as [|tn targets IH]; intros ns ns' Hn Hl Hnin H.
  - simpl in H. injection H as <-. split; [exact Hn|].
    split; [apply refines_refl, H_rel_refl|]. split.
    + generalize (occupancy dh / Qlen l). intros q.
      change (Qlen []) with 0. lra.
    + intros k d' Hk. eauto.
  - simpl in H. apply bind_Ok in H. destruct H as [ns1 [H1 H]].
    unfold share_with in H1.
    bind_inv H1 as dh' Hdh'. bind_inv H1 as rs Hrs.
    apply update_node_Ok in H1. destruct H1 as [dt [Hdt ->]].
    assert (dh' = dh) by congruence. subst dh'.
    assert (rs = l) by congruence. subst rs.
    assert (Hne : hn <> tn) by (intros ->; apply Hnin; now left).
    set (q := occupancy dh / Qlen l) in *.
    destruct (IH (alter String.eqb (add_occupancy q) tn ns) ns')
      as (Hn' & Hr & Htot & Heff); auto.
    { rewrite nodes_lookup_alter.
      destruct (String.eqb_spec hn tn); [contradiction | exact Hn]. }
    { intros Hin. apply Hnin. now right. }
    split; [exact Hn'|]. split; [|split].
    + eapply refines_trans; [exact H_rel_trans | | exact Hr].
      apply refines_alter; [exact H_rel_refl|]. intros d _. repeat split.
    + rewrite Htot, (total_alter _ _ _ Hdt), Qlen_cons. simpl.
      clearbody q. lra.
    + intros k d' Hk. destruct (Heff _ _ Hk) as (d1 & Hd1 & Ha & Ho).
      rewrite nodes_lookup_alter in Hd1.
      destruct (String.eqb_spec k tn) as [->|Hk'].
      * rewrite Hdt in Hd1. simpl in Hd1. injection Hd1 as <-.
        exists dt. split; [exact Hdt|]. split; [exact Ha|].
        right. now left.
      * exists d1. split; [exact Hd1|]. split; [exact Ha|].
        destruct Ho; [auto | right; now right].
Qed.

(** One round of the last loop of [get_coarse_network], for a hidden node
    that is not among its own representatives. *)
Lemma move_to_lmins_step (n hn : key) (ns ns' : nodes_t) (dh : node) :
  lookup String.eqb hn ns = Some dh ->
  truthy (lminreps dh) = true -> ~ In hn (reps dh) ->
  move_to_lmins n hn ns = Ok ns' ->
  refines H_rel ns ns' /\
  total_occupancy ns' == total_occupancy ns /\
  forall k d', lookup String.eqb k ns' = Some d' ->
    exists d, lookup String.eqb k ns = Some d /\
      ((k = hn /\ active d' = false /\ occupancy d' = 0) \/
       (k <> hn /\ active d' = active d /\
        (occupancy d' = occupancy d \/ In k (reps dh)))).
Proof.
  intros Hdh Ht Hself. unfold move_to_lmins. intros H.
  bind_inv H as dn Hdn. bind_inv H as u Hu. clear Hu.
  bind_inv H as dh' Hdh'. assert (dh' = dh) by congruence. subst dh'.
  bind_inv H as ns1 H1. bind_inv H as ns2 H2.
  apply update_node_Ok in H2. destruct H2 as [d1 [Hd1 ->]].
  apply update_node_Ok in H. destruct H as [d2 [Hd2 ->]].
  rewrite nodes_lookup_alter, String.eqb_refl, Hd1 in Hd2.
  simpl in Hd2. injection Hd2 as <-.
  assert (Hl : exists l, lminreps dh = Some l /\ reps dh = l /\ l <> []).
  { apply truthy_reps in Ht. unfold reps in *.
    destruct (lminreps dh) as [l|]; [eauto | congruence]. }
  destruct Hl as (l & Hl & Hrl & Hlne).
  assert (S1 : lookup String.eqb hn ns1 = Some dh /\
               refines H_rel ns ns1 /\
               total_occupancy ns1
               == total_occupancy ns + occupancy dh /\
               forall k d', lookup String.eqb k ns1 = Some d' ->
                 exists d, lookup String.eqb k ns = Some d /\
                           active d' = active d /\
                           (occupancy d' = occupancy d \/ In k (reps dh))).
  { destruct (negb (Qeq_bool (occupancy dh) 0)) eqn:Eo.
    - bind_inv H1 as rs Hrs. assert (rs = l) by congruence. subst rs.
      eapply share_loop in H1; [| exact Hdh | exact Hl | congruence].
      destruct H1 as (A & B & C & D). rewrite Hrl.
      split; [exact A|]. split; [exact B|]. split; [|exact D].
      rewrite C. rewrite Qlen_share by exact Hlne. reflexivity.
    - injection H1 as <-. apply negb_false_iff, Qeq_bool_eq in Eo.
      split; [exact Hdh|]. split; [apply refines_refl, H_rel_refl|].
      split; [rewrite Eo; lra|]. intros k d' Hk. eauto. }
  destruct S1 as (A & B & C & D).
  assert (d1 = dh) by congruence. subst d1.
  split; [|split].
  - eapply refines_trans; [exact H_rel_trans | exact B |].
    eapply refines_trans with
      (ns2 := alter String.eqb (set_occupancy 0) hn ns1);
      [exact H_rel_trans | |];
      (apply refines_alter; [exact H_rel_refl|]; intros d _; repeat split).
  - assert (E1 : lookup String.eqb hn
                   (alter String.eqb (set_occupancy 0) hn ns1)
                 = Some (set_occupancy 0 dh))
      by (now rewrite nodes_lookup_alter, String.eqb_refl, A).
    rewrite (total_alter _ _ _ E1), (total_alter _ _ _ A), C. simpl. lra.
  - intros k d' Hk. rewrite !nodes_lookup_alter in Hk.
    destruct (String.eqb_spec k hn) as [->|Hne].
    + rewrite ?String.eqb_refl, A in Hk. simpl in Hk. injection Hk as <-.
      exists dh. split; [exact Hdh|]. left. simpl. auto.
    + destruct (D _ _ Hk) as (d & Hd & Ha & Ho).
      exists d. split; [exact Hd|]. right. auto.
Qed.

(** The last loop of [get_coarse_network], when the representatives [Rp]
    are active nodes that are not hidden themselves. *)
Lemma move_to_lmins_loop (Rp : key -> Prop) (n : key) (hs : list key)
      (ns0 ns ns' : nodes_t) :
  (forall k d, lookup String.eqb k ns0 = Some d ->
               forall r, In r (reps d) -> Rp r) ->
  (forall k d, lookup String.eqb k ns0 = Some d -> Rp k ->
               truthy (lminreps d) = false) ->
  (forall hn, In hn hs ->
     exists d, lookup String.eqb hn ns0 = Some d /\
               truthy (lminreps d) = true) ->
  refines H_rel ns0 ns -> drained ns ->
  (forall r d, Rp r -> lookup String.eqb r ns = Some d -> active d = true) ->
  foldM (move_to_lmins n) hs ns = Ok ns' ->
  refines H_rel ns0 ns' /\ drained ns' /\
  total_occupancy ns' == total_occupancy ns.
Proof.
  intros h1 h2 Hhs R0 Hdr h3 H.
  cut (refines H_rel ns0 ns' /\ drained ns' /\
       total_occupancy ns' == total_occupancy ns /\
       (forall r d, Rp r -> lookup String.eqb r ns' = Some d ->
                    active d = true)); [tauto|].
  revert H.
  apply (foldM_invariant (move_to_lmins n)
           (fun s => refines H_rel ns0 s /\ drained s /\
                     total_occupancy s == total_occupancy ns /\
                     (forall r d, Rp r -> lookup String.eqb r s = Some d ->
                                  active d = true)));
    [|split; [exact R0|]; split; [exact Hdr|]; split; [reflexivity|exact h3]].
  intros hn s s' Hin (Rs & Ds & Ts & As) Hstep.
  destruct (Hhs hn Hin) as (d0 & Hd0 & Ht0).
  pose proof Hd0 as Hdh. eapply refines_lookup in Hdh; [|exact Rs].
  destruct Hdh as (dh & Hdh & (El & _)).
  assert (Hreps : reps dh = reps d0) by (unfold reps; now rewrite El).
  assert (Ht : truthy (lminreps dh) = true) by (now rewrite El).
  assert (HnRp : ~ Rp hn).
  { intros Hrp. rewrite (h2 _ _ Hd0 Hrp) in Ht0. discriminate. }
  assert (Hself : ~ In hn (reps dh)).
  { rewrite Hreps. intros Hi. apply HnRp. eapply h1; eauto. }
  eapply move_to_lmins_step in Hstep; [| exact Hdh | exact Ht | exact Hself].
  destruct Hstep as (Rstep & Tstep & Eff).
  split; [eapply refines_trans; [exact H_rel_trans | exact Rs | exact Rstep]|].
  split; [|split].
  - intros k d' Hk Ha.
    destruct (Eff _ _ Hk) as (d & Hd & [(_ & _ & Eo)|(Hne & Ea & Eo)]).
    + rewrite Eo. reflexivity.
    + assert (Had : active d = false) by congruence.
      destruct Eo as [Eo|Eo]; [rewrite Eo; eapply Ds; eauto|].
      rewrite Hreps in Eo. pose proof (h1 _ _ Hd0 _ Eo) as Hrp.
      rewrite (As _ _ Hrp Hd) in Had. discriminate.
  - rewrite Tstep. exact Ts.
  - intros r d' Hrp Hk.
    destruct (Eff _ _ Hk) as (d & Hd & [(-> & _)|(Hne & Ea & _)]).
    + contradiction.
    + rewrite Ea. eapply As; eauto.
Qed.

Lemma drained_M_rel (ns ns' : nodes_t) :
  refines M_rel ns ns' -> drained ns -> drained ns'.
Proof.
  intros R Hd k d' Hk Ha. eapply refines_lookup_inv in Hk; [|exact R].
  destruct Hk as (d & Hk & (Eo & Ea & _)). rewrite Eo.
  eapply Hd; [exact Hk | congruence].
Qed.

(** [get_coarse_network] as a whole, for a collaborator whose mapping
    keeps representatives and hidden nodes apart. *)
Lemma gcn_spec {X : Externals} (L L' : landscape) (n m : nat) :
  coarse_graining_partitions ->
  NoDup (map fst (nodes L)) ->
  get_coarse_network L = Ok (L', n, m) ->
  NoDup (map fst (nodes L')) /\
  drained (nodes L') /\
  (forall k d, lookup String.eqb k (nodes L') = Some d -> exclusive d) /\
  (occt_ok (nodes L) ->
   total_occupancy (nodes L') == total_occupancy (nodes L)).
Proof.
  intros Hpart Hnd H. pose proof (gcn_refines _ H) as Rall.
  apply gcn_stages in H.
  destruct H as (ns1 & edata & ce & ns2 & ns3 & H1 & _ & _ & _ & H5 & H6 &
                 -> & _).
  cbn [nodes with_nodes with_cg_edges] in *.
  set (cgm := snd (top_down_coarse_graining
                     (filter (fun kd => active (snd kd)) ns1) edata
                     (minh L))) in *.
  apply transfer_inactive_spec in H1. destruct H1 as (R1 & C1 & D1 & T1).
  apply record_mapping_loop in H5. destruct H5 as (R2 & A2 & O2).
  assert (Hnd2 : NoDup (map fst ns2)).
  { rewrite (refines_keys R2), (refines_keys R1). exact Hnd. }
  set (Rp := fun k => exists hidden, In (k, hidden) cgm).
  assert (h1 : forall k d, lookup String.eqb k ns2 = Some d ->
                 forall r, In r (reps d) ->
                   exists hidden, In (r, hidden) cgm /\ In k hidden).
  { intros k d Hk r Hr. destruct (O2 _ _ Hk) as (d1 & Hd1 & Hreps & _).
    destruct (Hreps r Hr) as [Hin|Hin]; [|exact Hin].
    destruct (C1 _ _ Hd1) as [Cl _]. unfold reps in Hin. rewrite Cl in Hin.
    contradiction. }
  assert (h2 : forall k d, lookup String.eqb k ns2 = Some d -> Rp k ->
                 truthy (lminreps d) = false).
  { intros k d Hk [hd Hrp].
    destruct (truthy (lminreps d)) eqn:Et; [|reflexivity].
    apply truthy_reps in Et. destruct (reps d) as [|r l] eqn:Er;
      [congruence|].
    destruct (h1 _ _ Hk r) as (hidden & Hin & Hkh); [rewrite Er; now left|].
    exfalso. exact (Hpart _ _ _ _ _ _ _ Hrp Hin Hkh). }
  assert (hh : forall k d, lookup String.eqb k ns2 = Some d ->
                 truthy (hiddennodes d) = true -> Rp k).
  { intros k d Hk Ht. destruct (O2 _ _ Hk) as (d1 & Hd1 & _ & Hh).
    destruct (Hh Ht) as [Ht1|Hin]; [|exact Hin].
    destruct (C1 _ _ Hd1) as [_ Ch]. rewrite Ch in Ht1. discriminate. }
  eapply move_to_lmins_loop with (Rp := Rp) (ns0 := ns2) in H6.
  - destruct H6 as (R3 & D3 & T3).
    split; [rewrite (refines_keys R3); exact Hnd2|].
    split; [exact D3|]. split.
    + intros k d Hk. eapply refines_lookup_inv in Hk; [|exact R3].
      destruct Hk as (d2 & Hd2 & (El & Eh & _)).
      unfold exclusive. rewrite El, Eh.
      destruct (truthy (hiddennodes d2)) eqn:Eth; [|apply andb_false_r].
      rewrite (h2 _ _ Hd2 (hh _ _ Hd2 Eth)). reflexivity.
    + intros Hok. rewrite T3.
      rewrite (total_refines (R := M_rel) (ns := ns1));
        [auto | intros d d' (-> & _); reflexivity | exact R2].
  - intros k d Hk r Hr. destruct (h1 _ _ Hk r Hr) as (hd & Hin & _).
    exists hd. exact Hin.
  - exact h2.
  - intros hn Hin. apply In_keys_where in Hin.
    destruct Hin as (d & Hin & Ht). exists d. split; [|exact Ht].
    now apply nodes_In_lookup.
  - apply refines_refl, H_rel_refl.
  - eapply drained_M_rel; eauto.
  - intros r d [hd Hrp] Hk. destruct (A2 _ _ Hrp) as (dl & Hdl & Ha).
    congruence.
Qed.

(** ** Exclusivity of the two sets *)

(** The invariant: keys are unique and no node has both sets populated. *)
Definition exclusive_nodes (ns : nodes_t) : Prop :=
NoDup (map fst ns) /\
forall k d, lookup String.eqb k ns = Some d -> exclusive d.

Lemma set_occupancies_refines (snodes : list key) :
  forall pt ns ns',
    set_occupancies ns snodes pt = Ok ns' ->
    refines (fun d d' => d' = set_occupancy (occupancy d') d) ns ns'.
Proof.
  induction snodes as [|n snodes IH]; intros pt ns ns' H.
  - simpl in H. injection H as <-. apply refines_refl.
    intros d. destruct d. reflexivity.
  - simpl in H. destruct pt as [|p pt]; [discriminate|].
    apply bind_Ok in H. destruct H as [ns1 [H1 H]].
    apply update_node_Ok in H1. destruct H1 as [d1 [_ ->]].
    apply IH in H.
    eapply refines_trans; [| |exact H].
    + intros a b c -> ->. reflexivity.
    + apply refines_alter; [intros d; destruct d; reflexivity|].
      intros d _. reflexivity.
Qed.

Lemma exec_exclusive {X : Externals} (o : op) (L L' : landscape) :
  coarse_graining_partitions ->
  exclusive_nodes (nodes L) -> exec o L = Ok L' ->
  exclusive_nodes (nodes L').
Proof.
  intros Hpart [Hnd Hex] H. destruct o as [pr| |pmin delth keep|snodes pt];
    simpl in H.
  - apply bind_Ok in H. destruct H as [[[[L1 nn] on] t] [H1 H]].
    injection H as <-. apply expand_nodes in H1.
    destruct H1 as [(_ & k & d & -> & _ & _ & El & Eh)|(_ & Hg)].
    + split; [repeat constructor; simpl; tauto|].
      intros k' d' Hk. simpl in Hk. destruct (String.eqb k' k); [|discriminate].
      injection Hk as <-. unfold exclusive. now rewrite El.
    + split; [eapply grows_NoDup; eauto|].
      intros k d' Hk. destruct (grows_origin Hg _ Hk)
        as [(d & Hd & [-> | ->])|(_ & _ & _ & El & _)].
      * eauto.
      * apply (Hex _ _ Hd).
      * unfold exclusive. now rewrite El.
  - apply bind_Ok in H. destruct H as [[[L1 n] m] [H1 H]].
    injection H as <-. apply gcn_spec in H1; [|exact Hpart|exact Hnd].
    destruct H1 as (N & _ & E & _). split; assumption.
  - apply bind_Ok in H. destruct H as [[[L1 pn] dn] [H1 H]].
    injection H as <-. apply prune_summary in H1; [|exact Hnd].
    destruct H1 as (ns2 & R & N & Lk & _). split; [exact N|].
    intros k d' Hk. rewrite Lk in Hk.
    destruct (evicted delth ns2 k); [discriminate|].
    destruct (lookup String.eqb k ns2) as [d2|] eqn:E2; [|discriminate].
    simpl in Hk. injection Hk as <-.
    eapply refines_lookup_inv in E2; [|exact R].
    destruct E2 as (d & Hd & (_ & _ & El & Eh & _)).
    specialize (Hex _ _ Hd). unfold exclusive in *.
    unfold aged. destruct (active d2); simpl; now rewrite El, Eh.
  - apply bind_Ok in H. destruct H as [ns1 [H1 H]]. injection H as <-.
    cbn [nodes with_nodes]. apply set_occupancies_refines in H1.
    split; [rewrite (refines_keys H1); exact Hnd|].
    intros k d' Hk. eapply refines_lookup_inv in Hk; [|exact H1].
    destruct Hk as (d & Hd & ->). apply (Hex _ _ Hd).
Qed.

(** C6: on a landscape that starts without nodes, after any sequence of
    [expand], [get_coarse_network], [prune] and [set_occupancies] calls
    that return, no node has both [lminreps] and [hiddennodes] non-empty.
    The coarse-graining collaborator is taken to return a mapping whose
    representatives are not hidden nodes. *)
Theorem exclusivity_invariant {X : Externals} (L0 L : landscape)
        (ops : list op) :
  coarse_graining_partitions ->
  nodes L0 = [] ->
  run ops L0 = Ok L ->
  forall k d, In (k, d) (nodes L) ->
    truthy (lminreps d) && truthy (hiddennodes d) = false.
Proof.
  intros Hpart H0 Hrun.
  assert (Hinv : exclusive_nodes (nodes L)).
  { revert Hrun. unfold run.
    apply (foldM_invariant exec (fun M => exclusive_nodes (nodes M))).
    - intros o s s' _ Hs Ho. eapply exec_exclusive; eauto.
    - rewrite H0. split; [constructor | discriminate]. }
  destruct Hinv as [Hnd Hex]. intros k d Hin.
  apply (Hex k d). now apply nodes_In_lookup.
Qed.

Lemma exclusivity_invariant_witness :
  Forall (fun kd => truthy (lminreps (snd kd))
                    && truthy (hiddennodes (snd kd)) = false)
         (nodes Example.coarse).
Proof.
  apply Forall_forall. intros [k d] Hin.
  apply (@exclusivity_invariant Example.collaborators Example.fresh
           Example.coarse
           (Example.step (1 # 2) 1 ++ [OpExpand false; OpCoarse])
           example_partitions eq_refl eq_refl k d Hin).
Defined.

(** ** Conservation of occupancy *)

Lemma grows_occt_ok (ns ns' : nodes_t) :
  grows ns ns' -> occt_ok ns -> occt_ok ns'.
Proof.
  intros Hg Hok k d' Hk Ha Ho.
  destruct (grows_origin Hg _ Hk) as [(d & Hd & [-> | ->])|(_ & Hact & _)].
  - eapply Hok; eauto.
  - simpl in Ha. discriminate.
  - congruence.
Qed.

(** A [prune] that keeps every inactive node for at least one round, on a
    landscape whose inactive nodes are empty: no occupancy is deleted. *)
Lemma prune_conserves (L L' : landscape) (pmin : Q) (delth : Z)
      (keep : option (list key)) (pn dn : list key) :
  NoDup (map fst (nodes L)) -> drained (nodes L) -> (1 <= delth)%Z ->
  prune L pmin delth keep = Ok (L', pn, dn) ->
  NoDup (map fst (nodes L')) /\
  total_occupancy (nodes L') == total_occupancy (nodes L) /\
  occt_ok (nodes L') /\
  forall k, In k dn -> occupancy_of (nodes L) k == 0.
Proof.
  intros Hnd Hdr Hdel H. apply prune_summary in H; [|exact Hnd].
  destruct H as (ns2 & R & N & Lk & D & _ & O & _ & T).
  assert (Hocc : forall k d2, lookup String.eqb k ns2 = Some d2 ->
            exists d, lookup String.eqb k (nodes L) = Some d /\
                      occupancy d2 = occupancy d).
  { intros k d2 Hk. eapply refines_lookup_inv in Hk; [|exact R].
    destruct Hk as (d & Hd & (_ & Eo & _)). eauto. }
  assert (Hz : forall k d2, lookup String.eqb k ns2 = Some d2 ->
                 evicted delth ns2 k = true -> occupancy d2 == 0).
  { intros k d2 Hk Hev. unfold evicted in Hev. rewrite Hk in Hev.
    rewrite aged_pruned in Hev. apply Z.ltb_lt in Hev.
    destruct (active d2) eqn:Ea; [lia|].
    destruct (O _ _ Hk) as (d & Hd & _ & Hcase).
    destruct (Hcase Ea) as [Had|[Hq|[Hp _]]]; [| exact Hq | lia].
    destruct (Hocc _ _ Hk) as (d' & Hd' & ->).
    assert (d' = d) by congruence. subst d'. eapply Hdr; eauto. }
  split; [exact N|]. split; [exact (T Hz)|]. split.
  - intros k d' Hk Ha Ho. rewrite Lk in Hk.
    destruct (evicted delth ns2 k); [discriminate|].
    destruct (lookup String.eqb k ns2) as [d2|] eqn:E2; [|discriminate].
    simpl in Hk. injection Hk as <-.
    rewrite aged_active in Ha. rewrite aged_occupancy in Ho.
    destruct (O _ _ E2) as (d & Hd & _ & Hcase).
    destruct (Hcase Ha) as [Had|[Hq|[_ [l [Hl Hne]]]]].
    + exfalso. apply Ho. destruct (Hocc _ _ E2) as (d' & Hd' & ->).
      assert (d' = d) by congruence. subst d'. eapply Hdr; eauto.
    + contradiction.
    + exists l. split; [|exact Hne]. unfold aged.
      destruct (active d2); exact Hl.
  - intros k Hk. apply D in Hk. pose proof Hk as Hev.
    unfold evicted in Hk.
    destruct (lookup String.eqb k ns2) as [d2|] eqn:E2; [|discriminate].
    destruct (Hocc _ _ E2) as (d & Hd & Eo).
    unfold occupancy_of. rewrite Hd, <- Eo. eapply Hz; eauto.
Qed.

(** The positions of a transcription step. *)
Inductive phase : Type := Fresh | Expanded | Coarsened | Pruned.

Definition phase_pos (p : phase) : nat :=
match p with
| Fresh | Pruned => 0
| Expanded => 1
| Coarsened => 2
end.

(** What holds of the landscape at each position. *)
Definition conserved (p : phase) (L : landscape) : Prop :=
match p with
| Fresh => nodes L = []
| Expanded | Pruned =>
    NoDup (map fst (nodes L)) /\ total_occupancy (nodes L) == 1 /\
    occt_ok (nodes L)
| Coarsened =>
    NoDup (map fst (nodes L)) /\ total_occupancy (nodes L) == 1 /\
    drained (nodes L)
end.

Definition next_pos (i : nat) : nat :=
match i with
| 0%nat => 1%nat
| 1%nat => 2%nat
| _ => 0%nat
end.

Lemma exec_conserved {X : Externals} (p : phase) (o : op) (ops : list op)
      (L L' : landscape) :
  coarse_graining_partitions ->
  conserved p L ->
  step_order (phase_pos p) (o :: ops) = true ->
  delays_eviction (o :: ops) ->
  exec o L = Ok L' ->
  exists p', conserved p' L' /\ p' <> Fresh /\
             phase_pos p' = next_pos (phase_pos p) /\
             step_order (phase_pos p') ops = true.
Proof.
  intros Hpart Hc Hord Hdel H.
  inversion Hdel as [|? ? Hd1 _]; subst.
  assert (Hexp : forall pr, o = OpExpand pr ->
            (nodes L = [] \/
             (NoDup (map fst (nodes L)) /\ total_occupancy (nodes L) == 1 /\
              occt_ok (nodes L))) ->
            conserved Expanded L').
  { intros pr -> Hcase. simpl in H.
    apply bind_Ok in H. destruct H as [[[[L1 nn] on] t] [H1 H]].
    injection H as <-. apply expand_nodes in H1.
    destruct H1 as [(_ & k & d & E & Eo & Ea & _)|(Hne & Hg)].
    - unfold conserved. rewrite E. split; [repeat constructor; simpl; tauto|]. split.
      + simpl. rewrite Eo. reflexivity.
      + intros k' d' Hk Hina. simpl in Hk.
        destruct (String.eqb k' k); [|discriminate]. congruence.
    - destruct Hcase as [Hnil|(Hnd & Ht & Hok)]; [contradiction|].
      split; [eapply grows_NoDup; eauto|]. split.
      + rewrite (grows_total Hg). exact Ht.
      + eapply grows_occt_ok; eauto. }
  destruct p; simpl in Hord;
    destruct o as [pr| |pmin delth keep|snodes pt]; try discriminate.
  - exists Expanded. split; [apply (Hexp pr eq_refl); now left|].
    split; [discriminate|]. split; [reflexivity | exact Hord].
  - simpl in H. apply bind_Ok in H. destruct H as [[[L1 n] m] [H1 H]].
    injection H as <-. destruct Hc as (Hnd & Ht & Hok).
    apply gcn_spec in H1; [|exact Hpart|exact Hnd].
    destruct H1 as (N & D & _ & T). exists Coarsened.
    split; [split; [exact N|]; split; [rewrite (T Hok); exact Ht | exact D]|].
    split; [discriminate|]. split; [reflexivity | exact Hord].
  - simpl in H. apply bind_Ok in H. destruct H as [[[L1 pn] dn] [H1 H]].
    injection H as <-. destruct Hc as (Hnd & Ht & Hdr).
    apply prune_conserves in H1; [|exact Hnd|exact Hdr|exact Hd1].
    destruct H1 as (N & T & Ok' & _). exists Pruned.
    split; [split; [exact N|]; split; [rewrite T; exact Ht | exact Ok']|].
    split; [discriminate|]. split; [reflexivity | exact Hord].
  - exists Expanded. split; [apply (Hexp pr eq_refl); now right|].
    split; [discriminate|]. split; [reflexivity | exact Hord].
Qed.

Lemma run_conserved {X : Externals} (ops : list op) :
  coarse_graining_partitions ->
  forall p L L',
    conserved p L ->
    step_order (phase_pos p) ops = true ->
    delays_eviction ops ->
    run ops L = Ok L' ->
    exists p', conserved p' L' /\
               (p <> Fresh \/ ops <> [] -> p' <> Fresh) /\
               phase_pos p' = fold_left (fun i _ => next_pos i) ops
                                        (phase_pos p).
Proof.
  intros Hpart. induction ops as [|o ops IH]; intros p L L' Hc Hord Hdel H.
  - simpl in H. injection H as <-. exists p. split; [exact Hc|].
    split; [intros [Hp|Hp]; congruence | reflexivity].
  - unfold run in H. simpl in H. apply bind_Ok in H.
    destruct H as [L1 [H1 H]].
    destruct (@exec_conserved X p o ops L L1 Hpart Hc Hord Hdel H1)
      as (p1 & Hc1 & Hn1 & Hp1 & Hord1).
    inversion Hdel as [|? ? _ Hdel']; subst.
    destruct (IH _ _ _ Hc1 Hord1 Hdel' H) as (p' & Hc' & Hn' & Hp').
    exists p'. split; [exact Hc'|]. split.
    + intros _. apply Hn'. now left.
    + simpl. rewrite <- Hp1. exact Hp'.
Qed.

Lemma step_order_app (a b : list op) :
  forall i, step_order i (a ++ b) = true ->
            step_order (fold_left (fun j _ => next_pos j) a i) b = true.
Proof.
  induction a as [|o r IH]; intros i H; [exact H|].
  destruct i as [|[|[|i]]]; destruct o; simpl in H; try discriminate;
    simpl; apply IH; exact H.
Qed.

(** The landscape of [Example] after two steps and the [expand] and
    [get_coarse_network] of the third, inactive nodes kept for one round. *)
Definition example_third_step : list op :=
Example.step (1 # 2) 1 ++ Example.step (1 # 2) 1 ++ [OpExpand false; OpCoarse].

(** X25: for every non-empty sequence of calls in step order
    ([expand], [get_coarse_network], [prune], and again) on a fresh
    landscape in which every [prune] has [delth >= 1], the occupancies of
    all nodes sum to 1 (in exact arithmetic) after the last call, and the
    [prune] that comes next in step order, again with [delth >= 1], deletes
    only nodes whose occupancy is 0.  The coarse-graining collaborator is
    assumed to return disjoint representatives and hidden nodes. *)
Theorem occupancy_conserved {X : Externals} (L0 L : landscape)
        (ops : list op) :
  coarse_graining_partitions ->
  nodes L0 = [] ->
  ops <> [] ->
  step_order 0 ops = true ->
  delays_eviction ops ->
  run ops L0 = Ok L ->
  total_occupancy (nodes L) == 1 /\
  forall pmin delth keep L' pn dn,
    step_order 0 (ops ++ [OpPrune pmin delth keep]) = true ->
    (1 <= delth)%Z ->
    prune L pmin delth keep = Ok (L', pn, dn) ->
    forall k, In k dn -> occupancy_of (nodes L) k == 0.
Proof.
  intros Hpart Hnil Hne Hord Hdel Hrun.
  destruct (@run_conserved X ops Hpart Fresh L0 L Hnil Hord Hdel Hrun)
    as (p' & Hc & Hn & Hp).
  assert (Hf : p' <> Fresh) by (apply Hn; now right).
  split.
  - destruct p'; [congruence | | |]; destruct Hc as (_ & Ht & _); exact Ht.
  - intros pmin delth keep L' pn dn Hord' Hd Hpr k Hk.
    apply step_order_app in Hord'. simpl phase_pos in Hp.
    rewrite <- Hp in Hord'.
    destruct p'; simpl in Hord'; try discriminate.
    destruct Hc as (Hnd & _ & Hdr).
    destruct (prune_conserves _ _ _ Hnd Hdr Hd Hpr) as (_ & _ & _ & Hz).
    exact (Hz k Hk).
Qed.

Lemma example_third_step_delays : delays_eviction example_third_step.
Proof. unfold delays_eviction. repeat constructor; simpl; lia. Qed.

Lemma occupancy_conserved_witness :
  exists L L' pn,
    run (X := Example.collaborators) example_third_step Example.fresh
      = Ok L /\
    total_occupancy (nodes L) == 1 /\
    prune L (1 # 2) 1 (Some [Example.open_chain])
      = Ok (L', pn, [Example.hairpin1]) /\
    Forall (fun k => occupancy_of (nodes L) k == 0) [Example.hairpin1].
Proof.
  destruct (run (X := Example.collaborators) example_third_step Example.fresh)
    as [L|f] eqn:Hrun; [|vm_compute in Hrun; discriminate].
  destruct (prune L (1 # 2) 1 (Some [Example.open_chain]))
    as [[[L' pn] dn]|f] eqn:Hpr.
  - assert (Hdn : dn = [Example.hairpin1]).
    { vm_compute in Hrun. injection Hrun as <-. vm_compute in Hpr.
      injection Hpr as _ _ <-. reflexivity. }
    subst dn.
    destruct (@occupancy_conserved Example.collaborators Example.fresh L
                example_third_step example_partitions eq_refl
                ltac:(discriminate) eq_refl example_third_step_delays Hrun)
      as [Ht Hd].
    exists L, L', pn. split; [reflexivity|]. split; [exact Ht|].
    split; [exact Hpr|]. apply Forall_forall.
    exact (Hd (1 # 2) 1%Z (Some [Example.open_chain]) L' pn
              [Example.hairpin1] eq_refl ltac:(lia) Hpr).
  - exfalso. vm_compute in Hrun. injection Hrun as <-. vm_compute in Hpr.
    discriminate.
Defined.

(** C1 fails on the code: with [delth = 0] a local minimum that [prune]
    deactivates, and for which the same call has just computed the
    transfer targets, is deleted by that call with its occupancy, before
    [get_coarse_network] has moved it.  After two steps in step order half
    of the occupancy is gone: one node is left and it holds 1/2; the
    second [prune] alone takes the sum from 1 to 1/2 by deleting a node
    that holds 1/2. *)
Lemma prune_deletes_occupied_node :
  step_order 0 (Example.step (1 # 2) 0 ++ Example.step (1 # 2) 0) = true /\
  (exists L,
     run (X := Example.collaborators)
         (Example.step (1 # 2) 0 ++ Example.step (1 # 2) 0) Example.fresh
       = Ok L /\
     map (fun kd => (fst kd, occupancy (snd kd))) (nodes L)
       = [(Example.hairpin2, 1 # 2)] /\
     total_occupancy (nodes L) == 1 # 2) /\
  (exists L' pn,
     prune Example.coarse (1 # 2) 0 (Some [])
       = Ok (L', pn, [Example.open_chain; Example.hairpin1]) /\
     occupancy_of (nodes Example.coarse) Example.hairpin1 == 1 # 2 /\
     total_occupancy (nodes Example.coarse) == 1 /\
     total_occupancy (nodes L') == 1 # 2).
Proof.
  split; [reflexivity|]. split.
  - eexists. split; [vm_compute; reflexivity|]. split; reflexivity.
  - eexists. eexists. split; [vm_compute; reflexivity|].
    split; [reflexivity|]. split; reflexivity.
Qed.

(** ** The recursion of [get_active_nbrs] is bounded *)

Definition overflows {A : Type} (r : result A) : bool :=
match r with
| Raise RecursionError => true
| _ => false
end.

(** The targets of coarse edges that are not yet in [forbidden]. *)
Definition unvisited (forbidden : list key) (targets : list key) : nat :=
List.length (filter (fun y => negb (mem y forbidden)) targets).

Lemma unvisited_mono (F F' : list key) (ys : list key) :
  incl F F' -> (unvisited F' ys <= unvisited F ys)%nat.
Proof.
  intros Hi. unfold unvisited. induction ys as [|y ys IH]; simpl; [lia|].
  destruct (mem y F') eqn:E'; destruct (mem y F) eqn:E; simpl; try lia.
  apply mem_In in E. apply Hi in E. apply mem_In in E. congruence.
Qed.

Lemma unvisited_lt (F F' : list key) (ys : list key) (r : key) :
  incl F F' -> In r ys -> mem r F = false -> mem r F' = true ->
  (unvisited F' ys < unvisited F ys)%nat.
Proof.
  intros Hi Hin HF HF'. unfold unvisited.
  induction ys as [|y ys IH]; simpl; [contradiction|].
  pose proof (unvisited_mono ys Hi) as Hm. unfold unvisited in Hm.
  destruct Hin as [->|Hin].
  - rewrite HF, HF'. simpl. lia.
  - specialize (IH Hin).
    destruct (mem y F') eqn:E'; destruct (mem y F) eqn:E; simpl; try lia.
    apply mem_In in E. apply Hi in E. apply mem_In in E. congruence.
Qed.

Lemma overflows_bind {A B : Type} (m : result A) (k : A -> result B) :
  overflows m = false ->
  (forall a, m = Ok a -> overflows (k a) = false) ->
  overflows (bind m k) = false.
Proof.
  intros Hm Hk. destruct m as [a|f]; simpl in *; [now apply Hk | exact Hm].
Qed.

Lemma foldM_overflows {A S : Type} (f : A -> S -> result S) (P : S -> Prop)
      (l : list A) :
  (forall x s, In x l -> P s ->
               overflows (f x s) = false /\
               forall s', f x s = Ok s' -> P s') ->
  forall s, P s -> overflows (foldM f l s) = false.
Proof.
  induction l as [|x l IH]; simpl; intros Hstep s Hs; [reflexivity|].
  destruct (Hstep x s (or_introl eq_refl) Hs) as [Ho Hn].
  apply overflows_bind; [exact Ho|]. intros s' Hs'.
  apply IH; [|now apply Hn]. intros y s0 Hy. apply Hstep. now right.
Qed.

Lemma scan_cg_edges_overflows (ns : nodes_t) (lm : key) (F : list key)
      (es : list (key * key)) :
  forall found ys rem,
    overflows (scan_cg_edges ns lm F es found ys rem) = false.
Proof.
  induction es as [|[x y] es IH]; intros found ys rem; simpl; [reflexivity|].
  destruct (negb (String.eqb x y)); simpl; [|reflexivity].
  destruct (String.eqb x lm && negb (mem y F)); [|apply IH].
  unfold node_at, getitem. destruct (lookup String.eqb y ns) as [d|]; simpl;
    [|reflexivity].
  destruct (active d); apply IH.
Qed.

Lemma scan_cg_edges_remaining (ns : nodes_t) (lm : key) (F : list key)
      (es : list (key * key)) :
  forall found ys rem found' ys' rem',
    scan_cg_edges ns lm F es found ys rem = Ok (found', ys', rem') ->
    forall r, In r rem' ->
              In r rem \/ (mem r F = false /\ In r (map snd es)).
Proof.
  induction es as [|[x y] es IH]; intros found ys rem found' ys' rem' H r Hr;
    simpl in H.
  - injection H as _ _ <-. now left.
  - destruct (negb (String.eqb x y)); simpl in H; [|discriminate].
    destruct (String.eqb x lm && negb (mem y F)) eqn:E.
    + apply andb_prop in E. destruct E as [_ E].
      apply negb_true_iff in E.
      unfold node_at, getitem in H.
      destruct (lookup String.eqb y ns) as [d|]; simpl in H; [|discriminate].
      destruct (active d).
      * destruct (IH _ _ _ _ _ _ H r Hr) as [Hin|[Hm Hin]];
          [now left | right; simpl; auto].
      * destruct (IH _ _ _ _ _ _ H r Hr) as [Hin|[Hm Hin]].
        -- apply in_app_iff in Hin. destruct Hin as [Hin|[<-|[]]];
             [now left | right; simpl; auto].
        -- right; simpl; auto.
    + destruct (IH _ _ _ _ _ _ H r Hr) as [Hin|[Hm Hin]];
        [now left | right; simpl; auto].
Qed.

(** [forbidden] only grows, and holds [lm] when the call returns. *)
Lemma get_active_nbrs_rec_forbidden (ce : list (key * key)) (ns : nodes_t) :
  forall depth lm F ys F',
    get_active_nbrs_rec depth ce ns lm F = Ok (ys, F') ->
    incl (set_add lm F) F'.
Proof.
  induction depth as [|depth IH]; intros lm F ys F' H; simpl in H;
    [discriminate|].
  apply bind_Ok in H. destruct H as [[[found yielded] remaining] [_ H]].
  destruct (negb found).
  - revert H.
    apply (foldM_invariant _ (fun yf => incl (set_add lm F) (snd yf)));
      [|apply incl_refl].
    intros r [ys0 F0] [ys1 F1] _ Hi Hs. simpl in *.
    apply bind_Ok in Hs. destruct Hs as [dr [_ Hs]].
    apply bind_Ok in Hs. destruct Hs as [[] [_ Hs]].
    apply bind_Ok in Hs. destruct Hs as [[ys2 F2] [Hrec Hs]].
    injection Hs as _ <-. apply IH in Hrec.
    intros x Hx. apply Hrec. apply In_set_add. right. now apply Hi.
  - injection H as _ <-. apply incl_refl.
Qed.

(** A call whose depth exceeds the number of unvisited targets does not run
    out of depth. *)
Lemma get_active_nbrs_rec_depth (ce : list (key * key)) (ns : nodes_t) :
  forall depth lm F,
    (unvisited (set_add lm F) (map snd ce) < depth)%nat ->
    overflows (get_active_nbrs_rec depth ce ns lm F) = false.
Proof.
  induction depth as [|depth IH]; intros lm F Hlt; [lia|]. simpl.
  apply overflows_bind; [apply scan_cg_edges_overflows|].
  intros [[found yielded] remaining] Hscan.
  destruct (negb found); [|reflexivity].
  apply (foldM_overflows _ (fun yf => incl (set_add lm F) (snd yf)));
    [|apply incl_refl].
  intros r [ys0 F0] Hr Hi. simpl in Hi.
  destruct (scan_cg_edges_remaining _ _ _ _ _ _ _ Hscan r Hr)
    as [[]|[Hm Hin]].
  assert (Hd : (unvisited (set_add r F0) (map snd ce) < depth)%nat).
  { assert (unvisited (set_add r F0) (map snd ce)
            < unvisited (set_add lm F) (map snd ce))%nat; [|lia].
    apply unvisited_lt with (r := r); auto.
    - intros x Hx. apply In_set_add. right. now apply Hi.
    - apply mem_In. apply In_set_add. now left. }
  split.
  - unfold node_at, getitem.
    destruct (lookup String.eqb r ns) as [dr|]; simpl; [|reflexivity].
    destruct (negb (active dr)); simpl; [|reflexivity].
    apply overflows_bind; [now apply IH|]. intros [ys2 F2] _. reflexivity.
  - intros [ys1 F1] Hs. simpl in *.
    apply bind_Ok in Hs. destruct Hs as [dr [_ Hs]].
    apply bind_Ok in Hs. destruct Hs as [[] [_ Hs]].
    apply bind_Ok in Hs. destruct Hs as [[ys2 F2] [Hrec Hs]].
    injection Hs as _ <-. apply get_active_nbrs_rec_forbidden in Hrec.
    intros x Hx. apply Hrec. apply In_set_add. right. now apply Hi.
Qed.

(** X1: the calls of [get_active_nbrs] are nested at most as deep as the
    number of coarse edges plus one, for every landscape and every start
    node: with that depth the search never ends in a [RecursionError]. *)
Theorem get_active_nbrs_depth (ce : cg_edges_t) (ns : nodes_t) (lm : key) :
  overflows (get_active_nbrs ce ns lm) = false.
Proof.
  unfold get_active_nbrs. apply overflows_bind.
  - apply get_active_nbrs_rec_depth. unfold unvisited.
    pose proof (filter_length_le
                  (fun y => negb (mem y (set_add lm [])))
                  (map snd (map fst ce))) as Hle.
    rewrite !length_map in Hle. lia.
  - intros [ys F] _. reflexivity.
Qed.

(* ------------------------------------------------------------------ *)
(** * Further properties of the class *)

Section DictStore.
Context {K V : Type}.
Variable eqb : K -> K -> bool.
Hypothesis eqb_spec : forall a b, reflect (a = b) (eqb a b).

Lemma lookup_setitem (k k' : K) (v : V) (m : list (K * V)) :
  lookup eqb k' (setitem eqb k v m)
  = if eqb k' k then Some v else lookup eqb k' m.
Proof.
  unfold setitem, has_key. destruct (lookup eqb k m) as [v0|] eqn:E.
  - rewrite (lookup_alter eqb eqb_spec), E. reflexivity.
  - rewrite lookup_app. simpl.
    destruct (eqb_spec k' k) as [->|Hne]; [now rewrite E|].
    now destruct (lookup eqb k' m).
Qed.

Lemma keys_setitem (k : K) (v : V) (m : list (K * V)) :
  map fst (setitem eqb k v m)
  = if has_key eqb k m then map fst m else map fst m ++ [k].
Proof.
  unfold setitem. destruct (has_key eqb k m).
  - apply keys_alter.
  - now rewrite map_app.
Qed.

End DictStore.

(** ** The thermal energy *)

(** X2: [RT] is linear in the temperature: for every temperature [T] (in
    degrees Celsius) it is 0.61632077549999997 / 310.15 * (273.15 + T), in
    real arithmetic; the value kept for 37 degrees is the same formula at
    [T = 37].  Above absolute zero [RT] is positive. *)
Theorem RT_linear (L : landscape) :
  RT L = (0.61632077549999997 / 310.15
          * (273.15 + Q2R (temperature (md L))))%R /\
  ((-273.15 < Q2R (temperature (md L)))%R -> (0 < RT L)%R).
Proof.
  assert (H : RT L = (0.61632077549999997 / 310.15
                      * (273.15 + Q2R (temperature (md L))))%R).
  { unfold RT. destruct (Qeq_bool (temperature (md L)) 37) eqn:E; simpl.
    - apply Qeq_bool_iff in E. apply Qreals.Qeq_eqR in E. rewrite E.
      unfold Q2R. simpl. field.
    - reflexivity. }
  split; [exact H|]. intros Hpos. rewrite H. Lra.lra.
Qed.

Lemma RT_linear_witness :
  RT Example.fresh = (0.61632077549999997 / 310.15 * (273.15 + Q2R 37))%R /\
  (0 < RT Example.fresh)%R.
Proof.
  destruct (RT_linear Example.fresh) as [H Hpos]. split; [exact H|].
  apply Hpos. simpl. unfold Q2R. simpl. Lra.lra.
Defined.

(** ** Simulation of a single node: missing times *)

(** X4: for a single node and a start vector that sums to 1, [simulate]
    with an empty list of times, or with an empty list given as [force],
    returns a generator whose first [next] raises an [IndexError] (from
    [times[-1]] or [force[-1]]); no sample is produced. *)
Theorem simulate_single_node_no_times {X : Externals} (L : landscape)
        (n : key) (p0 times : list Q) (force : option (list Q))
        (atol rtol : Q) :
  isclose (Qsum p0) 1 = true ->
  times = [] \/ force = Some [] ->
  exists g,
    simulate L [n] p0 times force atol rtol = Ok g /\
    next g = (Raise IndexError, mkGenerator Stop) /\
    drain (pending g) = ([], Some IndexError).
Proof.
  intros Hp Hcase. eexists. split; [reflexivity|].
  unfold next. cbn [pending]. unfold simulate_body. rewrite Hp.
  cbn [negb List.length Nat.eqb].
  destruct Hcase as [-> | ->].
  - destruct force as [[|f force]|]; simpl; auto.
  - simpl. auto.
Qed.

Lemma simulate_single_node_no_times_witness :
  exists g,
    simulate (X := Example.collaborators) Example.fresh [Example.open_chain]
             [1] [] None (1 # 10000) (1 # 10000) = Ok g /\
    next g = (Raise IndexError, mkGenerator Stop) /\
    drain (pending g) = ([], Some IndexError).
Proof.
  apply (@simulate_single_node_no_times Example.collaborators Example.fresh
           Example.open_chain [1] [] None (1 # 10000) (1 # 10000)).
  - reflexivity.
  - left. reflexivity.
Defined.

(** ** Adding nodes and edges *)

(** X5: [addnode] refuses a key that is already a node (AssertionError).
    For a new key it returns, the node is appended to the dictionary with
    the attributes given, every other node is left as it was, an identity
    that was not given is the prefix followed by the node counter (which
    is then increased by one), and an energy that was not given is computed
    from the structure, if there is one. *)
Theorem addnode_stores {X : Externals} (L : landscape) (k : key)
        (s : option string) (occ : Q) (id : option string) (en : option Z)
        (act : bool) (pr : Z) (lr hn ot : option (list key)) :
  if has_node L k
  then addnode L k s occ id en act pr lr hn ot = Raise AssertionError
  else exists L',
      addnode L k s occ id en act pr lr hn ot = Ok L' /\
      has_node L' k = true /\
      node_at k (nodes L')
      = Ok (mkNode s occ
              (match id with Some i => i | None => auto_identity L end)
              (match en, s with
               | Some e, _ => Some e
               | None, Some s' => Some (fc_eval_structure (sequence L) (md L) s')
               | None, None => None
               end)
              act pr lr hn ot) /\
      map fst (nodes L') = map fst (nodes L) ++ [k] /\
      (forall k', k' <> k ->
                  lookup String.eqb k' (nodes L')
                  = lookup String.eqb k' (nodes L)) /\
      nodeID L' = (match id with Some _ => nodeID L | None => S (nodeID L) end) /\
      edges L' = edges L /\ cg_edges L' = cg_edges L.
Proof.
  unfold addnode. destruct (has_node L k) eqn:Hk; [reflexivity|].
  cbn [negb assert bind]. unfold has_node in Hk.
  destruct id as [i|]; eexists; (split; [reflexivity|]);
    unfold has_node, node_at, getitem, has_key;
    cbn [nodes with_nodes with_nodeID edges cg_edges nodeID];
    rewrite !(lookup_setitem String.eqb String.eqb_spec), String.eqb_refl;
    (split; [reflexivity|]); (split; [reflexivity|]);
    rewrite (keys_setitem String.eqb), Hk; (split; [reflexivity|]);
    (split; [|auto]); intros k' Hne;
    rewrite (lookup_setitem String.eqb String.eqb_spec);
    destruct (String.eqb_spec k' k); congruence.
Qed.

(** X6: [addedge] needs both ends to be nodes (AssertionError otherwise).
    When it returns, the edge exists and [get_saddle] gives the saddle
    energy that was passed; the weight argument is stored only when the
    edge is new: for an edge that was there before, [get_rate] still gives
    the weight it had.  Every other edge is left as it was. *)
Theorem addedge_stores (L : landscape) (n1 n2 : key) (w : option R)
        (se : option Z) :
  if has_node L n1 && has_node L n2
  then exists L',
      addedge L n1 n2 w (Some se) = Ok L' /\
      has_edge L' n1 n2 = true /\
      get_saddle L' n1 n2 = Ok se /\
      get_rate L' n1 n2
      = Ok (match lookup pair_eqb (n1, n2) (edges L) with
            | Some e => weight e
            | None => w
            end) /\
      (forall xy, xy <> (n1, n2) ->
                  lookup pair_eqb xy (edges L')
                  = lookup pair_eqb xy (edges L)) /\
      nodes L' = nodes L
  else addedge L n1 n2 w (Some se) = Raise AssertionError.
Proof.
  unfold addedge. destruct (has_node L n1); cbn [andb assert bind];
    [|reflexivity].
  destruct (has_node L n2); cbn [assert bind]; [|reflexivity].
  set (es := alter pair_eqb (set_saddle_energy se) (n1, n2)
               (if negb (has_edge L n1 n2)
                then setitem pair_eqb (n1, n2) (mkEdge w None) (edges L)
                else edges L)).
  assert (Hl : lookup pair_eqb (n1, n2) es
               = Some (mkEdge (match lookup pair_eqb (n1, n2) (edges L) with
                               | Some e => weight e
                               | None => w
                               end) (Some se))).
  { unfold es. rewrite (lookup_alter_same pair_eqb). unfold has_edge, has_key.
    destruct (lookup pair_eqb (n1, n2) (edges L)) as [e|] eqn:E; cbn [negb].
    - rewrite E. reflexivity.
    - rewrite (lookup_setitem pair_eqb pair_eqb_spec).
      destruct (pair_eqb_spec (n1, n2) (n1, n2)); [reflexivity|congruence]. }
  assert (Ho : forall xy, xy <> (n1, n2) ->
                 lookup pair_eqb xy es = lookup pair_eqb xy (edges L)).
  { intros xy Hne. unfold es.
    rewrite (lookup_alter_other pair_eqb pair_eqb_spec); [|exact Hne].
    destruct (negb (has_edge L n1 n2)); [|reflexivity].
    rewrite (lookup_setitem pair_eqb pair_eqb_spec).
    destruct (pair_eqb_spec xy (n1, n2)); [congruence|reflexivity]. }
  clearbody es. eexists. split; [reflexivity|].
  unfold get_saddle, get_rate, has_edge, has_key, getitem.
  cbn [edges with_edges nodes]. rewrite Hl. cbn.
  repeat (split; [reflexivity|]). split; [exact Ho|reflexivity].
Qed.

(** ** Invariants of [expand] *)

(** The landscape once [expand] has advanced the transcript. *)
Definition lengthened (L : landscape) : landscape :=
let L1 := with_transcript_length (S (transcript_length L)) L in
if (String.length (sequence L) <? transcript_length L1)%nat
then with_transcript_length (String.length (sequence L)) L1
else L1.

(** [expand] is a sequence of [discover] steps followed by [addedge]
    steps: a property of the landscape and the two sets returned that holds
    at the start and is kept by both kinds of step holds at the end. *)
Lemma expand_steps {X : Externals}
      (P : landscape * list key * list key -> Prop) (L : landscape) :
  (nodes L = [] ->
   forall L' k,
     addnode (lengthened L) k (Some k) 1 None None true 0 None None None
     = Ok L' ->
     P (L', [k], [])) ->
  (nodes L <> [] -> P (lengthened L, [], [])) ->
  (forall c k en st st', P st -> discover c k en st = Ok st' -> P st') ->
  (forall M M' x y se nn on,
      P (M, nn, on) -> addedge M x y None (Some se) = Ok M' ->
      P (M', nn, on)) ->
  forall L' pr nn on t,
    expand L pr = Ok (L', nn, on, t) -> P (L', nn, on).
Proof.
  intros Hboot Hinit Hdisc Hedge L' pr nn on t.
  assert (Hfold : forall (A : Type) (f : A -> _ -> result _) l st st',
             (forall x s s', P s -> f x s = Ok s' -> P s') ->
             P st -> foldM f l st = Ok st' -> P st').
  { intros A f l st st' Hf Hst.
    apply (foldM_invariant f P); [|exact Hst]. intros x s s' _. apply Hf. }
  unfold expand. fold (lengthened L).
  assert (Hn : nodes (lengthened L) = nodes L).
  { unfold lengthened. cbv zeta. destruct (_ <? _)%nat; reflexivity. }
  set (L1 := lengthened L) in *. 
  destruct (nodes L) as [|kd0 ns0] eqn:En.
  - rewrite Hn. cbn [List.length Nat.eqb]. intros H.
    apply bind_Ok in H. destruct H as [L2 [H2 H]].
    injection H as <- <- <- _. now apply Hboot.
  - rewrite Hn. cbn [List.length Nat.eqb]. intros H.
    assert (H0 : P (L1, [], [])) by (apply Hinit; discriminate).
    apply bind_Ok in H. destruct H as [st1 [H1 H]].
    apply Hdisc in H1; [|exact H0].
    apply bind_Ok in H. destruct H as [st2 [H2 H]].
    apply Hfold in H2; [| |exact H1].
    2:{ intros fns s s' Hs Hf. eapply Hfold; [|exact Hs|exact Hf].
        intros fn s0 s0' Hs0. apply Hdisc. exact Hs0. }
    destruct st2 as [[L2 nn2] on2].
    destruct (get_guide_graph _ _ _) as [gnodes gedges].
    apply bind_Ok in H. destruct H as [u [_ H]].
    apply bind_Ok in H. destruct H as [st3 [H3 H]].
    apply Hfold in H3; [| |exact H2].
    2:{ intros g s s' Hs. apply Hdisc. exact Hs. }
    destruct st3 as [[L3 nn3] on3].
    apply bind_Ok in H. destruct H as [edata [_ H]].
    destruct (neighborhood_flooding _ _ _ _ _) as [ndata edata'].
    apply bind_Ok in H. destruct H as [st4 [H4 H]].
    apply Hfold in H4; [| |exact H3].
    2:{ intros ne s s' Hs Hf. apply bind_Ok in Hf.
        destruct Hf as [s1 [Hs1 Hf]]. apply Hdisc in Hs1; [|exact Hs].
        monad_inv Hf. exact Hs1. }
    destruct st4 as [[L4 nn4] on4].
    apply bind_Ok in H. destruct H as [L5 [H5 H]]. injection H as <- <- <- _.
    revert H5.
    apply (foldM_invariant _ (fun M => P (M, nn4, on4))); [|exact H4].
    intros e s s' _ Hs He. eapply Hedge; eauto.
Qed.

(** What a returning [addnode] did. *)
Lemma addnode_inv {X : Externals} (L L' : landscape) (k : key)
      (s : option string) (occ : Q) (id : option string) (en : option Z)
      (act : bool) (pr : Z) (lr hn ot : option (list key)) :
  addnode L k s occ id en act pr lr hn ot = Ok L' ->
  has_key String.eqb k (nodes L) = false /\
  L' = with_nodes
         (nodes L ++
          [(k, mkNode s occ
                 (match id with Some i => i | None => auto_identity L end)
                 (match en, s with
                  | Some e, _ => Some e
                  | None, Some s' =>
                      Some (fc_eval_structure (sequence L) (md L) s')
                  | None, None => None
                  end)
                 act pr lr hn ot)])
         (match id with
          | Some _ => L
          | None => with_nodeID (S (nodeID L)) L
          end).
Proof.
  unfold addnode. intros H. apply bind_Ok in H. destruct H as [u [Ha H]].
  apply assert_Ok in Ha. unfold has_node in Ha.
  assert (Hk : has_key String.eqb k (nodes L) = false)
    by (now destruct (has_key String.eqb k (nodes L))).
  split; [exact Hk|].
  destruct id as [i|]; injection H as <-; cbn [nodes with_nodes with_nodeID];
    unfold setitem; rewrite Hk; reflexivity.
Qed.

(** A property of the landscape that every elementary update of [expand]
    keeps is kept by [expand]. *)
Lemma expand_preserves {X : Externals} (P : landscape -> Prop) :
  (forall L n, P L -> P (with_transcript_length n L)) ->
  (forall L L' k occ en,
      P L -> addnode L k (Some k) occ None en true 0 None None None = Ok L' ->
      P L') ->
  (forall L k ns,
      P L -> update_node (set_active true) k (nodes L) = Ok ns ->
      P (with_nodes ns L)) ->
  (forall L L' x y se,
      P L -> addedge L x y None (Some se) = Ok L' -> P L') ->
  forall L L' pr nn on t,
    P L -> expand L pr = Ok (L', nn, on, t) -> P L'.
Proof.
  intros Htl Hadd Hact Hedge L L' pr nn on t HP H.
  assert (HL1 : P (lengthened L)).
  { unfold lengthened. cbv zeta. destruct (_ <? _)%nat; auto. }
  revert H. apply (expand_steps (fun st => P (fst (fst st)))); cbn [fst].
  - intros _ L2 k H2. eapply Hadd; eauto.
  - intros _. exact HL1.
  - intros c k en [[M n1] o1] st' HM H. unfold discover in H. cbn [fst] in HM.
    destruct (negb (has_node M k)).
    + apply bind_Ok in H. destruct H as [M1 [H1 H]].
      apply bind_Ok in H. destruct H as [u [_ H]]. injection H as <-.
      cbn [fst]. eapply Hadd; eauto.
    + apply bind_Ok in H. destruct H as [d [_ H]].
      destruct (negb (active d)).
      * apply bind_Ok in H. destruct H as [ns [H1 H]]. injection H as <-.
        cbn [fst]. eapply Hact; eauto.
      * injection H as <-. exact HM.
  - intros M M' x y se _ _ HM H. eapply Hedge; eauto.
Qed.

(** ** What the calls after [expand] leave alone *)

Definition same_parameters (L L' : landscape) : Prop :=
sequence L' = sequence L /\ md L' = md L /\ prefix L' = prefix L /\
nodeID L' = nodeID L /\ k0 L' = k0 L /\ minh L' = minh L /\
fpwm L' = fpwm L /\ mfree L' = mfree L /\
transcript_length L' = transcript_length L.

Definition is_expand (o : op) : bool :=
match o with
| OpExpand _ => true
| _ => false
end.

(** [get_coarse_network], [prune] and [set_occupancies] add no node and
    change neither the structure, the identity nor the energy of one. *)
Lemma exec_fixed {X : Externals} (o : op) (L L' : landscape) :
  NoDup (map fst (nodes L)) ->
  is_expand o = false ->
  exec o L = Ok L' ->
  NoDup (map fst (nodes L')) /\
  same_parameters L L' /\
  (forall k d', lookup String.eqb k (nodes L') = Some d' ->
     exists d, lookup String.eqb k (nodes L) = Some d /\ same_fixed d d').
Proof.
  intros Hnd Ho H. destruct o as [pr| |pmin delth keep|snodes pt];
    [discriminate| | |]; simpl in H.
  - apply bind_Ok in H. destruct H as [[[L1 n] m] [H1 H]].
    injection H as <-. pose proof (gcn_refines _ H1) as R.
    apply gcn_stages in H1.
    destruct H1 as (ns1 & edata & ce & ns2 & ns3 & _ & _ & _ & _ & _ & _ &
                    -> & _).
    cbn [nodes with_nodes] in R |- *.
    split; [rewrite (refines_keys R); exact Hnd|].
    split; [repeat split|].
    intros k d' Hk. eapply refines_lookup_inv in Hk; [|exact R].
    destruct Hk as (d & Hd & (Hs & _)). eauto.
  - apply bind_Ok in H. destruct H as [[[L1 pn] dn] [H1 H]].
    injection H as <-. pose proof (prune_stages _ _ _ _ H1) as Hst.
    destruct Hst as (ns1 & lms & ns2' & ns3 & es & _ & _ & _ & ->).
    apply prune_summary in H1; [|exact Hnd].
    destruct H1 as (ns2 & R & N & Lk & _).
    split; [exact N|]. split; [repeat split|].
    intros k d' Hk. rewrite Lk in Hk.
    destruct (evicted delth ns2 k); [discriminate|].
    destruct (lookup String.eqb k ns2) as [d2|] eqn:E2; [|discriminate].
    simpl in Hk. injection Hk as <-.
    eapply refines_lookup_inv in E2; [|exact R].
    destruct E2 as (d & Hd & (Hs & _)). exists d. split; [exact Hd|].
    unfold aged. destruct (active d2); exact Hs.
  - apply bind_Ok in H. destruct H as [ns1 [H1 H]]. injection H as <-.
    cbn [nodes with_nodes]. apply set_occupancies_refines in H1.
    split; [rewrite (refines_keys H1); exact Hnd|].
    split; [repeat split|].
    intros k d' Hk. eapply refines_lookup_inv in Hk; [|exact H1].
    destruct Hk as (d & Hd & ->). exists d. split; [exact Hd|].
    repeat split.
Qed.

Lemma NoDup_snoc (k : key) (l : list key) :
  ~ In k l -> NoDup l -> NoDup (l ++ [k]).
Proof.
  intros Hk Hnd. apply (Permutation_NoDup (Permutation_cons_append l k)).
  now constructor.
Qed.

(** ** Node identities *)

(** The decimal numeral of the node counter. *)
Definition numeral (n : nat) : string :=
NilEmpty.string_of_uint (Nat.to_uint n).

Lemma numeral_inj (n m : nat) : numeral n = numeral m -> n = m.
Proof.
  unfold numeral. intros H.
  apply (f_equal NilEmpty.uint_of_string) in H.
  rewrite !NilEmpty.usu in H. injection H as H.
  apply (f_equal Nat.of_uint) in H. now rewrite !Unsigned.of_to in H.
Qed.

Lemma append_inj (p a b : string) : (p ++ a = p ++ b)%string -> a = b.
Proof.
  induction p as [|c p IH]; simpl; intros H; [exact H|].
  injection H as H. auto.
Qed.

(** Every identity is the prefix [p] followed by a number below the node
    counter, and no two nodes share one. *)
Definition numbered (p : string) (L : landscape) : Prop :=
prefix L = p /\
NoDup (map fst (nodes L)) /\
(forall k d, lookup String.eqb k (nodes L) = Some d ->
   exists n, (n < nodeID L)%nat /\ identity d = (p ++ numeral n)%string) /\
(forall k k' d d',
    lookup String.eqb k (nodes L) = Some d ->
    lookup String.eqb k' (nodes L) = Some d' ->
    identity d = identity d' -> k = k').

Lemma numbered_frame (p : string) (L L' : landscape) :
  numbered p L ->
  NoDup (map fst (nodes L')) ->
  prefix L' = prefix L -> nodeID L' = nodeID L ->
  (forall k d', lookup String.eqb k (nodes L') = Some d' ->
     exists d, lookup String.eqb k (nodes L) = Some d /\
               identity d' = identity d) ->
  numbered p L'.
Proof.
  intros (Hp0 & Hnd & Hid & Hun) N Hp Hn Hl.
  split; [congruence|]. split; [exact N|]. split.
  - intros k d' Hk. destruct (Hl _ _ Hk) as (d & Hd & ->).
    rewrite Hn. eauto.
  - intros k k' d1 d2 H1 H2 He.
    destruct (Hl _ _ H1) as (e1 & He1 & E1).
    destruct (Hl _ _ H2) as (e2 & He2 & E2).
    apply (Hun k k' e1 e2 He1 He2). congruence.
Qed.

Lemma expand_numbered {X : Externals} (p : string) (L L' : landscape)
      (pr : bool) (nn on : list key) (t : option timing) :
  numbered p L -> expand L pr = Ok (L', nn, on, t) -> numbered p L'.
Proof.
  apply (expand_preserves (numbered p)).
  - intros M n H. exact H.
  - intros M M' k occ en (Hp & Hnd & Hid & Hun) H. apply addnode_inv in H.
    destruct H as [Hk ->]. unfold numbered.
    cbn [nodes with_nodes with_nodeID prefix nodeID].
    assert (Hfresh : forall k1 d1,
               lookup String.eqb k1 (nodes M) = Some d1 ->
               identity d1 <> auto_identity M).
    { intros k1 d1 H1 E. destruct (Hid _ _ H1) as (n & Hn & En).
      rewrite En in E. unfold auto_identity in E. rewrite Hp in E.
      apply append_inj in E. apply numeral_inj in E. lia. }
    split; [exact Hp|]. split; [|split].
    + rewrite map_app. simpl. apply nodes_has_key_false in Hk.
      now apply NoDup_snoc.
    + intros k1 d1 H1. rewrite (lookup_app String.eqb) in H1.
      destruct (lookup String.eqb k1 (nodes M)) as [d0|] eqn:E0.
      * injection H1 as <-. destruct (Hid _ _ E0) as (n & Hn & En).
        exists n. split; [lia | exact En].
      * simpl in H1. destruct (String.eqb k1 k); [|discriminate].
        injection H1 as <-. exists (nodeID M). split; [lia|].
        cbn [identity]. unfold auto_identity. now rewrite Hp.
    + intros k1 k2 d1 d2 H1 H2 He.
      rewrite (lookup_app String.eqb) in H1, H2.
      destruct (lookup String.eqb k1 (nodes M)) as [e1|] eqn:E1;
        destruct (lookup String.eqb k2 (nodes M)) as [e2|] eqn:E2.
      * injection H1 as <-. injection H2 as <-. eauto.
      * injection H1 as <-. simpl in H2.
        destruct (String.eqb k2 k); [|discriminate]. injection H2 as <-.
        simpl in He. exfalso. eapply Hfresh; eauto.
      * injection H2 as <-. simpl in H1.
        destruct (String.eqb k1 k); [|discriminate]. injection H1 as <-.
        simpl in He. exfalso. eapply Hfresh; eauto.
      * simpl in H1, H2.
        destruct (String.eqb_spec k1 k) as [->|]; [|discriminate].
        destruct (String.eqb_spec k2 k) as [->|]; [|discriminate].
        reflexivity.
  - intros M k ns HM H. apply update_node_Ok in H. destruct H as [d [_ ->]].
    eapply numbered_frame; [exact HM | | reflexivity | reflexivity |];
      cbn [nodes with_nodes].
    + rewrite keys_alter. apply HM.
    + intros k1 d' H1. rewrite nodes_lookup_alter in H1.
      destruct (String.eqb_spec k1 k) as [->|Hne]; [|eauto].
      destruct (lookup String.eqb k (nodes M)) as [d0|] eqn:E0;
        [|discriminate].
      injection H1 as <-. exists d0. split; reflexivity.
  - intros M M' x y se HM H. unfold addedge in H.
    apply bind_Ok in H. destruct H as [u1 [_ H]].
    apply bind_Ok in H. destruct H as [u2 [_ H]]. injection H as <-.
    eapply numbered_frame; [exact HM | | reflexivity | reflexivity |];
      cbn [nodes with_edges].
    + apply HM.
    + intros k1 d' H1. eauto.
Qed.

(** X7: on a landscape built from an empty one by [expand],
    [get_coarse_network], [prune] and [set_occupancies], every node has
    the identity [prefix] followed by the decimal numeral of a number below
    the node counter, and no two nodes have the same identity (also after
    nodes were deleted: a number is never given out twice). *)
Theorem identities_unique {X : Externals} (L0 L : landscape)
        (ops : list op) :
  nodes L0 = [] ->
  run ops L0 = Ok L ->
  (forall k d, In (k, d) (nodes L) ->
     exists n, (n < nodeID L)%nat /\
               identity d = (prefix L0 ++ numeral n)%string) /\
  (forall k k' d d',
      In (k, d) (nodes L) -> In (k', d') (nodes L) ->
      identity d = identity d' -> k = k').
Proof.
  intros H0 Hrun.
  assert (Hinv : numbered (prefix L0) L).
  { revert Hrun. unfold run.
    apply (foldM_invariant exec (numbered (prefix L0))).
    - intros o s s' _ Hs Ho. destruct (is_expand o) eqn:Eo.
      + destruct o; try discriminate. simpl in Ho.
        apply bind_Ok in Ho. destruct Ho as [[[[L1 nn] on] t] [H1 Ho]].
        injection Ho as <-. eapply expand_numbered; eauto.
      + destruct (@exec_fixed X o s s' (proj1 (proj2 Hs)) Eo Ho)
          as (N & (_ & _ & Hp & Hn & _) & Hl).
        eapply numbered_frame; [exact Hs | exact N | exact Hp | exact Hn |].
        intros k d' Hk. destruct (Hl _ _ Hk) as (d & Hd & (_ & Hi & _)).
        eauto.
    - split; [reflexivity|]. rewrite H0. split; [constructor|].
      split; [discriminate|]. discriminate. }
  destruct Hinv as (_ & Hnd & Hid & Hun). split.
  - intros k d Hin. apply (Hid k d). now apply nodes_In_lookup.
  - intros k k' d d' H1 H2. apply Hun; now apply nodes_In_lookup.
Qed.

Lemma identities_unique_witness :
  Forall (fun kd =>
            exists n, (n < nodeID Example.coarse)%nat /\
                      identity (snd kd) = ("n" ++ numeral n)%string)
         (nodes Example.coarse).
Proof.
  apply Forall_forall. intros [k d] Hin.
  exact (proj1 (@identities_unique Example.collaborators Example.fresh
                  Example.coarse
                  (Example.step (1 # 2) 1 ++ [OpExpand false; OpCoarse])
                  eq_refl eq_refl) k d Hin).
Defined.

(** ** Structures, energies and edges of a landscape built by the calls *)

Lemma alter_snoc_absent {K V : Type} (eqb : K -> K -> bool)
      (f : V -> V) (k : K) (v : V) (m : list (K * V)) :
  eqb k k = true -> lookup eqb k m = None ->
  alter eqb f k (m ++ [(k, v)]) = m ++ [(k, f v)].
Proof.
  intros Hr. induction m as [|[k1 v1] m IH]; simpl; intros H.
  - now rewrite Hr.
  - destruct (eqb k k1); [discriminate|]. now rewrite IH.
Qed.

(** What a returning [addedge] with a saddle energy did. *)
Lemma addedge_inv (L L' : landscape) (n1 n2 : key) (w : option R)
      (se : option Z) :
  addedge L n1 n2 w (Some se) = Ok L' ->
  has_node L n1 = true /\ has_node L n2 = true /\
  exists es,
    L' = with_edges es L /\
    forall xy e, In (xy, e) es ->
      In (xy, e) (edges L) \/
      (xy = (n1, n2) /\ saddle_energy e = Some se /\
       (weight e = w \/
        exists v, In ((n1, n2), v) (edges L) /\ weight e = weight v)).
Proof.
  unfold addedge. intros H.
  apply bind_Ok in H. destruct H as [u1 [H1 H]]. apply assert_Ok in H1.
  apply bind_Ok in H. destruct H as [u2 [H2 H]]. apply assert_Ok in H2.
  injection H as <-. split; [exact H1|]. split; [exact H2|].
  eexists. split; [reflexivity|].
  intros xy e Hin. unfold has_edge, has_key, setitem, has_key in Hin.
  destruct (lookup pair_eqb (n1, n2) (edges L)) as [v0|] eqn:E;
    cbn [negb] in Hin.
  - apply (In_alter _ pair_eqb_spec) in Hin.
    destruct Hin as [Hin|[-> [v [Hv ->]]]]; [now left|].
    right. split; [reflexivity|]. split; [reflexivity|]. right.
    exists v. split; [|reflexivity].
    now apply (lookup_In _ pair_eqb_spec).
  - rewrite alter_snoc_absent in Hin; [| |exact E].
    2:{ destruct (pair_eqb_spec (n1, n2) (n1, n2)); congruence. }
    apply in_app_iff in Hin. destruct Hin as [Hin|[Heq|[]]]; [now left|].
    injection Heq as <- <-. right. split; [reflexivity|].
    split; [reflexivity|]. now left.
Qed.

(** Nodes that carry their own key as structure and an energy; edges
    between nodes, with a saddle energy entry and no weight. *)
Definition well_formed (L : landscape) : Prop :=
NoDup (map fst (nodes L)) /\
(forall k d, lookup String.eqb k (nodes L) = Some d ->
             structure d = Some k /\ exists e, energy d = Some e) /\
(forall xy e, In (xy, e) (edges L) ->
              has_node L (fst xy) = true /\ has_node L (snd xy) = true /\
              weight e = None /\ exists se, saddle_energy e = Some se).

Lemma expand_well_formed {X : Externals} (L L' : landscape) (pr : bool)
      (nn on : list key) (t : option timing) :
  well_formed L -> expand L pr = Ok (L', nn, on, t) -> well_formed L'.
Proof.
  apply (expand_preserves well_formed).
  - intros M n H. exact H.
  - intros M M' k occ en (Hnd & Hn & He) H. apply addnode_inv in H.
    destruct H as [Hk ->]. unfold well_formed, has_node.
    cbn [nodes with_nodes with_nodeID edges].
    split; [|split].
    + rewrite map_app. simpl. apply nodes_has_key_false in Hk.
      now apply NoDup_snoc.
    + intros k1 d1 H1. rewrite (lookup_app String.eqb) in H1.
      destruct (lookup String.eqb k1 (nodes M)) as [d0|] eqn:E0.
      * injection H1 as <-. eauto.
      * simpl in H1. destruct (String.eqb_spec k1 k) as [->|]; [|discriminate].
        injection H1 as <-. cbn [structure energy]. split; [reflexivity|].
        destruct en; eauto.
    + intros xy e Hin. destruct (He _ _ Hin) as (A & B & C).
      unfold has_node in A, B. rewrite !nodes_has_key_true in *.
      rewrite map_app, !in_app_iff. tauto.
  - intros M k ns (Hnd & Hn & He) H. apply update_node_Ok in H.
    destruct H as [d [_ ->]]. unfold well_formed, has_node.
    cbn [nodes with_nodes edges]. split; [|split].
    + now rewrite keys_alter.
    + intros k1 d' H1. rewrite nodes_lookup_alter in H1.
      destruct (String.eqb_spec k1 k) as [->|Hne]; [|eauto].
      destruct (lookup String.eqb k (nodes M)) as [d0|] eqn:E0;
        [|discriminate].
      injection H1 as <-. exact (Hn _ _ E0).
    + intros xy e Hin. destruct (He _ _ Hin) as (A & B & C).
      unfold has_node in A, B. rewrite !nodes_has_key_true in *.
      rewrite keys_alter. tauto.
  - intros M M' x y se (Hnd & Hn & He) H. apply addedge_inv in H.
    destruct H as (Hx & Hy & es & -> & Hes). unfold well_formed, has_node.
    cbn [nodes with_edges edges]. split; [exact Hnd|]. split; [exact Hn|].
    intros xy e Hin. destruct (Hes _ _ Hin) as [Hold|(-> & Hs & Hw)].
    + exact (He _ _ Hold).
    + cbn [fst snd]. split; [exact Hx|]. split; [exact Hy|].
      split; [|eauto]. destruct Hw as [Hw|(v & Hv & Hw)]; [exact Hw|].
      rewrite Hw. apply (He _ _ Hv).
Qed.

Lemma exec_well_formed {X : Externals} (o : op) (L L' : landscape) :
  well_formed L -> exec o L = Ok L' -> well_formed L'.
Proof.
  intros Hwf H. destruct (is_expand o) eqn:Eo.
  { destruct o; try discriminate. simpl in H.
    apply bind_Ok in H. destruct H as [[[[L1 nn] on] t] [H1 H]].
    injection H as <-. eapply expand_well_formed; eauto. }
  destruct Hwf as (Hnd & Hn & He).
  destruct (@exec_fixed X o L L' Hnd Eo H) as (N & _ & Hl).
  split; [exact N|]. split.
  { intros k d' Hk. destruct (Hl _ _ Hk) as (d & Hd & (Es & _ & Ee)).
    rewrite Es, Ee. exact (Hn _ _ Hd). }
  destruct o as [pr| |pmin delth keep|snodes pt]; [discriminate| | |];
    simpl in H.
  - apply bind_Ok in H. destruct H as [[[L1 n] m] [H1 H]].
    injection H as <-. pose proof (gcn_refines _ H1) as R.
    apply gcn_stages in H1.
    destruct H1 as (ns1 & edata & ce & ns2 & ns3 & _ & _ & _ & _ & _ & _ &
                    -> & _).
    unfold has_node. cbn [nodes edges with_nodes with_cg_edges] in R |- *.
    intros xy e Hin. destruct (He _ _ Hin) as (A & B & C).
    unfold has_node in A, B. rewrite !nodes_has_key_true in *.
    rewrite (refines_keys R). tauto.
  - apply bind_Ok in H. destruct H as [[[L1 pn] dn] [H1 H]].
    injection H as <-. apply prune_summary in H1; [|exact Hnd].
    destruct H1 as (ns2 & R & _ & Lk & _ & E & _).
    intros xy e Hin. apply E in Hin. destruct Hin as [Hin Hev].
    destruct (He _ _ Hin) as (A & B & C).
    assert (Hkeep : forall x, has_node L x = true ->
                      touches x xy = true -> has_node L1 x = true).
    { intros x Hx Ht. unfold has_node in *.
      apply nodes_has_key_true in Hx. rewrite <- (refines_keys R) in Hx.
      unfold has_key. rewrite Lk.
      destruct (evicted delth ns2 x) eqn:Ev.
      - specialize (Hev x Ev). cbn [fst] in Hev. congruence.
      - destruct (lookup String.eqb x ns2) eqn:E2; [reflexivity|].
        apply nodes_lookup_None in E2. contradiction. }
    split; [|split; [|exact C]]; apply Hkeep; auto; unfold touches;
      rewrite String.eqb_refl; auto using orb_true_r.
  - apply bind_Ok in H. destruct H as [ns1 [H1 H]]. injection H as <-.
    unfold has_node. cbn [nodes edges with_nodes].
    apply set_occupancies_refines in H1.
    intros xy e Hin. destruct (He _ _ Hin) as (A & B & C).
    unfold has_node in A, B. rewrite !nodes_has_key_true in *.
    rewrite (refines_keys H1). tauto.
Qed.

Lemma run_well_formed {X : Externals} (ops : list op) (L0 L : landscape) :
  nodes L0 = [] -> edges L0 = [] -> run ops L0 = Ok L -> well_formed L.
Proof.
  intros Hn He. unfold run. apply (foldM_invariant exec well_formed).
  - intros o s s' _. apply exec_well_formed.
  - unfold well_formed. rewrite Hn, He.
    split; [constructor|]. split; [discriminate|]. intros xy e [].
Qed.

(** X8: on a landscape built from an empty one by [expand],
    [get_coarse_network], [prune] and [set_occupancies], every node has
    its own key as [structure] and an integer [energy] (never [None]). *)
Theorem nodes_carry_structure_and_energy {X : Externals}
        (L0 L : landscape) (ops : list op) :
  nodes L0 = [] -> edges L0 = [] ->
  run ops L0 = Ok L ->
  forall k d, In (k, d) (nodes L) ->
    structure d = Some k /\ exists e, energy d = Some e.
Proof.
  intros Hn He Hrun k d Hin.
  destruct (@run_well_formed X ops L0 L Hn He Hrun) as (Hnd & Hs & _).
  apply (Hs k d). now apply nodes_In_lookup.
Qed.

Lemma nodes_carry_structure_and_energy_witness :
  Forall (fun kd => structure (snd kd) = Some (fst kd) /\
                    exists e, energy (snd kd) = Some e)
         (nodes Example.coarse).
Proof.
  apply Forall_forall. intros [k d] Hin.
  exact (@nodes_carry_structure_and_energy Example.collaborators
           Example.fresh Example.coarse
           (Example.step (1 # 2) 1 ++ [OpExpand false; OpCoarse])
           eq_refl eq_refl eq_refl k d Hin).
Defined.

(** X9: on such a landscape every fine-grained edge joins two nodes that
    are still in the graph (also after [prune] deleted nodes), was stored
    with a saddle energy and without a weight.  So [get_saddle] never
    raises, and [get_rate] returns [None] for every edge that exists (and
    0 for a pair without edge). *)
Theorem edges_join_nodes {X : Externals} (L0 L : landscape)
        (ops : list op) :
  nodes L0 = [] -> edges L0 = [] ->
  run ops L0 = Ok L ->
  forall s1 s2,
    (has_edge L s1 s2 = true ->
     has_node L s1 = true /\ has_node L s2 = true /\
     get_rate L s1 s2 = Ok None) /\
    exists se, get_saddle L s1 s2 = Ok se.
Proof.
  intros Hn He Hrun s1 s2.
  destruct (@run_well_formed X ops L0 L Hn He Hrun) as (_ & _ & Hedges).
  unfold get_rate, get_saddle, getitem.
  destruct (has_edge L s1 s2) eqn:Eh.
  - unfold has_edge, has_key in Eh.
    destruct (lookup pair_eqb (s1, s2) (edges L)) as [e|] eqn:E;
      [|discriminate].
    apply (lookup_In _ pair_eqb_spec) in E.
    destruct (Hedges _ _ E) as (A & B & C & se & D). cbn [fst snd] in A, B.
    cbn [bind]. rewrite C, D. split; [auto|]. eauto.
  - split; [discriminate|]. eauto.
Qed.

Lemma edges_join_nodes_witness :
  get_rate Example.expanded Example.open_chain Example.hairpin1 = Ok None /\
  exists se,
    get_saddle Example.expanded Example.open_chain Example.hairpin1 = Ok se.
Proof.
  destruct (@edges_join_nodes Example.collaborators Example.fresh
              Example.expanded (Example.step (1 # 2) 1 ++ [OpExpand false])
              eq_refl eq_refl example_expanded
              Example.open_chain Example.hairpin1) as [H1 H2].
  split; [exact (proj2 (proj2 (H1 eq_refl))) | exact H2].
Defined.

(** ** The transcript *)

Lemma substring_length (n : nat) (s : string) :
  String.length (substring 0 n s) = Nat.min n (String.length s).
Proof.
  revert s. induction n as [|n IH]; intros s.
  - destruct s; reflexivity.
  - destruct s as [|c s]; [reflexivity|]. simpl. now rewrite IH.
Qed.

(** [get_coarse_network], [prune] and [set_occupancies] change none of the
    parameters of the landscape. *)
Lemma exec_parameters {X : Externals} (o : op) (L L' : landscape) :
  is_expand o = false -> exec o L = Ok L' -> same_parameters L L'.
Proof.
  intros Ho H. destruct o as [pr| |pmin delth keep|snodes pt];
    [discriminate| | |]; simpl in H.
  - apply bind_Ok in H. destruct H as [[[L1 n] m] [H1 H]].
    injection H as <-. apply gcn_stages in H1.
    destruct H1 as (ns1 & edata & ce & ns2 & ns3 & _ & _ & _ & _ & _ & _ &
                    -> & _).
    repeat split.
  - apply bind_Ok in H. destruct H as [[[L1 pn] dn] [H1 H]].
    injection H as <-. apply prune_stages in H1.
    destruct H1 as (ns1 & lms & ns2' & ns3 & es & _ & _ & _ & ->).
    repeat split.
  - apply bind_Ok in H. destruct H as [ns1 [H1 H]]. injection H as <-.
    repeat split.
Qed.

(** [expand] changes no parameter but the transcript length (and the node
    counter), and it leaves the coarse edges alone. *)
Lemma expand_parameters {X : Externals} (L L' : landscape) (pr : bool)
      (nn on : list key) (t : option timing) :
  expand L pr = Ok (L', nn, on, t) ->
  sequence L' = sequence L /\ md L' = md L /\ prefix L' = prefix L /\
  k0 L' = k0 L /\ minh L' = minh L /\ fpwm L' = fpwm L /\
  mfree L' = mfree L /\ cg_edges L' = cg_edges L /\
  transcript_length L'
  = Nat.min (S (transcript_length L)) (String.length (sequence L)).
Proof.
  set (Q := fun M : landscape =>
              sequence M = sequence L /\ md M = md L /\
              prefix M = prefix L /\ k0 M = k0 L /\ minh M = minh L /\
              fpwm M = fpwm L /\ mfree M = mfree L /\
              cg_edges M = cg_edges L /\
              transcript_length M
              = Nat.min (S (transcript_length L))
                        (String.length (sequence L))).
  assert (H1 : Q (lengthened L)).
  { unfold Q, lengthened. cbv zeta.
    cbn [transcript_length with_transcript_length].
    destruct (String.length (sequence L) <? S (transcript_length L))%nat
      eqn:E; [apply Nat.ltb_lt in E | apply Nat.ltb_ge in E];
      cbn [sequence md prefix k0 minh fpwm mfree cg_edges transcript_length
           with_transcript_length]; repeat split; lia. }
  assert (Hadd : forall M M' k occ en,
             Q M ->
             addnode M k (Some k) occ None en true 0 None None None = Ok M' ->
             Q M').
  { intros M M' k occ en HM H. apply addnode_inv in H.
    destruct H as [_ ->]. exact HM. }
  apply (expand_steps (fun st => Q (fst (fst st)))); cbn [fst].
  - intros _ L2 k H. eapply Hadd; eauto.
  - intros _. exact H1.
  - intros c k en [[M n1] o1] st' HM H. unfold discover in H. cbn [fst] in HM.
    destruct (negb (has_node M k)).
    + apply bind_Ok in H. destruct H as [M1 [Ha H]].
      apply bind_Ok in H. destruct H as [u [_ H]]. injection H as <-.
      cbn [fst]. eapply Hadd; eauto.
    + apply bind_Ok in H. destruct H as [d [_ H]].
      destruct (negb (active d)).
      * apply bind_Ok in H. destruct H as [ns [_ H]]. injection H as <-.
        exact HM.
      * injection H as <-. exact HM.
  - intros M M' x y se _ _ HM H. apply addedge_inv in H.
    destruct H as (_ & _ & es & -> & _). exact HM.
Qed.

Fixpoint expansions (ops : list op) : nat :=
match ops with
| [] => 0
| o :: r => (if is_expand o then 1 else 0) + expansions r
end.

(** X10: the transcript grows by one nucleotide with every [expand] until
    it is the whole sequence, and no other call changes it: after a run of
    calls on a landscape whose transcript length does not exceed the
    sequence, the transcript is the prefix of the sequence whose length is
    the old length plus the number of [expand] calls, or the whole
    sequence if that is shorter.  The sequence itself never changes. *)
Theorem transcript_grows {X : Externals} (L0 L : landscape)
        (ops : list op) :
  (transcript_length L0 <= String.length (sequence L0))%nat ->
  run ops L0 = Ok L ->
  sequence L = sequence L0 /\
  transcript_length L
  = Nat.min (transcript_length L0 + expansions ops)
            (String.length (sequence L0)) /\
  String.length (transcript L) = transcript_length L.
Proof.
  intros Hle Hrun.
  assert (H : sequence L = sequence L0 /\
              transcript_length L
              = Nat.min (transcript_length L0 + expansions ops)
                        (String.length (sequence L0))).
  { revert L0 Hle Hrun. induction ops as [|o ops IH]; intros L0 Hle Hrun.
    - simpl in Hrun. injection Hrun as <-. split; [reflexivity|].
      simpl. lia.
    - unfold run in Hrun. simpl in Hrun. apply bind_Ok in Hrun.
      destruct Hrun as [L1 [H1 Hrun]].
      assert (Hstep : sequence L1 = sequence L0 /\
                      transcript_length L1
                      = Nat.min (transcript_length L0
                                 + (if is_expand o then 1 else 0))
                                (String.length (sequence L0))).
      { destruct (is_expand o) eqn:Eo.
        - destruct o; try discriminate. simpl in H1.
          apply bind_Ok in H1. destruct H1 as [[[[M nn] on] t] [He H1]].
          injection H1 as <-. apply expand_parameters in He.
          destruct He as (Hs & _ & _ & _ & _ & _ & _ & _ & Ht).
          split; [exact Hs|]. rewrite Ht. f_equal. lia.
        - apply exec_parameters in H1; [|exact Eo].
          destruct H1 as (Hs & _ & _ & _ & _ & _ & _ & _ & Ht).
          split; [exact Hs|]. rewrite Ht. lia. }
      destruct Hstep as [Hs Ht].
      destruct (IH L1) as [Hs' Ht']; [rewrite Hs; lia | exact Hrun |].
      split; [congruence|]. rewrite Ht', Hs, Ht. simpl expansions. lia. }
  destruct H as [Hs Ht]. split; [exact Hs|]. split; [exact Ht|].
  unfold transcript. rewrite substring_length, Hs, Ht. lia.
Qed.

Lemma transcript_grows_witness :
  sequence Example.coarse = sequence Example.fresh /\
  transcript_length Example.coarse = 8%nat /\
  String.length (transcript Example.coarse) = 8%nat.
Proof.
  exact (@transcript_grows Example.collaborators Example.fresh Example.coarse
           (Example.step (1 # 2) 1 ++ [OpExpand false; OpCoarse])
           ltac:(simpl; lia) eq_refl).
Defined.

(** ** What [expand] reports *)

Lemma NoDup_set_add (k : key) (s : list key) :
  NoDup s -> NoDup (set_add k s).
Proof.
  intros H. unfold set_add. destruct (mem k s) eqn:E; [exact H|].
  apply NoDup_snoc; [|exact H]. now apply mem_false.
Qed.

(** The state of [expand] between two steps: no node was removed or
    deactivated, the nodes that were added are active, [nn] holds the keys
    that are new, [on] the keys of the nodes that were inactive and are
    active now. *)
Definition reported (L : landscape) (st : landscape * list key * list key)
  : Prop :=
let '(M, nn, on) := st in
(forall k d, lookup String.eqb k (nodes L) = Some d ->
   lookup String.eqb k (nodes M) = Some d \/
   (active d = false /\
    lookup String.eqb k (nodes M) = Some (set_active true d))) /\
(forall k d', lookup String.eqb k (nodes M) = Some d' ->
              has_node L k = false -> active d' = true) /\
NoDup nn /\ NoDup on /\
(forall k, In k nn <-> has_node L k = false /\ has_node M k = true) /\
(forall k, In k on <->
           exists d d', lookup String.eqb k (nodes L) = Some d /\
                        active d = false /\
                        lookup String.eqb k (nodes M) = Some d' /\
                        active d' = true).

Lemma has_node_lookup (L : landscape) (k : key) :
  has_node L k = true <-> exists d, lookup String.eqb k (nodes L) = Some d.
Proof.
  unfold has_node, has_key. destruct (lookup String.eqb k (nodes L)).
  - split; eauto.
  - split; [discriminate | intros [d Hd]; discriminate].
Qed.

Lemma has_node_false (L : landscape) (k : key) :
  has_node L k = false <-> lookup String.eqb k (nodes L) = None.
Proof.
  unfold has_node, has_key. destruct (lookup String.eqb k (nodes L));
    split; congruence.
Qed.

Lemma discover_reported {X : Externals} (L : landscape) (c : bool)
      (k : key) (en : option Z) (st st' : landscape * list key * list key) :
  reported L st -> discover c k en st = Ok st' -> reported L st'.
Proof.
  destruct st as [[M nn] on]. intros (Hb & Hc & Hnn & Hon & Inn & Ion) H.
  unfold discover in H. destruct (has_node M k) eqn:Hk; cbn [negb] in H.
  - apply bind_Ok in H. destruct H as [d [Hd H]]. apply node_at_Ok in Hd.
    destruct (active d) eqn:Ea; cbn [negb] in H.
    + injection H as <-. unfold reported. auto 10.
    + apply bind_Ok in H. destruct H as [ns [H1 H]]. injection H as <-.
      apply update_node_Ok in H1. destruct H1 as [d1 [Hd1 ->]].
      assert (d1 = d) by congruence. subst d1.
      assert (Hold : lookup String.eqb k (nodes L) = Some d).
      { destruct (lookup String.eqb k (nodes L)) as [d0|] eqn:E0.
        - destruct (Hb _ _ E0) as [E|[_ E]]; [congruence|].
          rewrite E in Hd. injection Hd as <-. simpl in Ea. discriminate.
        - apply has_node_false in E0. rewrite (Hc _ _ Hd E0) in Ea.
          discriminate. }
      unfold reported. cbn [nodes with_nodes].
      split; [|split; [|split; [exact Hnn|split;
                                 [now apply NoDup_set_add|split]]]].
      * intros k1 d1 H1. rewrite nodes_lookup_alter.
        destruct (String.eqb_spec k1 k) as [->|Hne]; [|auto].
        rewrite Hd. cbn [option_map]. right.
        assert (d1 = d) by congruence. subst d1. auto.
      * intros k1 d' H1 HL. rewrite nodes_lookup_alter in H1.
        destruct (String.eqb_spec k1 k) as [->|Hne]; [|eauto].
        apply has_node_false in HL. congruence.
      * intros k1. rewrite Inn. unfold has_node.
        cbn [nodes with_nodes]. rewrite !nodes_has_key_true, keys_alter.
        tauto.
      * intros k1. rewrite In_set_add, Ion. rewrite nodes_lookup_alter.
        destruct (String.eqb_spec k1 k) as [->|Hne].
        -- rewrite Hd. cbn [option_map]. split.
           ++ intros _. exists d, (set_active true d). auto.
           ++ auto.
        -- split.
           ++ intros [E|Hex]; [contradiction | exact Hex].
           ++ auto.
  - apply bind_Ok in H. destruct H as [M1 [H1 H]].
    apply bind_Ok in H. destruct H as [u [_ H]]. injection H as <-.
    apply addnode_inv in H1. destruct H1 as [_ ->].
    apply has_node_false in Hk.
    assert (HkL : has_node L k = false).
    { apply has_node_false.
      destruct (lookup String.eqb k (nodes L)) as [d0|] eqn:E0;
        [|reflexivity].
      destruct (Hb _ _ E0) as [E|[_ E]]; congruence. }
    unfold reported. cbn [nodes with_nodes with_nodeID].
    split; [|split; [|split; [now apply NoDup_set_add|split;
                               [exact Hon|split]]]].
    + intros k1 d1 H1. rewrite (lookup_app String.eqb).
      destruct (Hb _ _ H1) as [E|[A E]]; rewrite E; auto.
    + intros k1 d' H1 HL. rewrite (lookup_app String.eqb) in H1.
      destruct (lookup String.eqb k1 (nodes M)) as [dm|] eqn:Em.
      * injection H1 as <-. eauto.
      * simpl in H1. destruct (String.eqb k1 k); [|discriminate].
        injection H1 as <-. reflexivity.
    + intros k1. rewrite In_set_add, Inn.
      rewrite !has_node_lookup. cbn [nodes with_nodes with_nodeID].
      rewrite (lookup_app String.eqb).
      destruct (String.eqb_spec k1 k) as [->|Hne].
      * rewrite Hk. simpl. rewrite String.eqb_refl.
        split; [intros _; split; [exact HkL | eauto] | auto].
      * destruct (lookup String.eqb k1 (nodes M)) as [dm|] eqn:Em.
        -- split; [intros [E|[A B]]; [contradiction | eauto] |].
           intros [A _]. right. eauto.
        -- simpl. destruct (String.eqb_spec k1 k) as [->|_]; [congruence|].
           split.
           ++ intros [E|[A [dd B]]]; [contradiction | discriminate].
           ++ intros [_ [dd B]]. discriminate.
    + intros k1. rewrite Ion. rewrite (lookup_app String.eqb).
      split.
      * intros (d & d' & A & B & C & D). exists d, d'. rewrite C. auto.
      * intros (d & d' & A & B & C & D).
        destruct (lookup String.eqb k1 (nodes M)) as [dm|] eqn:Em.
        -- exists d, d'. auto.
        -- exfalso. destruct (Hb _ _ A) as [E|[_ E]]; congruence.
Qed.

(** X11: [expand] removes no node and deactivates none: a node that was
    there is unchanged or, if it was inactive, active again.  The two sets
    it returns are exact: [nn] holds the keys that were not nodes before
    the call and are nodes after it, [on] the keys of the nodes that were
    inactive before the call and are active after it; neither lists a key
    twice, and every node that was added is active. *)
Theorem expand_reports {X : Externals} (L L' : landscape) (pr : bool)
        (nn on : list key) (t : option timing) :
  expand L pr = Ok (L', nn, on, t) ->
  (forall k d, lookup String.eqb k (nodes L) = Some d ->
     lookup String.eqb k (nodes L') = Some d \/
     (active d = false /\
      lookup String.eqb k (nodes L') = Some (set_active true d))) /\
  (forall k d', lookup String.eqb k (nodes L') = Some d' ->
                has_node L k = false -> active d' = true) /\
  NoDup nn /\ NoDup on /\
  (forall k, In k nn <-> has_node L k = false /\ has_node L' k = true) /\
  (forall k, In k on <->
             exists d d', lookup String.eqb k (nodes L) = Some d /\
                          active d = false /\
                          lookup String.eqb k (nodes L') = Some d' /\
                          active d' = true).
Proof.
  intros H.
  assert (Hl : nodes (lengthened L) = nodes L).
  { unfold lengthened. cbv zeta. destruct (_ <? _)%nat; reflexivity. }
  assert (Hrep : reported L (L', nn, on)); [|exact Hrep].
  revert H. apply (expand_steps (reported L)).
  - intros Hnil L2 k H. apply addnode_inv in H. destruct H as [_ ->].
    unfold reported. cbn [nodes with_nodes with_nodeID].
    rewrite Hl, Hnil. cbn [app].
    split; [intros k1 d1 H1; discriminate|].
    split.
    { intros k1 d' H1 _. simpl in H1.
      destruct (String.eqb k1 k); [|discriminate]. injection H1 as <-.
      reflexivity. }
    split; [repeat constructor; simpl; tauto|]. split; [constructor|].
    split.
    + intros k1. rewrite has_node_lookup, has_node_false. rewrite Hnil.
      cbn [nodes with_nodes with_nodeID lookup In].
      destruct (String.eqb_spec k1 k) as [->|Hne].
      * split; [eauto | auto].
      * split; [intros [E|[]]; congruence | intros [_ [dd B]]; discriminate].
    + intros k1. split; [intros [] |].
      intros (d & d' & A & _). discriminate.
  - intros Hne. unfold reported. rewrite Hl.
    split; [auto|]. split.
    { intros k d' H1 HL. apply has_node_false in HL. congruence. }
    split; [constructor|]. split; [constructor|]. split.
    + intros k. unfold has_node. rewrite Hl.
      split; [intros [] | intros [A B]; congruence].
    + intros k. split; [intros [] |].
      intros (d & d' & A & B & C & D). congruence.
  - intros c k en st st'. apply discover_reported.
  - intros M M' x y se nn0 on0 HM H. apply addedge_inv in H.
    destruct H as (_ & _ & es & -> & _). exact HM.
Qed.

Lemma expand_reports_witness :
  NoDup [Example.hairpin1; Example.hairpin2] /\
  has_node Example.expanded Example.hairpin1 = true.
Proof.
  destruct (run (X := Example.collaborators) (Example.step (1 # 2) 1)
                Example.fresh) as [L1|f] eqn:Hrun;
    [|vm_compute in Hrun; discriminate].
  destruct (expand (X := Example.collaborators) L1 false)
    as [[[[L2 nn] on] t]|f] eqn:Hex.
  - assert (E : L2 = Example.expanded /\
                nn = [Example.hairpin1; Example.hairpin2]).
    { vm_compute in Hrun. injection Hrun as <-. vm_compute in Hex.
      injection Hex as <- <- _ _. split; reflexivity. }
    destruct E as [-> ->].
    destruct (@expand_reports Example.collaborators L1 Example.expanded
                false _ on t Hex) as (_ & _ & Hnn & _ & Inn & _).
    split; [exact Hnn|].
    exact (proj2 (proj1 (Inn Example.hairpin1) (or_introl eq_refl))).
  - exfalso. vm_compute in Hrun. injection Hrun as <-. vm_compute in Hex.
    discriminate.
Defined.

(** ** The order in which [prune] visits the local minima *)

(** [lm in keep], for a [keep] that is a container. *)
Definition kept (keep : option (list key)) (k : key) : bool :=
match keep with
| Some kp => mem k kp
| None => false
end.

(** The occupancies of the nodes [ks] in [ns], added up. *)
Definition occupancy_sum (ns : nodes_t) (ks : list key) : Q :=
fold_right (fun k q => occupancy_of ns k + q) 0 ks.

Definition still_active (L : landscape) (k : key) : bool :=
match lookup String.eqb k (nodes L) with
| Some d => active d
| None => false
end.

(** The nodes that are active in [L] and inactive or gone in [L']. *)
Definition deactivated (L L' : landscape) : list key :=
filter (fun k => negb (still_active L' k)) (active_nodes L).

Lemma insert_by_perm (f : key -> Q) (x : key) (l : list key) :
  Permutation (insert_by f x l) (x :: l).
Proof.
  induction l as [|y l IH]; simpl; [reflexivity|].
  destruct (Qle_bool (f x) (f y)); [reflexivity|].
  rewrite IH. apply perm_swap.
Qed.

Lemma sorted_by_perm (f : key -> Q) (l : list key) :
  Permutation (sorted_by f l) l.
Proof.
  induction l as [|x l IH]; simpl; [reflexivity|].
  rewrite insert_by_perm. now constructor.
Qed.

Lemma insert_by_sorted (f : key -> Q) (x : key) (l : list key) :
  StronglySorted (fun a b => f a <= f b) l ->
  StronglySorted (fun a b => f a <= f b) (insert_by f x l).
Proof.
  induction l as [|y l IH]; simpl; intros H.
  - repeat constructor.
  - inversion H as [|? ? Hs Hall]; subst.
    destruct (Qle_bool (f x) (f y)) eqn:E.
    + apply Qle_bool_iff in E. constructor; [exact H|].
      constructor; [exact E|]. rewrite Forall_forall in *.
      intros z Hz. specialize (Hall z Hz). simpl in Hall. lra.
    + assert (Hyx : f y <= f x).
      { destruct (Qlt_le_dec (f y) (f x)) as [Hlt|Hle]; [lra|].
        apply Qle_bool_iff in Hle. congruence. }
      constructor; [auto|]. rewrite Forall_forall in *.
      intros z Hz. apply In_insert_by in Hz. destruct Hz as [->|Hz]; auto.
Qed.

Lemma sorted_by_sorted (f : key -> Q) (l : list key) :
  StronglySorted (fun a b => f a <= f b) (sorted_by f l).
Proof.
  induction l as [|x l IH]; simpl; [constructor|].
  now apply insert_by_sorted.
Qed.

Lemma sorted_app_le (f : key -> Q) (a b : list key) :
  StronglySorted (fun x y => f x <= f y) (a ++ b) ->
  forall x y, In x a -> In y b -> f x <= f y.
Proof.
  induction a as [|z a IH]; simpl; intros H x y Hx Hy; [contradiction|].
  inversion H as [|? ? Hs Hall]; subst. destruct Hx as [->|Hx].
  - rewrite Forall_forall in Hall. apply Hall. apply in_app_iff. now right.
  - eapply IH; eauto.
Qed.

Lemma occupancy_sum_app (ns : nodes_t) (a b : list key) :
  occupancy_sum ns (a ++ b) == occupancy_sum ns a + occupancy_sum ns b.
Proof.
  induction a as [|x a IH]; simpl; [lra|]. rewrite IH. lra.
Qed.

Lemma occupancy_sum_perm (ns : nodes_t) (a b : list key) :
  Permutation a b -> occupancy_sum ns a == occupancy_sum ns b.
Proof.
  induction 1; simpl; lra.
Qed.

Lemma occupancy_sum_zero (ns : nodes_t) (a : list key) :
  (forall k, In k a -> occupancy_of ns k == 0) -> occupancy_sum ns a == 0.
Proof.
  induction a as [|x a IH]; simpl; intros H; [reflexivity|].
  rewrite (H x (or_introl eq_refl)), IH; [lra|]. auto.
Qed.

Lemma occupancy_sum_split (ns : nodes_t) (p : key -> bool) (a : list key) :
  occupancy_sum ns a
  == occupancy_sum ns (filter p a)
     + occupancy_sum ns (filter (fun k => negb (p k)) a).
Proof.
  induction a as [|x a IH]; simpl; [lra|].
  destruct (p x); simpl; rewrite IH; lra.
Qed.

Lemma occupancy_of_refines (ns ns' : nodes_t) (k : key) :
  refines prune_rel ns ns' -> occupancy_of ns' k = occupancy_of ns k.
Proof.
  intros R. unfold occupancy_of.
  destruct (lookup String.eqb k ns') as [d'|] eqn:E'.
  - eapply refines_lookup_inv in E'; [|exact R].
    destruct E' as (d & Hd & (_ & Ho & _)). now rewrite Hd.
  - destruct (lookup String.eqb k ns) as [d|] eqn:E; [|reflexivity].
    eapply refines_lookup in E; [|exact R]. destruct E as (d' & Hd' & _).
    congruence.
Qed.

Lemma occupancy_sum_refines (ns ns' : nodes_t) (ks : list key) :
  refines prune_rel ns ns' -> occupancy_sum ns' ks = occupancy_sum ns ks.
Proof.
  intros R. induction ks as [|x ks IH]; simpl; [reflexivity|].
  now rewrite IH, (occupancy_of_refines x R).
Qed.

(** The first loop of [prune] deactivates the local minima of a prefix
    [pre] of the sorted list that are not in [keep]; their occupancies,
    added to [tot], do not exceed [pmin]; the loop stops at the first
    local minimum outside [keep] that would exceed it. *)
Lemma deactivate_lms_prefix (keep : option (list key)) (pmin : Q)
      (lms : list key) :
  forall tot ns acc ns' acc',
    deactivate_lms keep pmin lms tot ns acc = Ok (ns', acc') ->
    exists pre post,
      let new := filter (fun k => negb (kept keep k)) pre in
      lms = pre ++ post /\ acc' = acc ++ new /\
      (new = [] \/ tot + occupancy_sum ns new <= pmin) /\
      (forall k, In k new ->
         exists d', lookup String.eqb k ns' = Some d' /\ active d' = false) /\
      (forall k, In k post -> kept keep k = false ->
         exists k0, In k0 post /\
                    pmin < tot + occupancy_sum ns new + occupancy_of ns k0).
Proof.
  induction lms as [|lm rest IH]; intros tot ns acc ns' acc' H.
  - simpl in H. injection H as <- <-. exists [], []. cbv zeta. simpl.
    rewrite app_nil_r. repeat split; auto; intros k [].
  - pose proof H as Hspec. simpl in H.
    apply bind_Ok in H. destruct H as [kp [Hkp H]].
    apply iter_Ok in Hkp. subst keep. cbn [kept] in *.
    destruct (mem lm kp) eqn:Em.
    { destruct (IH _ _ _ _ _ H) as (pre & post & E & A & B & C & D).
      exists (lm :: pre), post. cbv zeta in *. cbn [filter app].
      rewrite Em. cbn [negb]. rewrite E. repeat split; auto. }
    apply bind_Ok in H. destruct H as [ns1 [H1 H]].
    apply update_node_Ok in H1. destruct H1 as [d0 [Hd0 ->]].
    apply bind_Ok in H. destruct H as [d [Hd H]]. apply node_at_Ok in Hd.
    rewrite nodes_lookup_alter, String.eqb_refl, Hd0 in Hd.
    simpl in Hd. injection Hd as <-. cbn [occupancy set_pruned] in H.
    assert (Hocc : occupancy_of ns lm = occupancy d0)
      by (unfold occupancy_of; now rewrite Hd0).
    destruct (Qle_bool (tot + occupancy d0) pmin) eqn:Ele; cbn [negb] in H.
    + apply bind_Ok in H. destruct H as [hidden [_ H]].
      apply bind_Ok in H. destruct H as [ns2 [H2 H]].
      apply bind_Ok in H. destruct H as [ns3 [H3 H]].
      apply hide_origin in H2. destruct H2 as [R2 _].
      apply update_node_Ok in H3. destruct H3 as [d3 [Hd3 ->]].
      assert (R3 : refines prune_rel ns
                     (alter String.eqb (set_active false) lm ns2)).
      { eapply prune_refines_trans;
          [|eapply prune_refines_trans; [exact R2|]].
        - apply refines_alter; [exact prune_rel_refl|].
          intros x _. unfold prune_rel, same_fixed. simpl. auto 10.
        - apply refines_alter; [exact prune_rel_refl|].
          intros x _. unfold prune_rel, same_fixed. simpl. auto 10. }
      pose proof (deactivate_lms_spec _ _ _ _ _ _ H) as (Rrest & _).
      destruct (IH _ _ _ _ _ H) as (pre & post & E & A & B & C & D).
      exists (lm :: pre), post. cbv zeta in *. cbn [filter app].
      rewrite Em. cbn [negb].
      set (new := filter (fun k => negb (mem k kp)) pre) in *.
      rewrite (occupancy_sum_refines new R3) in B, D.
      assert (Ele' : tot + occupancy d0 <= pmin) by (now apply Qle_bool_iff).
      split; [now rewrite E|]. split; [now rewrite A, <- app_assoc|].
      split; [|split].
      * right. cbn [occupancy_sum fold_right]. fold (occupancy_sum ns new).
        rewrite Hocc. destruct B as [-> | B]; [simpl; lra | lra].
      * intros k [<-|Hk]; [|now apply C].
        assert (Hl3 : lookup String.eqb lm
                        (alter String.eqb (set_active false) lm ns2)
                      = Some (set_active false d3))
          by (now rewrite nodes_lookup_alter, String.eqb_refl, Hd3).
        eapply refines_lookup in Hl3; [|exact Rrest].
        destruct Hl3 as (d' & Hd' & (_ & _ & _ & _ & Ha & _)).
        exists d'. split; [exact Hd'|]. now apply Ha.
      * intros k Hk Hkk. destruct (D k Hk Hkk) as (k1 & Hk1 & Hlt).
        exists k1. split; [exact Hk1|].
        rewrite (occupancy_of_refines k1 R3) in Hlt.
        cbn [occupancy_sum fold_right]. fold (occupancy_sum ns new).
        rewrite Hocc. lra.
    + injection H as <- <-. exists [], (lm :: rest). cbv zeta. simpl.
      rewrite app_nil_r. split; [reflexivity|]. split; [reflexivity|].
      split; [now left|]. split; [intros k []|].
      intros k _ _. exists lm. split; [now left|]. rewrite Hocc.
      destruct (Qlt_le_dec pmin (tot + 0 + occupancy d0)) as [Hlt|Hle];
        [exact Hlt|].
      assert (Hle' : tot + occupancy d0 <= pmin) by lra.
      apply Qle_bool_iff in Hle'. congruence.
Qed.

Lemma NoDup_keys_where (p : node -> bool) (ns : nodes_t) :
  NoDup (map fst ns) -> NoDup (keys_where p ns).
Proof.
  unfold keys_where. induction ns as [|[k d] ns IH]; simpl; intros H;
    [constructor|].
  inversion H as [|? ? Hk Hnd]; subst. destruct (p d); simpl; [|auto].
  constructor; [|auto]. intros Hin. apply Hk.
  apply in_map_iff in Hin. destruct Hin as [[k' d'] [E Hin]].
  simpl in E. subst k'. apply filter_In in Hin. destruct Hin as [Hin _].
  change k with (fst (k, d')). now apply in_map.
Qed.

(** ** What [prune] reports and what it leaves alone *)

(** The set [pn] after one round of the last loop of [prune]. *)
Definition newly_pruned (k : key) (d : node) (pn : list key) : list key :=
if active d then pn
else if (pruned d + 1 =? 1)%Z then set_add k pn else pn.

Lemma age_node_full (delth : Z) (k : key) (ns : nodes_t) (es : edges_t)
      (pn dn : list key) (st' : nodes_t * edges_t * list key * list key) :
  age_node delth k (ns, es, pn, dn) = Ok st' ->
  exists d, lookup String.eqb k ns = Some d /\
    st' = if (delth <? pruned (aged d))%Z
          then (remove_key String.eqb k (alter String.eqb aged k ns),
                filter (fun e => negb (touches k (fst e))) es,
                newly_pruned k d pn, set_add k dn)
          else (alter String.eqb aged k ns, es, newly_pruned k d pn, dn).
Proof.
  unfold age_node. intros H. apply bind_Ok in H. destruct H as [d [Hd H]].
  apply node_at_Ok in Hd. exists d. split; [exact Hd|].
  apply bind_Ok in H. destruct H as [[ns1 pn1] [H1 H]].
  assert (Hst : ns1 = alter String.eqb aged k ns /\
                pn1 = newly_pruned k d pn).
  { unfold aged, newly_pruned. destruct (active d) eqn:Ea.
    - apply bind_Ok in H1. destruct H1 as [ns2 [H2 H1]].
      apply update_node_Ok in H2. destruct H2 as [d2 [_ ->]].
      injection H1 as <- <-. split; [|reflexivity].
      apply (alter_ext_at _ _ _ _ Hd). now rewrite Ea.
    - apply bind_Ok in H1. destruct H1 as [ns2 [H2 H1]].
      apply update_node_Ok in H2. destruct H2 as [d2 [Hd2 ->]].
      apply bind_Ok in H1. destruct H1 as [d3 [Hd3 H1]].
      apply node_at_Ok in Hd3.
      rewrite nodes_lookup_alter, String.eqb_refl, Hd2 in Hd3.
      simpl in Hd3. injection Hd3 as <-.
      assert (d2 = d) by congruence. subst d2.
      injection H1 as <- <-. split; [|reflexivity].
      apply (alter_ext_at _ _ _ _ Hd). now rewrite Ea. }
  destruct Hst as [-> ->].
  apply bind_Ok in H. destruct H as [d1 [Hd1 H]]. apply node_at_Ok in Hd1.
  rewrite nodes_lookup_alter, String.eqb_refl, Hd in Hd1.
  injection Hd1 as <-.
  destruct (delth <? pruned (aged d))%Z; now injection H as <-.
Qed.

Lemma age_loop_pn (delth : Z) (ks : list key) :
  forall ns es pn dn ns' es' pn' dn',
    NoDup ks ->
    foldM (age_node delth) ks (ns, es, pn, dn) = Ok (ns', es', pn', dn') ->
    (NoDup pn -> NoDup pn') /\ (NoDup dn -> NoDup dn') /\
    forall k, In k pn' <->
              In k pn \/
              (In k ks /\
               exists d, lookup String.eqb k ns = Some d /\
                         active d = false /\ pruned d = 0%Z).
Proof.
  induction ks as [|k ks IH]; intros ns es pn dn ns' es' pn' dn' Hks H.
  - simpl in H. injection H as _ _ <- <-. split; [auto|]. split; [auto|].
    intros k. simpl. tauto.
  - simpl in H. apply bind_Ok in H.
    destruct H as [[[[ns1 es1] pn1] dn1] [H1 H]].
    inversion Hks as [|? ? Hk Hks']; subst.
    apply age_node_full in H1. destruct H1 as (d & Hd & Hst).
    assert (Hother : forall x, x <> k ->
              lookup String.eqb x ns1 = lookup String.eqb x ns).
    { intros x Hx.
      destruct (delth <? pruned (aged d))%Z; injection Hst as -> _ _ _.
      - rewrite nodes_lookup_remove_other, nodes_lookup_alter by assumption.
        destruct (String.eqb_spec x k); [contradiction | auto].
      - rewrite nodes_lookup_alter.
        destruct (String.eqb_spec x k); [contradiction | auto]. }
    assert (Hpn1 : pn1 = newly_pruned k d pn)
      by (destruct (delth <? pruned (aged d))%Z; now injection Hst as _ _ ->).
    assert (Hdn1 : dn1 = dn \/ dn1 = set_add k dn)
      by (destruct (delth <? pruned (aged d))%Z; injection Hst as _ _ _ ->;
          auto).
    destruct (IH _ _ _ _ _ _ _ _ Hks' H) as (Np & Nd & Ip). clear IH.
    split; [|split].
    + intros Hn. apply Np. rewrite Hpn1. unfold newly_pruned.
      destruct (active d); [exact Hn|].
      destruct (pruned d + 1 =? 1)%Z; [now apply NoDup_set_add | exact Hn].
    + intros Hn. apply Nd.
      destruct Hdn1 as [-> | ->]; [exact Hn | now apply NoDup_set_add].
    + intros x. rewrite Ip, Hpn1. unfold newly_pruned. simpl.
      assert (Hx : In x ks -> lookup String.eqb x ns1
                               = lookup String.eqb x ns).
      { intros Hin. apply Hother. intros ->. contradiction. }
      split.
      * intros [Hin|[Hin Hex]].
        -- destruct (active d) eqn:Ea; [auto|].
           destruct (pruned d + 1 =? 1)%Z eqn:Ep; [|auto].
           apply In_set_add in Hin. destruct Hin as [->|Hin]; [|auto].
           right. split; [auto|]. exists d. apply Z.eqb_eq in Ep.
           repeat split; [exact Hd | exact Ea | lia].
        -- right. split; [auto|]. rewrite <- (Hx Hin). exact Hex.
      * intros [Hin|[[<-|Hin] Hex]].
        -- left. destruct (active d); [exact Hin|].
           destruct (pruned d + 1 =? 1)%Z; [|exact Hin].
           apply In_set_add. auto.
        -- left. destruct Hex as (d0 & Hd0 & Ha & Hp).
           assert (d0 = d) by congruence. subst d0. rewrite Ha.
           replace (pruned d + 1 =? 1)%Z with true
             by (symmetry; apply Z.eqb_eq; lia).
           apply In_set_add. auto.
        -- right. split; [exact Hin|]. rewrite (Hx Hin). exact Hex.
Qed.

(** X13: what a returning [prune] with [delth >= 1] reports: [pn] holds
    exactly the nodes that are inactive with the counter at 1 after the
    call, none of them is deleted by this call, and neither [pn] nor [dn]
    lists a key twice. *)
Theorem prune_reports (L L' : landscape) (pmin : Q) (delth : Z)
        (keep : option (list key)) (pn dn : list key) :
  NoDup (map fst (nodes L)) ->
  (1 <= delth)%Z ->
  prune L pmin delth keep = Ok (L', pn, dn) ->
  NoDup pn /\ NoDup dn /\
  (forall k, In k pn <->
             exists d', lookup String.eqb k (nodes L') = Some d' /\
                        active d' = false /\ pruned d' = 1%Z) /\
  (forall k, In k pn -> ~ In k dn).
Proof.
  intros Hnd Hdel H. apply prune_stages in H.
  destruct H as (ns1 & lms' & ns2 & ns3 & es & H1 & H2 & H3 & ->).
  apply deactivate_lms_spec in H1. destruct H1 as (R1 & _).
  apply set_occtransfer_loop in H2. destruct H2 as (R2 & _).
  assert (Hk2 : map fst ns2 = map fst (nodes L)).
  { rewrite (refines_keys R2). eapply refines_keys; eauto. }
  assert (Hnd2 : NoDup (map fst ns2)) by (now rewrite Hk2).
  pose proof H3 as H3'. apply age_loop_pn in H3'; [|exact Hnd2].
  destruct H3' as (Np & Nd & Ip).
  apply age_loop_spec in H3; [|exact Hnd2|exact Hnd2].
  destruct H3 as (_ & L1 & L2 & D & _).
  cbn [nodes with_nodes with_edges].
  assert (Hpn : forall k, In k pn <->
                  exists d', lookup String.eqb k ns3 = Some d' /\
                             active d' = false /\ pruned d' = 1%Z).
  { intros k. rewrite Ip. simpl. split.
    - intros [[]|[Hin (d & Hd & Ha & Hp)]].
      rewrite (L1 _ Hin). unfold evicted. rewrite Hd.
      assert (Hag : pruned (aged d) = 1%Z)
        by (rewrite aged_pruned, Ha; lia).
      rewrite Hag. replace (delth <? 1)%Z with false
        by (symmetry; apply Z.ltb_ge; lia).
      exists (aged d). simpl. rewrite aged_active. auto.
    - intros (d' & Hd' & Ha & Hp). right.
      assert (Hin : In k (map fst ns2)).
      { destruct (in_dec string_dec k (map fst ns2)) as [Hi|Hn];
          [exact Hi|].
        exfalso. rewrite (L2 _ Hn) in Hd'.
        apply Hn. eapply nodes_lookup_key; eauto. }
      split; [exact Hin|]. rewrite (L1 _ Hin) in Hd'.
      unfold evicted in Hd'.
      destruct (lookup String.eqb k ns2) as [d|] eqn:Hd;
        [|discriminate].
      destruct (delth <? pruned (aged d))%Z; [discriminate|].
      simpl in Hd'. injection Hd' as <-. rewrite aged_active in Ha.
      rewrite aged_pruned, Ha in Hp. exists d.
      repeat split; [exact Ha | lia]. }
  split; [apply Np; constructor|]. split; [apply Nd; constructor|].
  split; [exact Hpn|].
  intros k Hk Hdn. apply Hpn in Hk. destruct Hk as (d' & Hd' & _).
  apply D in Hdn. simpl in Hdn. destruct Hdn as [[]|[Hin Hev]].
  rewrite (L1 _ Hin), Hev in Hd'. discriminate.
Qed.

Lemma prune_reports_witness :
  exists d',
    lookup String.eqb Example.B (nodes Example.two_minima_pruned) = Some d' /\
    active d' = false /\ pruned d' = 1%Z.
Proof.
  assert (Hnd : NoDup (map fst (nodes Example.two_minima))).
  { repeat constructor; simpl; intros H; intuition discriminate. }
  destruct (prune Example.two_minima (3 # 10) 10 (Some []))
    as [[[L' pn] dn]|f] eqn:Hpr; [|vm_compute in Hpr; discriminate].
  assert (E : L' = Example.two_minima_pruned /\ pn = [Example.B]).
  { vm_compute in Hpr. injection Hpr as <- <- _. split; reflexivity. }
  destruct E as [-> ->].
  destruct (@prune_reports Example.two_minima Example.two_minima_pruned
              (3 # 10) 10 (Some []) [Example.B] dn Hnd ltac:(lia) Hpr)
    as (_ & _ & Hpn & _).
  exact (proj1 (Hpn Example.B) (or_introl eq_refl)).
Defined.

(** X14: [prune] moves no occupancy and adds nothing: a node that is left
    after the call has the occupancy, the structure, identity and energy,
    the representatives and the hidden nodes it had before, and is active
    only if it was; every edge that is left was there before; the coarse
    edges and the parameters of the landscape are unchanged. *)
Theorem prune_moves_no_occupancy (L L' : landscape) (pmin : Q) (delth : Z)
        (keep : option (list key)) (pn dn : list key) :
  NoDup (map fst (nodes L)) ->
  prune L pmin delth keep = Ok (L', pn, dn) ->
  (forall k d', lookup String.eqb k (nodes L') = Some d' ->
     exists d, lookup String.eqb k (nodes L) = Some d /\
               occupancy d' = occupancy d /\ same_fixed d d' /\
               lminreps d' = lminreps d /\ hiddennodes d' = hiddennodes d /\
               (active d' = true -> active d = true)) /\
  (forall e, In e (edges L') -> In e (edges L)) /\
  cg_edges L' = cg_edges L /\ same_parameters L L'.
Proof.
  intros Hnd H. pose proof (prune_stages _ _ _ _ H) as Hst.
  destruct Hst as (ns1 & lms & ns2' & ns3 & es & _ & _ & _ & E).
  apply prune_summary in H; [|exact Hnd].
  destruct H as (ns2 & R & _ & Lk & _ & Ee & _ & Ec & _).
  split; [|split; [|split]].
  - intros k d' Hk. rewrite Lk in Hk.
    destruct (evicted delth ns2 k); [discriminate|].
    destruct (lookup String.eqb k ns2) as [d2|] eqn:E2; [|discriminate].
    simpl in Hk. injection Hk as <-.
    eapply refines_lookup_inv in E2; [|exact R].
    destruct E2 as (d & Hd & (Hs & Ho & Hl & Hh & Ha & _)).
    exists d. split; [exact Hd|]. rewrite aged_occupancy, aged_active.
    split; [exact Ho|]. split.
    { unfold aged. destruct (active d2); exact Hs. }
    split; [unfold aged; destruct (active d2); exact Hl|].
    split; [unfold aged; destruct (active d2); exact Hh|].
    intros Ha2. destruct (active d); [reflexivity|].
    rewrite Ha in Ha2 by reflexivity. discriminate.
  - intros e He. apply Ee in He. tauto.
  - exact Ec.
  - rewrite E. repeat split.
Qed.

Lemma prune_moves_no_occupancy_witness :
  Forall (fun kd =>
            exists d, lookup String.eqb (fst kd) (nodes Example.two_minima)
                      = Some d /\
                      occupancy (snd kd) = occupancy d)
         (nodes Example.two_minima_pruned).
Proof.
  assert (Hnd : NoDup (map fst (nodes Example.two_minima))).
  { repeat constructor; simpl; intros H; intuition discriminate. }
  assert (Hnd' : NoDup (map fst (nodes Example.two_minima_pruned))).
  { repeat constructor; simpl; intros H; intuition discriminate. }
  destruct (prune Example.two_minima (3 # 10) 10 (Some []))
    as [[[L' pn] dn]|f] eqn:Hpr; [|vm_compute in Hpr; discriminate].
  assert (E : L' = Example.two_minima_pruned).
  { vm_compute in Hpr. injection Hpr as <- _ _. reflexivity. }
  subst L'.
  destruct (@prune_moves_no_occupancy Example.two_minima
              Example.two_minima_pruned (3 # 10) 10 (Some []) pn dn Hnd Hpr)
    as (Hn & _).
  apply Forall_forall. intros [k d'] Hin. cbn [fst snd].
  apply nodes_In_lookup in Hin; [|exact Hnd'].
  destruct (Hn k d' Hin) as (d & Hd & Ho & _). eauto.
Defined.

(** ** The state that [get_coarse_network] leaves *)

(** The last loop of [get_coarse_network] deactivates every hidden node it
    visits. *)
Lemma move_to_lmins_hidden (Rp : key -> Prop) (n : key) (hs : list key)
      (ns0 ns ns' : nodes_t) :
  (forall k d, lookup String.eqb k ns0 = Some d ->
               forall r, In r (reps d) -> Rp r) ->
  (forall k d, lookup String.eqb k ns0 = Some d -> Rp k ->
               truthy (lminreps d) = false) ->
  (forall hn, In hn hs ->
     exists d, lookup String.eqb hn ns0 = Some d /\
               truthy (lminreps d) = true) ->
  refines H_rel ns0 ns ->
  foldM (move_to_lmins n) hs ns = Ok ns' ->
  forall hn, In hn hs ->
    exists d', lookup String.eqb hn ns' = Some d' /\ active d' = false.
Proof.
  intros h1 h2 Hhs R0 H.
  cut (refines H_rel ns0 ns' /\
       forall hn, In hn ([] ++ hs) ->
         exists d', lookup String.eqb hn ns' = Some d' /\ active d' = false);
    [intros [_ Hc]; exact Hc|].
  revert H.
  apply (foldM_invariant_done (move_to_lmins n)
           (fun done s =>
              refines H_rel ns0 s /\
              forall hn, In hn done ->
                exists d', lookup String.eqb hn s = Some d' /\
                           active d' = false));
    [|split; [exact R0 | intros hn []]].
  intros done hn s s' Hin (Rs & Ds) Hstep.
  destruct (Hhs hn Hin) as (d0 & Hd0 & Ht0).
  pose proof Hd0 as Hdh. eapply refines_lookup in Hdh; [|exact Rs].
  destruct Hdh as (dh & Hdh & (El & _)).
  assert (Hreps : reps dh = reps d0) by (unfold reps; now rewrite El).
  assert (Ht : truthy (lminreps dh) = true) by (now rewrite El).
  assert (Hself : ~ In hn (reps dh)).
  { rewrite Hreps. intros Hi.
    rewrite (h2 _ _ Hd0 (h1 _ _ Hd0 _ Hi)) in Ht0. discriminate. }
  eapply move_to_lmins_step in Hstep; [| exact Hdh | exact Ht | exact Hself].
  destruct Hstep as (Rstep & _ & Eff).
  split; [eapply refines_trans; [exact H_rel_trans | exact Rs | exact Rstep]|].
  intros x Hx. apply in_app_iff in Hx.
  destruct (String.eqb_spec x hn) as [->|Hne].
  - pose proof Hdh as Hd'. eapply refines_lookup in Hd'; [|exact Rstep].
    destruct Hd' as (d' & Hd' & _). exists d'. split; [exact Hd'|].
    destruct (Eff _ _ Hd') as (d & _ & [(_ & Ha & _)|(Hc & _)]);
      [exact Ha | congruence].
  - destruct Hx as [Hx|[Hx|[]]]; [|congruence].
    destruct (Ds x Hx) as (d1 & Hd1 & Ha1).
    pose proof Hd1 as Hd'. eapply refines_lookup in Hd'; [|exact Rstep].
    destruct Hd' as (d' & Hd' & _). exists d'. split; [exact Hd'|].
    destruct (Eff _ _ Hd') as (d & Hd & [(Hc & _)|(_ & Ha & _)]);
      [congruence|].
    assert (d = d1) by congruence. subst d. congruence.
Qed.

(** Both sets of a node are sets (not [None]). *)
Definition has_sets (d : node) : Prop :=
(exists l, lminreps d = Some l) /\ (exists h, hiddennodes d = Some h).

Lemma update_has_sets (f : node -> node) (k : key) (ns ns' : nodes_t) :
  (forall d, has_sets d -> has_sets (f d)) ->
  (forall x d, lookup String.eqb x ns = Some d -> has_sets d) ->
  update_node f k ns = Ok ns' ->
  forall x d, lookup String.eqb x ns' = Some d -> has_sets d.
Proof.
  intros Hf Hns H x d Hx. apply update_node_Ok in H.
  destruct H as [d0 [Hd0 ->]]. rewrite nodes_lookup_alter in Hx.
  destruct (String.eqb_spec x k) as [->|Hne]; [|eauto].
  rewrite Hd0 in Hx. simpl in Hx. injection Hx as <-. eauto.
Qed.

Lemma record_mapping_sets (cgm : list (key * list key)) (ns ns' : nodes_t) :
  (forall x d, lookup String.eqb x ns = Some d -> has_sets d) ->
  foldM record_mapping cgm ns = Ok ns' ->
  forall x d, lookup String.eqb x ns' = Some d -> has_sets d.
Proof.
  intros H0 H. revert H.
  apply (foldM_invariant record_mapping
           (fun s => forall x d, lookup String.eqb x s = Some d ->
                                 has_sets d)); [|exact H0].
  intros [lmin hidden] s s' _ Hs H. unfold record_mapping in H.
  apply bind_Ok in H. destruct H as [dl [_ H]].
  apply bind_Ok in H. destruct H as [u [_ H]].
  apply bind_Ok in H. destruct H as [s1 [H1 H]].
  assert (Hs1 : forall x d, lookup String.eqb x s1 = Some d -> has_sets d).
  { revert H1.
    apply (foldM_invariant (add_representative lmin)
             (fun t => forall x d, lookup String.eqb x t = Some d ->
                                   has_sets d)); [|exact Hs].
    intros hn t t' _ Ht Hadd. unfold add_representative in Hadd.
    apply bind_Ok in Hadd. destruct Hadd as [dh [_ Hadd]].
    apply bind_Ok in Hadd. destruct Hadd as [u' [_ Hadd]].
    apply bind_Ok in Hadd. destruct Hadd as [rs [_ Hadd]].
    eapply update_has_sets; [|exact Ht|exact Hadd].
    intros d [_ Hh]. split; [simpl; eauto | exact Hh]. }
  eapply update_has_sets; [|exact Hs1|exact H].
  intros d [Hl _]. split; [exact Hl | simpl; eauto].
Qed.

(** What [get_coarse_network] leaves in every node, for a coarse-graining
    collaborator that never returns a representative among the hidden
    nodes. *)
Lemma gcn_settles_nodes {X : Externals} (L L' : landscape) (n m : nat) :
  coarse_graining_partitions ->
  NoDup (map fst (nodes L)) ->
  get_coarse_network L = Ok (L', n, m) ->
  forall k d, In (k, d) (nodes L') ->
    has_sets d /\
    (truthy (lminreps d) = true -> active d = false) /\
    (active d = false -> occupancy d == 0).
Proof.
  intros Hpart Hnd H.
  pose proof (@gcn_spec X L L' n m Hpart Hnd H) as (Hnd' & Hdr & _).
  apply gcn_stages in H.
  destruct H as (ns1 & edata & ce & ns2 & ns3 & H1 & _ & _ & _ & H5 & H6 &
                 -> & _).
  cbn [nodes with_nodes with_cg_edges] in *.
  set (cgm := snd (top_down_coarse_graining
                     (filter (fun kd => active (snd kd)) ns1) edata
                     (minh L))) in *.
  apply transfer_inactive_spec in H1. destruct H1 as (R1 & C1 & D1 & _).
  pose proof (record_mapping_loop _ _ H5) as (R2 & A2 & O2).
  set (Rp := fun k => exists hidden, In (k, hidden) cgm).
  assert (h1 : forall k d, lookup String.eqb k ns2 = Some d ->
                 forall r, In r (reps d) ->
                   exists hidden, In (r, hidden) cgm /\ In k hidden).
  { intros k d Hk r Hr. destruct (O2 _ _ Hk) as (d1 & Hd1 & Hreps & _).
    destruct (Hreps r Hr) as [Hin|Hin]; [|exact Hin].
    destruct (C1 _ _ Hd1) as [Cl _]. unfold reps in Hin. rewrite Cl in Hin.
    contradiction. }
  assert (h2 : forall k d, lookup String.eqb k ns2 = Some d -> Rp k ->
                 truthy (lminreps d) = false).
  { intros k d Hk [hd Hrp].
    destruct (truthy (lminreps d)) eqn:Et; [|reflexivity].
    apply truthy_reps in Et. destruct (reps d) as [|r l] eqn:Er;
      [congruence|].
    destruct (h1 _ _ Hk r) as (hidden & Hin & Hkh); [rewrite Er; now left|].
    exfalso. exact (Hpart _ _ _ _ _ _ _ Hrp Hin Hkh). }
  assert (Hsets2 : forall x d, lookup String.eqb x ns2 = Some d ->
                               has_sets d).
  { eapply record_mapping_sets; [|exact H5].
    intros x d Hx. destruct (C1 _ _ Hx) as [Cl Ch]. split; eauto. }
  assert (Hnd2 : NoDup (map fst ns2)).
  { rewrite (refines_keys R2), (refines_keys R1). exact Hnd. }
  assert (Hhs : forall hn,
             In hn (keys_where (fun d => truthy (lminreps d)) ns2) ->
             exists d, lookup String.eqb hn ns2 = Some d /\
                       truthy (lminreps d) = true).
  { intros hn Hin. apply In_keys_where in Hin.
    destruct Hin as (d & Hin & Ht). exists d. split; [|exact Ht].
    now apply nodes_In_lookup. }
  assert (h1' : forall k d, lookup String.eqb k ns2 = Some d ->
                  forall r, In r (reps d) -> Rp r).
  { intros k d Hk r Hr. destruct (h1 _ _ Hk r Hr) as (hd & Hin & _).
    exists hd. exact Hin. }
  pose proof H6 as H6'.
  eapply move_to_lmins_loop with (Rp := Rp) (ns0 := ns2) in H6';
    [ | exact h1' | exact h2 | exact Hhs | apply refines_refl, H_rel_refl
      | eapply drained_M_rel; [exact R2 | exact D1] | ].
  2:{ intros r d [hd Hrp] Hk. destruct (A2 _ _ Hrp) as (dl & Hdl & Ha).
      congruence. }
  destruct H6' as (R3 & _).
  assert (R0 : refines H_rel ns2 ns2) by apply refines_refl, H_rel_refl.
  pose proof (@move_to_lmins_hidden Rp _ _ ns2 ns2 ns3 h1' h2 Hhs R0 H6)
    as Hhid.
  assert (Hnodes : forall k d, In (k, d) ns3 ->
             has_sets d /\
             (truthy (lminreps d) = true -> active d = false) /\
             (active d = false -> occupancy d == 0)).
  { intros k d Hin. apply nodes_In_lookup in Hin; [|exact Hnd'].
    pose proof Hin as Hd2. eapply refines_lookup_inv in Hd2; [|exact R3].
    destruct Hd2 as (d2 & Hd2 & (El & Eh & _)).
    split; [|split].
    - destruct (Hsets2 _ _ Hd2) as [[l Hl] [h Hh]].
      split; [exists l | exists h]; congruence.
    - intros Ht. rewrite El in Ht.
      destruct (Hhid k) as (d' & Hd' & Ha).
      + apply In_keys_where. exists d2. split; [|exact Ht].
        now apply nodes_lookup_In.
      + congruence.
    - intros Ha. eapply Hdr; eauto. }
  exact Hnodes.
Qed.

(** X15: after [get_coarse_network], for a coarse-graining collaborator
    that never returns a representative among the hidden nodes: both
    [lminreps] and [hiddennodes] of every node are sets (not [None]);
    every node with representatives is inactive; every inactive node has
    occupancy 0.  So all occupancy sits on active local minima, and the
    active nodes are exactly the active local minima. *)
Theorem coarse_network_settles {X : Externals} (L L' : landscape)
        (n m : nat) :
  coarse_graining_partitions ->
  NoDup (map fst (nodes L)) ->
  get_coarse_network L = Ok (L', n, m) ->
  (forall k d, In (k, d) (nodes L') ->
     has_sets d /\
     (truthy (lminreps d) = true -> active d = false) /\
     (active d = false -> occupancy d == 0)) /\
  active_nodes L' = active_local_mins L'.
Proof.
  intros Hpart Hnd H.
  pose proof (@gcn_settles_nodes X L L' n m Hpart Hnd H) as Hnodes.
  split; [exact Hnodes|].
  unfold active_nodes, active_local_mins, keys_where.
  f_equal. apply filter_ext_in.
  intros [k d] Hin. cbn [snd]. destruct (Hnodes k d Hin) as (_ & Ht & _).
  destruct (truthy (lminreps d)); [|now rewrite andb_true_r].
  rewrite (Ht eq_refl). reflexivity.
Qed.

Lemma coarse_network_settles_witness :
  active_nodes Example.coarse = active_local_mins Example.coarse.
Proof.
  assert (Hnd : NoDup (map fst (nodes Example.expanded))).
  { repeat constructor; simpl; intros H; intuition discriminate. }
  exact (proj2 (@coarse_network_settles Example.collaborators
                  Example.expanded Example.coarse 2 2 example_partitions
                  Hnd eq_refl)).
Defined.

(** The coarse edges stored for the edges [cge] the collaborator returned:
    their keys are the keys of [cge], their saddle energies come from it. *)
Lemma store_cg_edge_keys (L : landscape) (cgn : nodes_t)
      (cge : list ((key * key) * Z)) (ce : cg_edges_t) :
  foldM (store_cg_edge L cgn) cge [] = Ok ce ->
  (forall xy, In xy (map fst ce) <-> In xy (map fst cge)) /\
  (forall xy c, In (xy, c) ce -> In (xy, cg_saddle_energy c) cge).
Proof.
  intros H.
  cut ((forall xy, In xy (map fst ce) <-> In xy (map fst ([] ++ cge))) /\
       (forall xy c, In (xy, c) ce ->
                     In (xy, cg_saddle_energy c) ([] ++ cge)));
    [exact (fun h => h)|].
  revert H.
  apply (foldM_invariant_done (store_cg_edge L cgn)
           (fun done s =>
              (forall xy, In xy (map fst s) <-> In xy (map fst done)) /\
              (forall xy c, In (xy, c) s ->
                            In (xy, cg_saddle_energy c) done)));
    [|split; [intros xy; simpl; tauto | intros xy c []]].
  intros done [xy0 se] s s' _ (Hk & Hs) H. unfold store_cg_edge in H.
  apply bind_Ok in H. destruct H as [dx [_ H]]. cbn [fst snd] in H.
  destruct (energy dx) as [ex|]; [|discriminate]. injection H as <-.
  split.
  - intros xy. rewrite (keys_setitem pair_eqb), map_app, in_app_iff.
    simpl. destruct (has_key pair_eqb xy0 s) eqn:E.
    + apply (has_key_true _ pair_eqb_spec) in E. rewrite Hk in *.
      split; [tauto|]. intros [Hx|[<-|[]]]; tauto.
    + rewrite in_app_iff, Hk. simpl. tauto.
  - intros xy c Hin. apply (In_setitem _ pair_eqb_spec) in Hin.
    apply in_app_iff. destruct Hin as [E|Hin].
    + injection E as -> ->. right. now left.
    + left. auto.
Qed.

(** ** The occupancy vector *)

Lemma In_insert_by_int (f : key -> Z) (x k : key) (l : list key) :
  In k (insert_by_int f x l) <-> k = x \/ In k l.
Proof.
  induction l as [|y l IH]; simpl; [intuition|].
  destruct (f x <=? f y)%Z; simpl; [intuition|].
  rewrite IH. intuition.
Qed.

Lemma insert_by_int_perm (f : key -> Z) (x : key) (l : list key) :
  Permutation (insert_by_int f x l) (x :: l).
Proof.
  induction l as [|y l IH]; simpl; [reflexivity|].
  destruct (f x <=? f y)%Z; [reflexivity|].
  rewrite IH. apply perm_swap.
Qed.

Lemma sorted_by_int_perm (f : key -> Z) (l : list key) :
  Permutation (sorted_by_int f l) l.
Proof.
  induction l as [|x l IH]; simpl; [reflexivity|].
  rewrite insert_by_int_perm. now constructor.
Qed.

Lemma insert_by_int_sorted (f : key -> Z) (x : key) (l : list key) :
  StronglySorted (fun a b => (f a <= f b)%Z) l ->
  StronglySorted (fun a b => (f a <= f b)%Z) (insert_by_int f x l).
Proof.
  induction l as [|y l IH]; simpl; intros H.
  - repeat constructor.
  - inversion H as [|? ? Hs Hall]; subst.
    destruct (f x <=? f y)%Z eqn:E.
    + apply Z.leb_le in E. constructor; [exact H|].
      constructor; [exact E|]. rewrite Forall_forall in *.
      intros z Hz. specialize (Hall z Hz). simpl in Hall. lia.
    + apply Z.leb_gt in E. constructor; [auto|]. rewrite Forall_forall in *.
      intros z Hz. apply In_insert_by_int in Hz.
      destruct Hz as [->|Hz]; [lia | auto].
Qed.

Lemma sorted_by_int_sorted (f : key -> Z) (l : list key) :
  StronglySorted (fun a b => (f a <= f b)%Z) (sorted_by_int f l).
Proof.
  induction l as [|x l IH]; simpl; [constructor|].
  now apply insert_by_int_sorted.
Qed.

Lemma mapM_map {A B : Type} (f : A -> result B) (g : A -> B) (l : list A) :
  (forall x, In x l -> f x = Ok (g x)) -> mapM f l = Ok (map g l).
Proof.
  induction l as [|x l IH]; simpl; intros H; [reflexivity|].
  rewrite (H x (or_introl eq_refl)). simpl. rewrite IH by auto.
  reflexivity.
Qed.

(** The occupancies [get_occupancies] reads, when every key is a node. *)
Lemma read_occupancies (ns : nodes_t) (l : list key) :
  (forall k, In k l -> In k (map fst ns)) ->
  mapM (fun n => d <- node_at n ns ;; Ok (occupancy d)) l
  = Ok (map (occupancy_of ns) l).
Proof.
  intros H. apply mapM_map. intros k Hk. unfold node_at, getitem,
    occupancy_of.
  destruct (lookup String.eqb k ns) as [d|] eqn:E; [reflexivity|].
  apply nodes_lookup_None in E. exfalso. auto.
Qed.

Lemma active_local_mins_nodes (L : landscape) (k : key) :
  In k (active_local_mins L) -> In k (map fst (nodes L)).
Proof.
  intros H. apply In_keys_where in H. destruct H as (d & Hin & _).
  change k with (fst (k, d)). now apply in_map.
Qed.

(** X17: when [get_occupancies] returns [(snodes, p0)], [snodes] lists
    the active local minima, each exactly once, in ascending order of
    energy, and [p0] holds their occupancies in the same order.  It
    returns whenever there is at most one active local minimum or every
    active local minimum has an energy; otherwise it raises a
    [TypeError]. *)
Theorem get_occupancies_sorted (L : landscape) :
  NoDup (map fst (nodes L)) ->
  let lms := active_local_mins L in
  if (1 <? List.length lms)%nat
     && existsb (fun x => match energy_at (nodes L) x with
                          | Some _ => false
                          | None => true
                          end) lms
  then get_occupancies L = Raise TypeError
  else exists snodes p0,
      get_occupancies L = Ok (snodes, p0) /\
      Permutation snodes lms /\ NoDup snodes /\
      StronglySorted
        (fun a b => (int_energy (nodes L) a <= int_energy (nodes L) b)%Z)
        snodes /\
      p0 = map (occupancy_of (nodes L)) snodes.
Proof.
  intros Hnd lms. unfold get_occupancies. fold lms.
  destruct ((1 <? List.length lms)%nat && existsb _ lms); [reflexivity|].
  assert (Hperm : Permutation (sorted_by_int (int_energy (nodes L)) lms) lms)
    by apply sorted_by_int_perm.
  rewrite read_occupancies.
  - eexists. eexists. split; [reflexivity|]. split; [exact Hperm|].
    split; [|split; [apply sorted_by_int_sorted | reflexivity]].
    apply (Permutation_NoDup (l := lms)); [now symmetry|].
    now apply NoDup_keys_where.
  - intros k Hk. apply active_local_mins_nodes.
    eapply Permutation_in; eauto.
Qed.

Lemma get_occupancies_sorted_witness :
  exists snodes p0,
    get_occupancies Example.coarse = Ok (snodes, p0) /\
    Permutation snodes (active_local_mins Example.coarse) /\
    NoDup snodes /\
    StronglySorted
      (fun a b => (int_energy (nodes Example.coarse) a
                   <= int_energy (nodes Example.coarse) b)%Z) snodes /\
    p0 = map (occupancy_of (nodes Example.coarse)) snodes.
Proof.
  assert (Hnd : NoDup (map fst (nodes Example.coarse))).
  { repeat constructor; simpl; intros H; intuition discriminate. }
  exact (get_occupancies_sorted Example.coarse Hnd).
Defined.

Lemma Qsum_from (l : list Q) (a : Q) :
  fold_left Qplus l a == a + fold_right Qplus 0 l.
Proof.
  revert a. induction l as [|x l IH]; intros a; simpl; [lra|].
  rewrite IH. lra.
Qed.

Lemma Qsum_occupancies (ns : nodes_t) (l : list key) :
  Qsum (map (occupancy_of ns) l) == occupancy_sum ns l.
Proof.
  unfold Qsum. rewrite Qsum_from, Qplus_0_l.
  induction l as [|x l IH]; simpl; [reflexivity|]. now rewrite IH.
Qed.

(** The occupancies of the nodes selected by [p] add up to the total when
    every other node is empty. *)
Lemma occupancy_sum_keys_where (p : node -> bool) (ns : nodes_t) :
  NoDup (map fst ns) ->
  (forall k d, In (k, d) ns -> p d = false -> occupancy d == 0) ->
  occupancy_sum ns (keys_where p ns) == total_occupancy ns.
Proof.
  intros Hnd Hz.
  assert (H : forall l, incl l ns ->
            occupancy_sum ns (keys_where p l) == total_occupancy l).
  { induction l as [|[k d] l IH]; intros Hl; [reflexivity|].
    assert (Hin : In (k, d) ns) by (apply Hl; now left).
    assert (Hl' : incl l ns) by (intros x Hx; apply Hl; now right).
    unfold keys_where. simpl. destruct (p d) eqn:Ep; simpl.
    - fold (keys_where p l). rewrite (IH Hl'). unfold occupancy_of.
      rewrite (nodes_In_lookup _ _ _ Hnd Hin). reflexivity.
    - fold (keys_where p l). rewrite (IH Hl'), (Hz _ _ Hin Ep). lra. }
  apply H, incl_refl.
Qed.

Lemma isclose_one (s : Q) : s == 1 -> isclose s 1 = true.
Proof.
  intros H. unfold isclose. apply Qle_bool_iff.
  assert (E : s - 1 == 0) by lra. rewrite E. simpl. unfold Qle. simpl. lia.
Qed.

(** X18: when [get_coarse_network] was the last call of a run in step
    order from an empty landscape (every [prune] with [delth >= 1]),
    [get_occupancies] returns, and the vector [p0] it returns sums to 1 (in
    exact arithmetic): the start vector meets the precondition of
    [simulate].  The coarse-graining collaborator is taken to return no
    representative among the hidden nodes. *)
Theorem occupancies_sum_to_one {X : Externals} (L0 L : landscape)
        (ops : list op) :
  coarse_graining_partitions ->
  nodes L0 = [] -> edges L0 = [] ->
  step_order 0 (ops ++ [OpCoarse]) = true ->
  delays_eviction ops ->
  run (ops ++ [OpCoarse]) L0 = Ok L ->
  exists snodes p0,
    get_occupancies L = Ok (snodes, p0) /\
    Qsum p0 == 1 /\ isclose (Qsum p0) 1 = true.
Proof.
  intros Hpart Hn He Hord Hdel Hrun.
  (* the state before and after the last call *)
  pose proof Hrun as Hrun'. unfold run in Hrun'. rewrite foldM_app in Hrun'.
  apply bind_Ok in Hrun'. destruct Hrun' as [L1 [H1 H2]].
  simpl in H2. apply bind_Ok in H2. destruct H2 as [L2 [H2 E2]].
  injection E2 as ->. simpl in H2.
  apply bind_Ok in H2. destruct H2 as [[[L3 n] m] [Hg E3]].
  injection E3 as ->.
  destruct (@run_well_formed X ops L0 L1 Hn He H1) as (Hnd1 & _).
  destruct (@run_well_formed X (ops ++ [OpCoarse]) L0 L Hn He Hrun)
    as (Hnd & Hen & _).
  pose proof (@gcn_settles_nodes X L1 L n m Hpart Hnd1 Hg) as Hnodes.
  (* the total is 1 *)
  assert (Hdel' : delays_eviction (ops ++ [OpCoarse])).
  { apply Forall_app. split; [exact Hdel|]. repeat constructor. }
  destruct (@run_conserved X (ops ++ [OpCoarse]) Hpart Fresh L0 L Hn Hord
              Hdel' Hrun) as (p' & Hc & Hnf & _).
  assert (Htot : total_occupancy (nodes L) == 1).
  { assert (Hp : p' <> Fresh)
      by (apply Hnf; right; destruct ops; discriminate).
    destruct p'; [congruence| | |]; destruct Hc as (_ & Ht & _); exact Ht. }
  (* no energy is missing *)
  assert (Hsome : existsb (fun x => match energy_at (nodes L) x with
                                    | Some _ => false
                                    | None => true
                                    end) (active_local_mins L) = false).
  { destruct (existsb _ (active_local_mins L)) eqn:Ex; [|reflexivity].
    apply existsb_exists in Ex. destruct Ex as (k & Hk & Hex).
    apply In_keys_where in Hk. destruct Hk as (d & Hin & _).
    apply nodes_In_lookup in Hin; [|exact Hnd].
    unfold energy_at in Hex. rewrite Hin in Hex.
    destruct (Hen _ _ Hin) as (_ & e & Ee). rewrite Ee in Hex.
    discriminate. }
  unfold get_occupancies. rewrite Hsome, andb_false_r.
  rewrite read_occupancies.
  2:{ intros k Hk. apply active_local_mins_nodes.
      eapply Permutation_in; [apply sorted_by_int_perm | exact Hk]. }
  eexists. eexists. split; [reflexivity|].
  assert (Hsum : Qsum (map (occupancy_of (nodes L))
                         (sorted_by_int (int_energy (nodes L))
                                        (active_local_mins L))) == 1).
  { rewrite Qsum_occupancies.
    rewrite (occupancy_sum_perm (nodes L)
               (sorted_by_int_perm (int_energy (nodes L))
                                   (active_local_mins L))).
    unfold active_local_mins. rewrite occupancy_sum_keys_where.
    - exact Htot.
    - exact Hnd.
    - intros k d Hin Hp. destruct (Hnodes k d Hin) as (_ & Ht & Hz).
      apply Hz. destruct (active d); [|reflexivity].
      simpl in Hp. apply negb_false_iff in Hp. now apply Ht. }
  split; [exact Hsum | now apply isclose_one].
Qed.

Lemma occupancies_sum_to_one_witness :
  exists snodes p0,
    get_occupancies Example.coarse = Ok (snodes, p0) /\
    Qsum p0 == 1 /\ isclose (Qsum p0) 1 = true.
Proof.
  exact (@occupancies_sum_to_one Example.collaborators Example.fresh
           Example.coarse (Example.step (1 # 2) 1 ++ [OpExpand false])
           example_partitions eq_refl eq_refl eq_refl
           ltac:(repeat constructor; simpl; lia) eq_refl).
Defined.

(** ** Writing occupancies back *)

(** Equal up to the occupancy. *)
Definition occupancy_written (d d' : node) : Prop :=
d' = set_occupancy (occupancy d') d.

Lemma keys_where_refines (R : node -> node -> Prop) (p : node -> bool)
      (ns ns' : nodes_t) :
  (forall d d', R d d' -> p d' = p d) ->
  refines R ns ns' -> keys_where p ns' = keys_where p ns.
Proof.
  intros Hp. unfold keys_where.
  induction 1 as [|[k d] [k' d'] l l' [Hk Hr] _ IH]; [reflexivity|].
  simpl in Hk, Hr. subst k'. simpl. rewrite (Hp _ _ Hr).
  destruct (p d); simpl; now rewrite IH.
Qed.

Lemma existsb_same {A : Type} (f g : A -> bool) (l : list A) :
  (forall x, f x = g x) -> existsb f l = existsb g l.
Proof.
  intros H. induction l as [|x l IH]; simpl; [reflexivity|].
  now rewrite H, IH.
Qed.

Lemma sorted_by_int_ext (f g : key -> Z) (l : list key) :
  (forall x, f x = g x) -> sorted_by_int f l = sorted_by_int g l.
Proof.
  intros H. induction l as [|x l IH]; simpl; [reflexivity|]. rewrite IH.
  generalize (sorted_by_int g l). intros s.
  induction s as [|y s IHs]; simpl; [reflexivity|].
  now rewrite !H, IHs.
Qed.

(** [set_occupancies] on distinct nodes of the graph, with enough
    values. *)
Lemma set_occupancies_spec (snodes : list key) :
  forall pt ns,
    NoDup snodes ->
    (List.length snodes <= List.length pt)%nat ->
    (forall n, In n snodes -> In n (map fst ns)) ->
    exists ns',
      set_occupancies ns snodes pt = Ok ns' /\
      map (occupancy_of ns') snodes = firstn (List.length snodes) pt /\
      (forall k, ~ In k snodes ->
                 lookup String.eqb k ns' = lookup String.eqb k ns) /\
      refines occupancy_written ns ns'.
Proof.
  induction snodes as [|n snodes IH]; intros pt ns Hnd Hlen Hin.
  - exists ns. simpl. split; [reflexivity|]. split; [reflexivity|].
    split; [auto|]. apply refines_refl. intros d. destruct d. reflexivity.
  - destruct pt as [|p pt]; [simpl in Hlen; lia|].
    inversion Hnd as [|? ? Hn Hnd']; subst. simpl.
    destruct (lookup String.eqb n ns) as [d|] eqn:Ed.
    2:{ apply nodes_lookup_None in Ed. exfalso. apply Ed, Hin. now left. }
    unfold update_node, node_at, getitem. rewrite Ed. cbn [bind].
    set (ns1 := alter String.eqb (set_occupancy p) n ns).
    assert (R1 : refines occupancy_written ns ns1).
    { apply refines_alter; [intros x; destruct x; reflexivity|].
      intros x _. reflexivity. }
    destruct (IH pt ns1 Hnd') as (ns' & Hs & Hm & Ho & R2).
    + simpl in Hlen. lia.
    + intros k Hk. unfold ns1. rewrite keys_alter. apply Hin. now right.
    + exists ns'. split; [exact Hs|]. split; [|split].
      * cbn [map List.length firstn]. rewrite Hm. f_equal.
        unfold occupancy_of. rewrite (Ho n Hn). unfold ns1.
        rewrite nodes_lookup_alter, String.eqb_refl, Ed. reflexivity.
      * intros k Hk. rewrite Ho by (intros Hi; apply Hk; now right).
        unfold ns1. rewrite nodes_lookup_alter.
        destruct (String.eqb_spec k n) as [->|Hne]; [|reflexivity].
        exfalso. apply Hk. now left.
      * eapply refines_trans; [|exact R1|exact R2].
        intros a b c -> ->. reflexivity.
Qed.

(** X19: [set_occupancies(snodes, pt)] for distinct nodes of the graph and
    at least as many values writes [pt[i]] as the occupancy of [snodes[i]]
    and changes nothing else: no other node, no other attribute, no key;
    values beyond the nodes are ignored.  With fewer values than nodes
    (all of them in the graph) it raises an [IndexError]; reaching a key
    that is not a node, it raises a [KeyError]. *)
Theorem set_occupancies_writes (ns : nodes_t) (snodes : list key)
        (pt : list Q) :
  (NoDup snodes ->
   (List.length snodes <= List.length pt)%nat ->
   (forall n, In n snodes -> In n (map fst ns)) ->
   exists ns',
     set_occupancies ns snodes pt = Ok ns' /\
     map (occupancy_of ns') snodes = firstn (List.length snodes) pt /\
     (forall k, ~ In k snodes ->
                lookup String.eqb k ns' = lookup String.eqb k ns) /\
     map fst ns' = map fst ns /\
     (forall k d', lookup String.eqb k ns' = Some d' ->
        exists d, lookup String.eqb k ns = Some d /\
                  d' = set_occupancy (occupancy d') d)) /\
  ((List.length pt < List.length snodes)%nat ->
   (forall n, In n snodes -> In n (map fst ns)) ->
   set_occupancies ns snodes pt = Raise IndexError) /\
  (forall pre n post,
      snodes = pre ++ n :: post ->
      (forall x, In x pre -> In x (map fst ns)) ->
      ~ In n (map fst ns) ->
      (List.length pre < List.length pt)%nat ->
      set_occupancies ns snodes pt = Raise KeyError).
Proof.
  split; [|split].
  - intros Hnd Hlen Hin.
    destruct (set_occupancies_spec pt ns Hnd Hlen Hin)
      as (ns' & Hs & Hm & Ho & R).
    exists ns'. split; [exact Hs|]. split; [exact Hm|]. split; [exact Ho|].
    split; [exact (refines_keys R)|].
    intros k d' Hk. eapply refines_lookup_inv in Hk; [|exact R]. exact Hk.
  - revert pt ns. induction snodes as [|n snodes IH]; intros pt ns Hlen Hin;
      [simpl in Hlen; lia|].
    destruct pt as [|p pt]; [reflexivity|]. simpl.
    destruct (lookup String.eqb n ns) as [d|] eqn:Ed.
    2:{ apply nodes_lookup_None in Ed. exfalso. apply Ed, Hin. now left. }
    unfold update_node, node_at, getitem. rewrite Ed. cbn [bind].
    apply IH; [simpl in Hlen; lia|].
    intros k Hk. rewrite keys_alter. apply Hin. now right.
  - intros pre. revert pt ns snodes.
    induction pre as [|x pre IH]; intros pt ns snodes n post -> Hpre Hn Hlen.
    + destruct pt as [|p pt]; [simpl in Hlen; lia|]. simpl.
      apply nodes_lookup_None in Hn.
      unfold update_node, node_at, getitem. now rewrite Hn.
    + destruct pt as [|p pt]; [simpl in Hlen; lia|]. simpl.
      destruct (lookup String.eqb x ns) as [d|] eqn:Ed.
      2:{ apply nodes_lookup_None in Ed. exfalso. apply Ed, Hpre.
          now left. }
      unfold update_node, node_at, getitem. rewrite Ed. cbn [bind].
      apply (IH pt _ _ n post eq_refl).
      * intros k Hk. rewrite keys_alter. apply Hpre. now right.
      * now rewrite keys_alter.
      * simpl in Hlen. lia.
Qed.

Lemma set_occupancies_writes_witness :
  exists ns',
    set_occupancies (nodes Example.two_minima) [Example.B; Example.A]
                    [1 # 4; 3 # 4; 1]
    = Ok ns' /\
    map (occupancy_of ns') [Example.B; Example.A] = [1 # 4; 3 # 4].
Proof.
  destruct (proj1 (set_occupancies_writes (nodes Example.two_minima)
                     [Example.B; Example.A] [1 # 4; 3 # 4; 1]))
    as (ns' & Hs & Hm & _).
  - repeat constructor; simpl; intros H; intuition discriminate.
  - simpl. lia.
  - intros n [<-|[<-|[]]]; simpl; auto.
  - exists ns'. split; [exact Hs | exact Hm].
Defined.

(** X20: writing back and reading again: when [get_occupancies] returns
    the nodes [snodes], then [set_occupancies(snodes, pt)] with as many
    values as nodes returns, and [get_occupancies] afterwards returns the
    same nodes in the same order together with [pt]. *)
Theorem set_then_get_occupancies (L : landscape) (snodes : list key)
        (p0 pt : list Q) :
  NoDup (map fst (nodes L)) ->
  get_occupancies L = Ok (snodes, p0) ->
  List.length pt = List.length snodes ->
  exists ns',
    set_occupancies (nodes L) snodes pt = Ok ns' /\
    get_occupancies (with_nodes ns' L) = Ok (snodes, pt).
Proof.
  intros Hnd Hget Hlen. unfold get_occupancies in Hget.
  destruct ((1 <? List.length (active_local_mins L))%nat && existsb _ _)
    eqn:Ec; [discriminate|].
  set (srt := sorted_by_int (int_energy (nodes L)) (active_local_mins L))
    in *.
  assert (Hperm : Permutation srt (active_local_mins L))
    by apply sorted_by_int_perm.
  assert (Hin : forall n, In n srt -> In n (map fst (nodes L))).
  { intros k Hk. apply active_local_mins_nodes.
    eapply Permutation_in; eauto. }
  rewrite read_occupancies in Hget by exact Hin.
  injection Hget as <- <-.
  assert (Hnds : NoDup srt).
  { apply (Permutation_NoDup (l := active_local_mins L)); [now symmetry|].
    now apply NoDup_keys_where. }
  destruct (@set_occupancies_spec srt pt (nodes L) Hnds ltac:(lia) Hin)
    as (ns' & Hs & Hm & _ & R).
  exists ns'. split; [exact Hs|].
  assert (Halm : active_local_mins (with_nodes ns' L) = active_local_mins L).
  { unfold active_local_mins. cbn [nodes with_nodes].
    apply (keys_where_refines (R := occupancy_written)); [|exact R].
    intros d d' ->. reflexivity. }
  assert (Hen : forall x, energy_at ns' x = energy_at (nodes L) x).
  { intros x. unfold energy_at.
    destruct (lookup String.eqb x ns') as [d'|] eqn:E'.
    - eapply refines_lookup_inv in E'; [|exact R].
      destruct E' as (d & Hd & ->). now rewrite Hd.
    - destruct (lookup String.eqb x (nodes L)) as [d|] eqn:E; [|reflexivity].
      eapply refines_lookup in E; [|exact R]. destruct E as (d' & Hd' & _).
      congruence. }
  unfold get_occupancies. rewrite Halm. cbn [nodes with_nodes].
  rewrite (existsb_same _ (fun x => match energy_at (nodes L) x with
                                   | Some _ => false
                                   | None => true
                                   end)) by (intros x; now rewrite Hen).
  rewrite Ec.
  rewrite (sorted_by_int_ext (int_energy ns') (int_energy (nodes L)))
    by (intros x; unfold int_energy; now rewrite Hen).
  fold srt. rewrite read_occupancies.
  - rewrite Hm, <- Hlen, firstn_all. reflexivity.
  - intros k Hk. rewrite (refines_keys R). now apply Hin.
Qed.

Lemma set_then_get_occupancies_witness :
  exists ns',
    set_occupancies (nodes Example.coarse)
                    [Example.hairpin1; Example.hairpin2] [1 # 4; 3 # 4]
    = Ok ns' /\
    get_occupancies (with_nodes ns' Example.coarse)
    = Ok ([Example.hairpin1; Example.hairpin2], [1 # 4; 3 # 4]).
Proof.
  assert (Hnd : NoDup (map fst (nodes Example.coarse))).
  { repeat constructor; simpl; intros H; intuition discriminate. }
  destruct (get_occupancies Example.coarse) as [[sn p0]|f] eqn:Hg;
    [|vm_compute in Hg; discriminate].
  assert (E : sn = [Example.hairpin1; Example.hairpin2]).
  { vm_compute in Hg. injection Hg as <- _. reflexivity. }
  subst sn.
  exact (@set_then_get_occupancies Example.coarse _ p0 [1 # 4; 3 # 4]
           Hnd Hg eq_refl).
Defined.

(** ** Faults of [prune] and [expand] *)

(** X21: [prune] needs [get_coarse_network] to have run since the nodes
    were added: when the local minimum it visits first (the active local
    minimum of least occupancy) is not in [keep], fits into [pmin] and
    still has [hiddennodes = None], as every node has that [expand] added,
    [prune] raises a [TypeError] (iterating over [None]). *)
Theorem prune_before_coarse_graining (L : landscape) (pmin : Q) (delth : Z)
        (kp : list key) (lm : key) (rest : list key) (d : node) :
  sorted_by (occupancy_of (nodes L)) (active_local_mins L) = lm :: rest ->
  mem lm kp = false ->
  lookup String.eqb lm (nodes L) = Some d ->
  occupancy d <= pmin ->
  hiddennodes d = None ->
  prune L pmin delth (Some kp) = Raise TypeError.
Proof.
  intros Hs Hk Hd Ho Hh. unfold prune. rewrite Hs.
  cbn [deactivate_lms iter bind]. rewrite Hk.
  unfold update_node at 1. unfold node_at at 1. unfold getitem. rewrite Hd.
  cbn [bind]. unfold node_at at 1. unfold getitem.
  rewrite nodes_lookup_alter, String.eqb_refl, Hd. cbn [option_map bind].
  cbn [occupancy set_pruned hiddennodes].
  assert (Hle : Qle_bool (0 + occupancy d) pmin = true).
  { apply Qle_bool_iff. lra. }
  rewrite Hle. cbn [negb]. rewrite Hh. reflexivity.
Qed.

Lemma prune_before_coarse_graining_witness :
  exists L,
    run (X := Example.collaborators) [OpExpand false] Example.fresh = Ok L /\
    prune L 1 10 (Some []) = Raise TypeError.
Proof.
  destruct (run (X := Example.collaborators) [OpExpand false] Example.fresh)
    as [L|f] eqn:Hrun; [|vm_compute in Hrun; discriminate].
  exists L. split; [reflexivity|].
  assert (E : nodes L
              = [(Example.open_chain,
                  mkNode (Some Example.open_chain) 1 "n0" (Some 0%Z) true 0
                         None None None)]).
  { vm_compute in Hrun. injection Hrun as <-. reflexivity. }
  apply (@prune_before_coarse_graining L 1 10 [] Example.open_chain []
           (mkNode (Some Example.open_chain) 1 "n0" (Some 0%Z) true 0
                   None None None)).
  - unfold active_local_mins. rewrite E. reflexivity.
  - reflexivity.
  - rewrite E. reflexivity.
  - simpl. lra.
  - reflexivity.
Defined.

(** A call that returns or fails an assertion. *)
Definition asserts_only {A : Type} (r : result A) : bool :=
match r with
| Ok _ => true
| Raise AssertionError => true
| Raise _ => false
end.

Lemma asserts_only_bind {A B : Type} (m : result A) (k : A -> result B) :
  asserts_only m = true ->
  (forall a, m = Ok a -> asserts_only (k a) = true) ->
  asserts_only (bind m k) = true.
Proof.
  intros Hm Hk. destruct m as [a|f]; simpl in *; [now apply Hk | exact Hm].
Qed.

Lemma foldM_asserts_only {A S : Type} (f : A -> S -> result S)
      (P : S -> Prop) (l : list A) :
  (forall x s, In x l -> P s ->
               asserts_only (f x s) = true /\
               forall s', f x s = Ok s' -> P s') ->
  forall s, P s -> asserts_only (foldM f l s) = true.
Proof.
  induction l as [|x l IH]; simpl; intros Hstep s Hs; [reflexivity|].
  destruct (Hstep x s (or_introl eq_refl) Hs) as [Ho Hn].
  apply asserts_only_bind; [exact Ho|]. intros s' Hs'.
  apply IH; [|now apply Hn]. intros y s0 Hy. apply Hstep. now right.
Qed.

Lemma foldM_total {A S : Type} (f : A -> S -> result S) (P : S -> Prop)
      (l : list A) :
  (forall x s, P s -> exists s', f x s = Ok s' /\ P s') ->
  forall s, P s -> exists s', foldM f l s = Ok s' /\ P s'.
Proof.
  intros Hstep. induction l as [|x l IH]; simpl; intros s Hs; [eauto|].
  destruct (Hstep x s Hs) as (s1 & H1 & P1). rewrite H1. simpl. auto.
Qed.

Lemma filterM_total {A : Type} (p : A -> result bool) (l : list A) :
  (forall x, In x l -> exists b, p x = Ok b) ->
  exists l', filterM p l = Ok l'.
Proof.
  induction l as [|x l IH]; simpl; intros H; [eauto|].
  destruct (H x (or_introl eq_refl)) as [b Hb]. rewrite Hb. simpl.
  destruct IH as [l' Hl']; [auto|]. rewrite Hl'. simpl. eauto.
Qed.

(** The state of [expand] relative to the landscape [L] it started from:
    the edges are those of [L] and no node of [L] is missing. *)
Definition extends (L : landscape) (st : landscape * list key * list key)
  : Prop :=
edges (fst (fst st)) = edges L /\
forall x, has_node L x = true -> has_node (fst (fst st)) x = true.

(** [discover] never fails, and the key it was given is a node
    afterwards. *)
Lemma discover_total {X : Externals} (L : landscape) (c : bool) (k : key)
      (en : option Z) (st : landscape * list key * list key) :
  extends L st ->
  exists st', discover c k en st = Ok st' /\ extends L st' /\
              has_node (fst (fst st')) k = true.
Proof.
  destruct st as [[M nn] on]. intros [He Hn]. cbn [fst] in He, Hn.
  unfold discover. destruct (has_node M k) eqn:Hk; cbn [negb].
  - unfold has_node, has_key in Hk. unfold node_at, getitem.
    destruct (lookup String.eqb k (nodes M)) as [d|] eqn:Ed; [|discriminate].
    cbn [bind]. destruct (active d); cbn [negb].
    + eexists. split; [reflexivity|]. unfold extends, has_node, has_key.
      cbn [fst]. rewrite Ed. auto.
    + unfold update_node, node_at, getitem. rewrite Ed. cbn [bind].
      eexists. split; [reflexivity|]. unfold extends, has_node.
      cbn [fst nodes edges with_nodes].
      split; [split; [exact He|]|].
      * intros x Hx. apply Hn in Hx. unfold has_node in Hx.
        rewrite nodes_has_key_true in *. now rewrite keys_alter.
      * unfold has_key. rewrite nodes_lookup_alter, String.eqb_refl, Ed.
        reflexivity.
  - unfold addnode. rewrite Hk. cbn [negb assert bind].
    set (M1 := with_nodes _ _).
    assert (Hl : lookup String.eqb k (nodes M1)
                 = Some (mkNode (Some k) 0 (auto_identity M)
                           (match en with
                            | Some e => Some e
                            | None => Some (fc_eval_structure (sequence M)
                                                              (md M) k)
                            end) true 0 None None None)).
    { unfold M1. cbn [nodes with_nodes with_nodeID].
      rewrite (lookup_setitem String.eqb String.eqb_spec), String.eqb_refl.
      destruct en; reflexivity. }
    assert (Hc : (if c then d <- node_at k (nodes M1) ;; assert (active d)
                  else Ok tt) = Ok tt).
    { destruct c; [|reflexivity]. unfold node_at, getitem. rewrite Hl.
      reflexivity. }
    rewrite Hc. cbn [bind]. eexists. split; [reflexivity|].
    unfold extends, has_node. cbn [fst].
    split; [split; [exact He|]|].
    + intros x Hx. apply Hn in Hx. unfold has_node, has_key in Hx |- *.
      unfold M1. cbn [nodes with_nodes with_nodeID].
      rewrite (lookup_setitem String.eqb String.eqb_spec).
      destruct (String.eqb x k); [reflexivity | exact Hx].
    + unfold has_key. now rewrite Hl.
Qed.

(** X22: on a landscape built from an empty one by [expand],
    [get_coarse_network], [prune] and [set_occupancies], a further [expand]
    returns or fails an assertion (an empty structure among the guide
    nodes, an energy that differs from the stored one, an edge to a
    structure that is no node): it raises no [KeyError] and no
    [TypeError]. *)
Theorem expand_fails_by_assertion_only {X : Externals} (L0 L : landscape)
        (ops : list op) (pr : bool) :
  nodes L0 = [] -> edges L0 = [] ->
  run ops L0 = Ok L ->
  (exists r, expand L pr = Ok r) \/ expand L pr = Raise AssertionError.
Proof.
  intros Hn0 He0 Hrun.
  destruct (@run_well_formed X ops L0 L Hn0 He0 Hrun) as (_ & _ & Hedges).
  assert (H : asserts_only (expand L pr) = true).
  2:{ destruct (expand L pr) as [r|[]]; try discriminate; eauto. }
  unfold expand. fold (lengthened L).
  assert (Hlen : extends L (lengthened L, [], [])).
  { unfold extends, lengthened, has_node. cbv zeta. cbn [fst].
    destruct (_ <? _)%nat; auto. }
  set (L1 := lengthened L) in *.
  destruct (List.length (nodes L1) =? 0)%nat eqn:Ez.
  { unfold addnode, has_node, has_key.
    destruct (nodes L1) as [|kd l]; [|discriminate]. reflexivity. }
  match goal with
  | |- asserts_only (bind (discover true ?k None _) _) = true =>
      destruct (discover_total true k None Hlen) as (st1 & H1 & E1 & _)
  end.
  rewrite H1. cbn [bind].
  match goal with
  | |- asserts_only (bind (foldM ?f ?l st1) _) = true =>
      destruct (@foldM_total _ _ f (extends L) l) with (s := st1)
        as (st2 & H2 & E2); [|exact E1|]
  end.
  { intros fns s Hs. apply foldM_total; [|exact Hs].
    intros fn s0 Hs0.
    match goal with
    | |- exists s', discover true ?k None s0 = Ok s' /\ _ =>
        destruct (discover_total true k None Hs0) as (s' & Hd & Hx & _)
    end.
    eauto. }
  rewrite H2. cbn [bind]. destruct st2 as [[L2 nn2] on2].
  destruct (get_guide_graph _ _ _) as [gnodes gedges].
  apply asserts_only_bind.
  { destruct (forallb _ gnodes); reflexivity. }
  intros u _.
  match goal with
  | |- asserts_only (bind (foldM ?f ?l ?s0) _) = true =>
      destruct (@foldM_total _ _ f (extends L) l) with (s := s0)
        as (st3 & H3 & E3); [|exact E2|]
  end.
  { intros g s Hs.
    match goal with
    | |- exists s', discover false ?k None s = Ok s' /\ _ =>
        destruct (discover_total false k None Hs) as (s' & Hd & Hx & _)
    end.
    eauto. }
  rewrite H3. cbn [bind]. destruct st3 as [[L3 nn3] on3].
  destruct E3 as [He3 Hn3]. cbn [fst] in He3, Hn3.
  destruct (@filterM_total _ (seed_edge (nodes L3)) (edges L3))
    as (edata & Hf).
  { intros [xy e] Hin. rewrite He3 in Hin.
    destruct (Hedges _ _ Hin) as (A & B & _ & se & D).
    apply Hn3 in A. apply Hn3 in B. unfold has_node, has_key in A, B.
    unfold seed_edge, node_at, getitem. cbn [fst snd].
    destruct (lookup String.eqb (fst xy) (nodes L3)) as [d0|];
      [|discriminate].
    destruct (lookup String.eqb (snd xy) (nodes L3)) as [d1|];
      [|discriminate].
    cbn [bind]. rewrite D. destruct (active d0); [|eauto].
    destruct (active d1); [|eauto]. destruct se; eauto. }
  rewrite Hf. cbn [bind].
  destruct (neighborhood_flooding _ _ _ _ _) as [ndata edata'].
  apply asserts_only_bind.
  - apply (foldM_asserts_only _ (extends L)).
    + intros ne s _ Hs.
      destruct (discover_total false (fst ne) (Some (snd ne)) Hs)
        as (s' & Hd & Hx & Hk).
      rewrite Hd. cbn [bind]. unfold node_at, getitem.
      unfold has_node, has_key in Hk.
      destruct (lookup String.eqb (fst ne) (nodes (fst (fst s'))))
        as [d|]; [|discriminate].
      cbn [bind]. split.
      * destruct (match energy d with
                  | Some e => Z.eqb e (snd ne)
                  | None => false
                  end); reflexivity.
      * intros s'' Hs''.
        destruct (match energy d with
                  | Some e => Z.eqb e (snd ne)
                  | None => false
                  end); [|discriminate].
        simpl in Hs''. injection Hs'' as <-. exact Hx.
    + split; [exact He3 | exact Hn3].
  - intros [[L4 nn4] on4] _.
    apply asserts_only_bind; [|reflexivity].
    apply (foldM_asserts_only _ (fun _ => True)); [|exact I].
    intros xyse s _ _. split; [|auto]. unfold addedge.
    destruct (has_node s (fst (fst xyse))); [|reflexivity].
    destruct (has_node s (snd (fst xyse))); reflexivity.
Qed.

Lemma expand_fails_by_assertion_only_witness :
  (exists r, expand (X := Example.collaborators) Example.coarse false = Ok r)
  \/ expand (X := Example.collaborators) Example.coarse false
     = Raise AssertionError.
Proof.
  exact (@expand_fails_by_assertion_only Example.collaborators Example.fresh
           Example.coarse
           (Example.step (1 # 2) 1 ++ [OpExpand false; OpCoarse]) false
           eq_refl eq_refl eq_refl).
Defined.

(** ** The transfer targets that [prune] records *)

Lemma In_set_of_list (k : key) (l : list key) :
  In k (set_of_list l) <-> In k l.
Proof.
  unfold set_of_list.
  assert (H : forall s, In k (fold_left (fun s x => set_add x s) l s)
                        <-> In k s \/ In k l).
  { induction l as [|x l IH]; intros s; simpl; [tauto|].
    rewrite IH, In_set_add. intuition. }
  rewrite H. simpl. tauto.
Qed.

(** The node [y] is an active node of [ns]. *)
Definition active_in (ns : nodes_t) (y : key) : Prop :=
exists d, lookup String.eqb y ns = Some d /\ active d = true.

Lemma scan_cg_edges_yields (ns : nodes_t) (lm : key) (F : list key)
      (es : list (key * key)) :
  forall found ys rem found' ys' rem',
    scan_cg_edges ns lm F es found ys rem = Ok (found', ys', rem') ->
    (forall y, In y ys -> active_in ns y) ->
    forall y, In y ys' -> active_in ns y.
Proof.
  induction es as [|[x y0] es IH]; intros found ys rem found' ys' rem' H Hys;
    simpl in H.
  - injection H as _ <- _. exact Hys.
  - destruct (negb (String.eqb x y0)); simpl in H; [|discriminate].
    destruct (String.eqb x lm && negb (mem y0 F)).
    + unfold node_at, getitem in H.
      destruct (lookup String.eqb y0 ns) as [d|] eqn:Ed; simpl in H;
        [|discriminate].
      destruct (active d) eqn:Ea.
      * eapply IH; [exact H|]. intros y Hy. apply in_app_iff in Hy.
        destruct Hy as [Hy|[<-|[]]]; [auto|]. exists d. auto.
      * eapply IH; eauto.
    + eapply IH; eauto.
Qed.

Lemma get_active_nbrs_rec_yields (ce : list (key * key)) (ns : nodes_t) :
  forall depth lm F ys F',
    get_active_nbrs_rec depth ce ns lm F = Ok (ys, F') ->
    forall y, In y ys -> active_in ns y.
Proof.
  induction depth as [|depth IH]; intros lm F ys F' H; simpl in H;
    [discriminate|].
  apply bind_Ok in H. destruct H as [[[found yielded] remaining] [Hs H]].
  assert (Hy0 : forall y, In y yielded -> active_in ns y).
  { eapply scan_cg_edges_yields; [exact Hs|]. intros y []. }
  destruct (negb found).
  - revert H.
    apply (foldM_invariant _
             (fun yf => forall y, In y (fst yf) -> active_in ns y));
      [|exact Hy0].
    intros r [ys0 F0] [ys1 F1] _ Hi Hstep. cbn [fst snd] in *.
    apply bind_Ok in Hstep. destruct Hstep as [dr [_ Hstep]].
    apply bind_Ok in Hstep. destruct Hstep as [[] [_ Hstep]].
    apply bind_Ok in Hstep. destruct Hstep as [[ys2 F2] [Hrec Hstep]].
    injection Hstep as <- _. intros y Hy. apply in_app_iff in Hy.
    destruct Hy as [Hy|Hy]; [auto|]. eapply IH; eauto.
  - injection H as <- _. exact Hy0.
Qed.

Lemma active_in_occt (ns ns' : nodes_t) (y : key) :
  refines occt_rel ns ns' -> active_in ns y -> active_in ns' y.
Proof.
  intros R (d & Hd & Ha). eapply refines_lookup in Hd; [|exact R].
  destruct Hd as (d' & Hd' & Hrel). exists d'. split; [exact Hd'|].
  unfold occt_rel in Hrel. rewrite Hrel. exact Ha.
Qed.

(** The second loop of [prune]: every node of the list ends with a
    non-empty set of transfer targets, all of them active nodes. *)
Lemma set_occtransfer_targets (ce : cg_edges_t) (lms : list key) :
  forall ns ns',
    foldM (set_occtransfer_of ce) lms ns = Ok ns' ->
    forall k, In k lms ->
      exists d' l, lookup String.eqb k ns' = Some d' /\
                   occtransfer d' = Some l /\ l <> [] /\
                   forall t, In t l -> active_in ns' t.
Proof.
  induction lms as [|lm rest IH]; simpl; intros ns ns' H k Hk;
    [contradiction|].
  apply bind_Ok in H. destruct H as [ns1 [H1 H2]].
  destruct (in_dec string_dec k rest) as [Hin|Hnin]; [eapply IH; eauto|].
  destruct Hk as [<-|Hk]; [|contradiction].
  pose proof (set_occtransfer_loop _ _ _ H2) as (R2 & Hf & _).
  unfold set_occtransfer_of in H1.
  apply bind_Ok in H1. destruct H1 as [d [Hd H1]]. apply node_at_Ok in Hd.
  apply bind_Ok in H1. destruct H1 as [u [_ H1]].
  apply bind_Ok in H1. destruct H1 as [ys [Hys H1]].
  apply bind_Ok in H1. destruct H1 as [ns2 [Hu H1]].
  apply bind_Ok in H1. destruct H1 as [u' [Hlen H1]]. injection H1 as <-.
  apply assert_Ok in Hlen. apply update_node_Ok in Hu.
  destruct Hu as [d0 [Hd0 ->]]. assert (d0 = d) by congruence. subst d0.
  unfold get_active_nbrs in Hys. apply bind_Ok in Hys.
  destruct Hys as [[ys' F'] [Hrec Hys]]. injection Hys as <-.
  pose proof (get_active_nbrs_rec_yields _ _ _ _ _ Hrec) as Hact.
  rewrite (Hf _ Hnin), nodes_lookup_alter, String.eqb_refl, Hd.
  cbn [option_map]. eexists. eexists. split; [reflexivity|].
  cbn [occtransfer set_occtransfer]. split; [reflexivity|]. split.
  - intros E. rewrite E in Hlen. discriminate.
  - intros t Ht. apply (proj1 (In_set_of_list _ _)) in Ht.
    apply (active_in_occt R2).
    destruct (Hact t Ht) as (dt & Hdt & Ha).
    unfold active_in. rewrite nodes_lookup_alter.
    destruct (String.eqb_spec t lm) as [->|Hne].
    + rewrite Hd. cbn [option_map]. eexists. split; [reflexivity|].
      assert (dt = d) by congruence. subst dt. exact Ha.
    + eauto.
Qed.

(** X23: after a [prune] with [delth >= 0], every node that was active
    before the call, is inactive afterwards and holds occupancy has a
    non-empty set [occtransfer], and every node of that set is an active
    node of the graph: the transfer that the next [get_coarse_network]
    performs finds its targets. *)
Theorem prune_sets_transfer_targets (L L' : landscape) (pmin : Q)
        (delth : Z) (keep : option (list key)) (pn dn : list key) :
  NoDup (map fst (nodes L)) ->
  (0 <= delth)%Z ->
  prune L pmin delth keep = Ok (L', pn, dn) ->
  forall k d d',
    lookup String.eqb k (nodes L) = Some d -> active d = true ->
    lookup String.eqb k (nodes L') = Some d' -> active d' = false ->
    ~ occupancy d' == 0 ->
    exists l, occtransfer d' = Some l /\ l <> [] /\
              forall t, In t l -> active_in (nodes L') t.
Proof.
  intros Hnd Hdel H k d d' Hd Ha Hd' Ha' Ho. apply prune_stages in H.
  destruct H as (ns1 & lms' & ns2 & ns3 & es & H1 & H2 & H3 & ->).
  pose proof (deactivate_lms_spec _ _ _ _ _ _ H1) as (R1 & _ & _ & O1).
  pose proof (set_occtransfer_targets _ _ _ H2) as Htg.
  apply set_occtransfer_loop in H2. destruct H2 as (R2 & _ & _).
  assert (Hk2 : map fst ns2 = map fst (nodes L)).
  { rewrite (refines_keys R2). eapply refines_keys; eauto. }
  assert (Hnd2 : NoDup (map fst ns2)) by (now rewrite Hk2).
  apply age_loop_spec in H3; [|exact Hnd2|exact Hnd2].
  destruct H3 as (_ & L1 & _).
  cbn [nodes with_nodes with_edges] in *.
  assert (Hin2 : In k (map fst ns2)).
  { rewrite Hk2. eapply nodes_lookup_key; eauto. }
  rewrite (L1 _ Hin2) in Hd'.
  destruct (evicted delth ns2 k); [discriminate|].
  destruct (lookup String.eqb k ns2) as [d2|] eqn:Ed2; [|discriminate].
  simpl in Hd'. injection Hd' as <-.
  rewrite aged_active in Ha'. rewrite aged_occupancy in Ho.
  pose proof Ed2 as Ed1. eapply refines_lookup_inv in Ed1; [|exact R2].
  destruct Ed1 as (d1 & Ed1 & Hrel). unfold occt_rel in Hrel.
  assert (Ha1 : active d1 = false) by (rewrite Hrel in Ha'; exact Ha').
  assert (Ho1 : occupancy d1 = occupancy d2) by (rewrite Hrel; reflexivity).
  destruct (O1 _ _ Ed1) as (d0 & Hd0 & _ & Hcase).
  assert (d0 = d) by congruence. subst d0.
  destruct (Hcase Ha1) as [Hx|[Hx|[Hx _]]];
    [congruence | rewrite Ho1 in Hx; contradiction|].
  destruct (Htg k Hx) as (d2' & l & Hd2' & Hl & Hne & Hact).
  assert (d2' = d2) by congruence. subst d2'.
  exists l. split; [unfold aged; destruct (active d2); exact Hl|].
  split; [exact Hne|].
  intros t Ht. destruct (Hact t Ht) as (dt & Hdt & Hat).
  exists (aged dt). rewrite aged_active. split; [|exact Hat].
  rewrite L1 by (eapply nodes_lookup_key; eauto).
  unfold evicted. rewrite Hdt, aged_pruned, Hat.
  replace (delth <? 0)%Z with false by (symmetry; apply Z.ltb_ge; lia).
  reflexivity.
Qed.

Lemma prune_sets_transfer_targets_witness :
  exists d' l,
    lookup String.eqb Example.B (nodes Example.two_minima_pruned) = Some d' /\
    occtransfer d' = Some l /\ l <> [] /\
    forall t, In t l -> active_in (nodes Example.two_minima_pruned) t.
Proof.
  assert (Hnd : NoDup (map fst (nodes Example.two_minima))).
  { repeat constructor; simpl; intros H; intuition discriminate. }
  destruct (prune Example.two_minima (3 # 10) 10 (Some []))
    as [[[L' pn] dn]|f] eqn:Hpr; [|vm_compute in Hpr; discriminate].
  assert (E : L' = Example.two_minima_pruned).
  { vm_compute in Hpr. injection Hpr as <- _ _. reflexivity. }
  subst L'.
  destruct (@prune_sets_transfer_targets Example.two_minima
              Example.two_minima_pruned (3 # 10) 10 (Some []) pn dn Hnd
              ltac:(lia) Hpr Example.B
              (mkNode (Some Example.B) (3 # 10) "n1" (Some (-40)%Z) true 0
                      (Some []) (Some []) None)
              (mkNode (Some Example.B) (3 # 10) "n1" (Some (-40)%Z) false 1
                      (Some []) (Some []) (Some [Example.A]))
              eq_refl eq_refl eq_refl eq_refl
              ltac:(simpl; intros H; unfold Qeq in H; simpl in H; lia))
    as (l & Hl & Hne & Hact).
  eexists. exists l. split; [reflexivity|]. auto.
Defined.

(** ** The transfer loop of [get_coarse_network] finds its targets *)

(** Every inactive node that holds occupancy has a set of transfer
    targets, and each of them is an active node of the graph. *)
Definition transfers_ready (ns : nodes_t) : Prop :=
forall k d, lookup String.eqb k ns = Some d -> active d = false ->
            ~ occupancy d == 0 ->
            exists l, occtransfer d = Some l /\
                      forall t, In t l -> active_in ns t.

Lemma drained_transfers_ready (ns : nodes_t) :
  drained ns -> transfers_ready ns.
Proof. intros Hd k d Hk Ha Ho. exfalso. apply Ho. eapply Hd; eauto. Qed.

Lemma active_in_T_rel (ns ns' : nodes_t) (y : key) :
  refines T_rel ns ns' -> active_in ns y -> active_in ns' y.
Proof.
  intros R (d & Hd & Ha). eapply refines_lookup in Hd; [|exact R].
  destruct Hd as (d' & Hd' & (_ & A & _)). exists d'. split; [exact Hd'|].
  congruence.
Qed.

Lemma transfers_ready_T_rel (ns ns' : nodes_t) :
  refines T_rel ns ns' -> transfers_ready ns -> transfers_ready ns'.
Proof.
  intros R H k d' Hk Ha Ho.
  eapply refines_lookup_inv in Hk; [|exact R].
  destruct Hk as (d & Hd & ((_ & _ & Et) & A & O)).
  assert (Ha0 : active d = false) by congruence.
  destruct (O Ha0) as [E|E].
  - destruct (H k d Hd Ha0) as (l & Hl & Ht);
      [rewrite <- E; exact Ho|].
    exists l. split; [congruence|].
    intros t Hin. eapply active_in_T_rel; eauto.
  - exfalso. apply Ho. rewrite E. reflexivity.
Qed.

Lemma grows_active_in (ns ns' : nodes_t) (y : key) :
  grows ns ns' -> active_in ns y -> active_in ns' y.
Proof.
  induction 1 as [|ns ns' k _ IH|ns ns' k d _ IH _ _]; intros Hy.
  - exact Hy.
  - destruct (IH Hy) as (dy & Hdy & Hay). unfold active_in.
    rewrite nodes_lookup_alter. destruct (String.eqb_spec y k) as [->|Hne].
    + rewrite Hdy. simpl. eexists. split; [reflexivity | reflexivity].
    + eauto.
  - destruct (IH Hy) as (dy & Hdy & Hay). exists dy.
    split; [|exact Hay]. rewrite (lookup_app String.eqb), Hdy. reflexivity.
Qed.

Lemma grows_transfers_ready (ns ns' : nodes_t) :
  grows ns ns' -> transfers_ready ns -> transfers_ready ns'.
Proof.
  intros Hg H k d' Hk Ha Ho.
  destruct (grows_origin Hg _ Hk) as [(d & Hd & [-> | ->])|(_ & Hact & _)].
  - destruct (H k d Hd Ha Ho) as (l & Hl & Ht). exists l.
    split; [exact Hl|]. intros t Hin. eapply grows_active_in; eauto.
  - simpl in Ha. discriminate.
  - congruence.
Qed.

(** [prune] on a drained graph leaves every occupied inactive node with
    active transfer targets. *)
Lemma prune_transfers_ready (L L' : landscape) (pmin : Q) (delth : Z)
      (keep : option (list key)) (pn dn : list key) :
  NoDup (map fst (nodes L)) -> drained (nodes L) -> (0 <= delth)%Z ->
  prune L pmin delth keep = Ok (L', pn, dn) ->
  transfers_ready (nodes L').
Proof.
  intros Hnd Hdr Hdel H k d' Hd' Ha' Ho. apply prune_stages in H.
  destruct H as (ns1 & lms' & ns2 & ns3 & es & H1 & H2 & H3 & ->).
  pose proof (deactivate_lms_spec _ _ _ _ _ _ H1) as (R1 & _ & _ & O1).
  pose proof (set_occtransfer_targets _ _ _ H2) as Htg.
  apply set_occtransfer_loop in H2. destruct H2 as (R2 & _ & _).
  assert (Hk2 : map fst ns2 = map fst (nodes L)).
  { rewrite (refines_keys R2). eapply refines_keys; eauto. }
  assert (Hnd2 : NoDup (map fst ns2)) by (now rewrite Hk2).
  apply age_loop_spec in H3; [|exact Hnd2|exact Hnd2].
  destruct H3 as (Hnd3 & L1 & L1' & _).
  cbn [nodes with_nodes with_edges] in *.
  assert (Hin2 : In k (map fst ns2)).
  { destruct (in_dec string_dec k (map fst ns2)) as [Hin|Hnin];
      [exact Hin|].
    rewrite (L1' _ Hnin) in Hd'. apply nodes_lookup_key in Hd'.
    contradiction. }
  rewrite (L1 _ Hin2) in Hd'.
  destruct (evicted delth ns2 k); [discriminate|].
  destruct (lookup String.eqb k ns2) as [d2|] eqn:Ed2; [|discriminate].
  simpl in Hd'. injection Hd' as <-.
  rewrite aged_active in Ha'. rewrite aged_occupancy in Ho.
  pose proof Ed2 as Ed1. eapply refines_lookup_inv in Ed1; [|exact R2].
  destruct Ed1 as (d1 & Ed1 & Hrel). unfold occt_rel in Hrel.
  assert (Ha1 : active d1 = false) by (rewrite Hrel in Ha'; exact Ha').
  assert (Ho1 : occupancy d1 = occupancy d2) by (rewrite Hrel; reflexivity).
  destruct (O1 _ _ Ed1) as (d0 & Hd0 & _ & Hcase).
  destruct (Hcase Ha1) as [Hx|[Hx|[Hx _]]].
  - exfalso. apply Ho. rewrite <- Ho1.
    pose proof Hd0 as Hr0. eapply refines_lookup in Hr0; [|exact R1].
    destruct Hr0 as (d1' & Hd1' & (_ & Eo & _)).
    assert (d1' = d1) by congruence. subst d1'. rewrite Eo.
    eapply Hdr; eauto.
  - rewrite Ho1 in Hx. contradiction.
  - destruct (Htg k Hx) as (d2' & l & Hd2' & Hl & _ & Hact).
    assert (d2' = d2) by congruence. subst d2'.
    exists l. split; [unfold aged; destruct (active d2); exact Hl|].
    intros t Ht. destruct (Hact t Ht) as (dt & Hdt & Hat).
    exists (aged dt). rewrite aged_active. split; [|exact Hat].
    rewrite L1 by (eapply nodes_lookup_key; eauto).
    unfold evicted. rewrite Hdt, aged_pruned, Hat.
    replace (delth <? 0)%Z with false by (symmetry; apply Z.ltb_ge; lia).
    reflexivity.
Qed.

(** The inner loop of the transfer completes when its targets are
    active. *)
Lemma transfer_loop_total (n : key) (dn : node) (l targets : list key) :
  forall ns,
    lookup String.eqb n ns = Some dn -> active dn = false ->
    occtransfer dn = Some l ->
    (forall t, In t targets -> active_in ns t) ->
    exists ns', foldM (transfer_to n) targets ns = Ok ns'.
Proof.
  induction targets as [|tn targets IH]; intros ns Hn Ha Hl Hact; simpl;
    [eauto|].
  destruct (Hact tn (or_introl eq_refl)) as (dt & Hdt & Hat).
  assert (Hne : n <> tn).
  { intros ->. rewrite Hn in Hdt. injection Hdt as <-. congruence. }
  assert (E : transfer_to n tn ns
              = Ok (alter String.eqb
                          (add_occupancy (occupancy dn / Qlen l)) tn ns)).
  { unfold transfer_to, update_node, node_at, getitem.
    rewrite Hdt. simpl. rewrite Hat. simpl. rewrite Hn. simpl.
    rewrite Hl. simpl. reflexivity. }
  rewrite E. simpl. apply IH; auto.
  - rewrite nodes_lookup_alter.
    destruct (String.eqb_spec n tn); [contradiction | exact Hn].
  - intros t Hin. destruct (Hact t (or_intror Hin)) as (d & Hd & Had).
    unfold active_in. rewrite nodes_lookup_alter.
    destruct (String.eqb_spec t tn) as [->|_]; [|eauto].
    rewrite Hd. simpl. eexists. split; [reflexivity | exact Had].
Qed.

(** One round of the first loop of [get_coarse_network] completes. *)
Lemma reset_and_transfer_total (n : key) (ns : nodes_t) :
  In n (map fst ns) -> transfers_ready ns ->
  exists ns', reset_and_transfer n ns = Ok ns'.
Proof.
  intros Hin Hr.
  destruct (lookup String.eqb n ns) as [d0|] eqn:Hd0;
    [|apply nodes_lookup_None in Hd0; contradiction].
  set (dc := set_hiddennodes (Some []) (set_lminreps (Some []) d0)).
  set (nsb := alter String.eqb (set_hiddennodes (Some [])) n
                (alter String.eqb (set_lminreps (Some [])) n ns)).
  assert (Hnb : lookup String.eqb n nsb = Some dc).
  { unfold nsb. now rewrite !nodes_lookup_alter, String.eqb_refl, Hd0. }
  assert (Hact : forall t, active_in ns t -> active_in nsb t).
  { intros t (d & Hd & Ha). unfold active_in, nsb.
    rewrite !nodes_lookup_alter.
    destruct (String.eqb t n) eqn:Et; [|eauto].
    apply String.eqb_eq in Et. subst t. rewrite String.eqb_refl, Hd.
    simpl. eexists. split; [reflexivity | exact Ha]. }
  assert (E : reset_and_transfer n ns
              = if negb (active dc) && negb (Qeq_bool (occupancy dc) 0)
                then targets <- iter (occtransfer dc) ;;
                     ns' <- foldM (transfer_to n) targets nsb ;;
                     update_node (set_occupancy 0) n ns'
                else Ok nsb).
  { unfold reset_and_transfer, update_node, node_at, getitem.
    rewrite Hd0. simpl.
    rewrite nodes_lookup_alter, String.eqb_refl, Hd0. simpl.
    fold nsb. rewrite Hnb. reflexivity. }
  rewrite E.
  destruct (negb (active dc) && negb (Qeq_bool (occupancy dc) 0)) eqn:Ec;
    [|eauto].
  apply andb_true_iff in Ec. destruct Ec as [Eact Eocc].
  apply negb_true_iff in Eact, Eocc.
  destruct (Hr n d0 Hd0 Eact) as (l & Hl & Ht).
  { intros Hz. apply Qeq_bool_neq in Eocc. apply Eocc. exact Hz. }
  change (occtransfer dc) with (occtransfer d0). rewrite Hl. simpl.
  destruct (@transfer_loop_total n dc l l nsb Hnb Eact Hl) as [nsc Hc].
  { intros t Hin'. apply Hact, Ht, Hin'. }
  rewrite Hc. simpl.
  destruct (transfer_loop _ _ _ Hnb Eact Hl Hc) as (Hnc & _ & _).
  unfold update_node, node_at, getitem. rewrite Hnc. simpl. eauto.
Qed.

Lemma foldM_total_in {A S : Type} (f : A -> S -> result S) (P : S -> Prop)
      (l : list A) :
  (forall x s, In x l -> P s -> exists s', f x s = Ok s' /\ P s') ->
  forall s, P s -> exists s', foldM f l s = Ok s' /\ P s'.
Proof.
  induction l as [|x l IH]; simpl; intros Hstep s Hs; [eauto|].
  destruct (Hstep x s (or_introl eq_refl) Hs) as (s1 & H1 & P1).
  rewrite H1. simpl. apply IH; auto.
Qed.

(** The first loop of [get_coarse_network] completes on a graph whose
    transfers are ready. *)
Lemma transfer_inactive_total (ns : nodes_t) :
  transfers_ready ns -> exists ns', transfer_inactive ns = Ok ns'.
Proof.
  intros Hr. unfold transfer_inactive.
  destruct (@foldM_total_in _ _ reset_and_transfer
              (fun s => refines T_rel ns s) (map fst ns)) with (s := ns)
    as (ns' & H & _); [| apply refines_refl, T_rel_refl | eauto].
  intros n s Hin R.
  destruct (@reset_and_transfer_total n s) as [s' Hs'].
  - rewrite (refines_keys R). exact Hin.
  - eapply transfers_ready_T_rel; eauto.
  - exists s'. split; [exact Hs'|].
    eapply refines_trans; [exact T_rel_trans | exact R |].
    apply reset_and_transfer_step in Hs'. apply Hs'.
Qed.

(** One call in step order keeps the transfers ready. *)
Lemma exec_transfers_ready {X : Externals} (p : phase) (o : op)
      (ops : list op) (L L' : landscape) :
  coarse_graining_partitions ->
  conserved p L -> transfers_ready (nodes L) ->
  step_order (phase_pos p) (o :: ops) = true ->
  delays_eviction (o :: ops) ->
  exec o L = Ok L' ->
  transfers_ready (nodes L').
Proof.
  intros Hpart Hc Hr Hord Hdel H.
  inversion Hdel as [|? ? Hd1 _]; subst.
  assert (Hexp : forall pr, o = OpExpand pr -> transfers_ready (nodes L')).
  { intros pr ->. simpl in H.
    apply bind_Ok in H. destruct H as [[[[L1 nn] on] t] [H1 H]].
    injection H as <-. apply expand_nodes in H1.
    destruct H1 as [(_ & k & d & E & _ & Ea & _)|(_ & Hg)].
    - rewrite E. intros k' d' Hk Hina. simpl in Hk.
      destruct (String.eqb k' k); [|discriminate]. congruence.
    - eapply grows_transfers_ready; eauto. }
  destruct p; simpl in Hord;
    destruct o as [pr| |pmin delth keep|snodes pt]; try discriminate;
    try (apply (Hexp pr eq_refl)).
  - simpl in H. apply bind_Ok in H. destruct H as [[[L1 n] m] [H1 H]].
    injection H as <-. destruct Hc as (Hnd & _ & _).
    apply gcn_spec in H1; [|exact Hpart|exact Hnd].
    destruct H1 as (_ & D & _). apply drained_transfers_ready. exact D.
  - simpl in H. apply bind_Ok in H. destruct H as [[[L1 pn] dn] [H1 H]].
    injection H as <-. destruct Hc as (Hnd & _ & Hdr).
    eapply prune_transfers_ready; [exact Hnd | exact Hdr | | exact H1].
    lia.
Qed.

Lemma run_transfers_ready {X : Externals} (ops : list op) :
  coarse_graining_partitions ->
  forall p L L',
    conserved p L -> transfers_ready (nodes L) ->
    step_order (phase_pos p) ops = true ->
    delays_eviction ops ->
    run ops L = Ok L' ->
    transfers_ready (nodes L').
Proof.
  intros Hpart. induction ops as [|o ops IH]; intros p L L' Hc Hr Hord Hdel H.
  - simpl in H. injection H as <-. exact Hr.
  - unfold run in H. simpl in H. apply bind_Ok in H.
    destruct H as [L1 [H1 H]].
    destruct (@exec_conserved X p o ops L L1 Hpart Hc Hord Hdel H1)
      as (p1 & Hc1 & _ & _ & Hord1).
    pose proof (@exec_transfers_ready X p o ops L L1 Hpart Hc Hr Hord Hdel H1)
      as Hr1.
    inversion Hdel as [|? ? _ Hdel']; subst.
    exact (IH _ _ _ Hc1 Hr1 Hord1 Hdel' H).
Qed.

(** X24: after any sequence of calls in step order ([expand],
    [get_coarse_network], [prune], and again) on a fresh landscape in which
    every [prune] has [delth >= 1], the first loop of [get_coarse_network]
    (lines 305-314) runs to its end: every key of an [occtransfer] set it
    reads is a node of the graph and passes the assertion that the target
    is active.  The loop leaves no occupancy on an inactive node and
    does not change the sum of the occupancies.  The coarse-graining
    collaborator is assumed to return disjoint representatives and hidden
    nodes. *)
Theorem transfer_targets_are_active {X : Externals} (L0 L : landscape)
        (ops : list op) :
  coarse_graining_partitions ->
  nodes L0 = [] ->
  step_order 0 ops = true ->
  delays_eviction ops ->
  run ops L0 = Ok L ->
  exists ns, transfer_inactive (nodes L) = Ok ns /\
             drained ns /\
             total_occupancy ns == total_occupancy (nodes L).
Proof.
  intros Hpart Hnil Hord Hdel Hrun.
  assert (Hr0 : transfers_ready (nodes L0)).
  { rewrite Hnil. intros k d Hk. discriminate. }
  pose proof (@run_transfers_ready X ops Hpart Fresh L0 L Hnil Hr0 Hord Hdel
                Hrun) as Hr.
  destruct (@run_conserved X ops Hpart Fresh L0 L Hnil Hord Hdel Hrun)
    as (p' & Hc & _ & _).
  destruct (transfer_inactive_total Hr) as [ns Hns].
  exists ns. split; [exact Hns|].
  apply transfer_inactive_spec in Hns. destruct Hns as (_ & _ & D & T).
  split; [exact D|]. apply T.
  destruct p'; simpl in Hc.
  - rewrite Hc. intros k d Hk. discriminate.
  - apply Hc.
  - destruct Hc as (_ & _ & Hd). intros k d Hk Ha Ho. exfalso. apply Ho.
    eapply Hd; eauto.
  - apply Hc.
Qed.

Lemma transfer_targets_are_active_witness :
  exists L ns,
    run (X := Example.collaborators)
        (Example.step (1 # 2) 1 ++ Example.step (1 # 2) 1 ++ [OpExpand false])
        Example.fresh = Ok L /\
    transfer_inactive (nodes L) = Ok ns /\
    drained ns /\
    total_occupancy ns == total_occupancy (nodes L).
Proof.
  destruct (run (X := Example.collaborators)
              (Example.step (1 # 2) 1 ++ Example.step (1 # 2) 1
               ++ [OpExpand false]) Example.fresh)
    as [L|f] eqn:Hrun; [|vm_compute in Hrun; discriminate].
  destruct (@transfer_targets_are_active Example.collaborators Example.fresh L
              (Example.step (1 # 2) 1 ++ Example.step (1 # 2) 1
               ++ [OpExpand false])
              example_partitions eq_refl eq_refl
              ltac:(unfold delays_eviction; repeat constructor; simpl; lia)
              Hrun)
    as (ns & Hns & D & T).
  exists L, ns. auto.
Defined.

(** ** Eviction by [prune] *)





(** ** Which nodes [prune] switches off *)

(** X12: [prune] switches off the least occupied minima and spares
    [keep].  Of the nodes that were active before a [prune] with
    [delth >= 0] and are inactive or deleted afterwards, every one that
    holds occupancy was an active local minimum, none of them is in
    [keep], and each held at most as much occupancy as any local minimum
    outside [keep] that is still active. *)
Theorem prune_takes_least_occupied (L L' : landscape) (pmin : Q)
        (delth : Z) (keep : option (list key)) (pn dn : list key) :
  NoDup (map fst (nodes L)) ->
  (0 <= delth)%Z ->
  prune L pmin delth keep = Ok (L', pn, dn) ->
  (forall k, In k (deactivated L L') -> ~ occupancy_of (nodes L) k == 0 ->
             In k (active_local_mins L)) /\
  (forall k, In k (deactivated L L') -> kept keep k = true ->
             occupancy_of (nodes L) k == 0) /\
  (forall k k',
      In k (deactivated L L') -> ~ occupancy_of (nodes L) k == 0 ->
      In k' (active_local_mins L) -> kept keep k' = false ->
      still_active L' k' = true ->
      occupancy_of (nodes L) k <= occupancy_of (nodes L) k').
Proof.
  intros Hnd Hdel H. apply prune_stages in H.
  destruct H as (ns1 & lms' & ns2 & ns3 & es & H1 & H2 & H3 & ->).
  pose proof (deactivate_lms_spec _ _ _ _ _ _ H1) as (R1 & _ & _ & O1).
  apply deactivate_lms_prefix in H1.
  destruct H1 as (pre & post & E & A & B & C & _). cbv zeta in *.
  cbn [app] in A. subst lms'.
  set (new := filter (fun k => negb (kept keep k)) pre) in *.
  apply set_occtransfer_loop in H2. destruct H2 as (R2 & _ & _).
  assert (Hk1 : map fst ns1 = map fst (nodes L))
    by (eapply refines_keys; eauto).
  assert (Hk2 : map fst ns2 = map fst ns1) by (eapply refines_keys; eauto).
  assert (Hnd2 : NoDup (map fst ns2)) by (now rewrite Hk2, Hk1).
  apply age_loop_spec in H3; [|exact Hnd2|exact Hnd2].
  destruct H3 as (_ & L1 & _).
  (* the activity of a node after the call, from its record in [ns1] *)
  assert (Hact : forall k d1, lookup String.eqb k ns1 = Some d1 ->
                   still_active (with_edges es (with_nodes ns3 L)) k
                   = true -> active d1 = true).
  { intros k d1 Hd1 Hs. pose proof Hd1 as Hd2.
    eapply refines_lookup in Hd2; [|exact R2].
    destruct Hd2 as (d2 & Hd2 & Hrel). unfold occt_rel in Hrel.
    unfold still_active in Hs. cbn [nodes with_edges with_nodes] in Hs.
    rewrite L1 in Hs by (eapply nodes_lookup_key; eauto).
    destruct (evicted delth ns2 k); [discriminate|].
    rewrite Hd2 in Hs. simpl in Hs. rewrite aged_active in Hs.
    rewrite Hrel in Hs. exact Hs. }
  assert (Hina : forall k d1, lookup String.eqb k ns1 = Some d1 ->
                   still_active (with_edges es (with_nodes ns3 L)) k
                   = false -> active d1 = false).
  { intros k d1 Hd1 Hs. pose proof Hd1 as Hd2.
    eapply refines_lookup in Hd2; [|exact R2].
    destruct Hd2 as (d2 & Hd2 & Hrel). unfold occt_rel in Hrel.
    assert (Ea : active d2 = active d1) by (rewrite Hrel; reflexivity).
    unfold still_active in Hs. cbn [nodes with_edges with_nodes] in Hs.
    rewrite L1 in Hs by (eapply nodes_lookup_key; eauto).
    unfold evicted in Hs. rewrite Hd2 in Hs.
    destruct (delth <? pruned (aged d2))%Z eqn:Ev.
    - apply Z.ltb_lt in Ev. rewrite aged_pruned in Ev.
      destruct (active d2) eqn:Ea2; [lia | congruence].
    - simpl in Hs. rewrite aged_active in Hs. congruence. }
  set (L' := with_edges es (with_nodes ns3 L)) in *.
  set (f := occupancy_of (nodes L)) in *.
  assert (Hlost : forall k, In k (deactivated L L') <->
                    exists d, lookup String.eqb k (nodes L) = Some d /\
                              active d = true /\ still_active L' k = false).
  { intros k. unfold deactivated, active_nodes.
    rewrite filter_In, In_keys_where, negb_true_iff. split.
    - intros [[d [Hin Ha]] Hs]. exists d.
      split; [now apply nodes_In_lookup|]. auto.
    - intros (d & Hd & Ha & Hs). split; [|exact Hs].
      exists d. split; [now apply nodes_lookup_In | exact Ha]. }
  assert (Hlms : forall k, In k (pre ++ post) <-> In k (active_local_mins L)).
  { intros k. rewrite <- E. apply In_sorted_by. }
  assert (Hnew_lost : forall k, In k new -> In k (deactivated L L')).
  { intros k Hk. apply Hlost. destruct (C k Hk) as (d1 & Hd1 & Ha1).
    assert (Hpre : In k pre) by (apply filter_In in Hk; tauto).
    assert (Halm : In k (active_local_mins L))
      by (apply Hlms, in_app_iff; now left).
    apply In_keys_where in Halm. destruct Halm as (d & Hin & Hp).
    apply andb_prop in Hp. destruct Hp as [Ha _].
    exists d. split; [now apply nodes_In_lookup|]. split; [exact Ha|].
    destruct (still_active L' k) eqn:Es; [|reflexivity].
    rewrite (Hact _ _ Hd1 Es) in Ha1. discriminate. }
  assert (Hrest : forall k, In k (deactivated L L') -> ~ In k new ->
                            f k == 0).
  { intros k Hk Hn. apply Hlost in Hk. destruct Hk as (d & Hd & Ha & Hs).
    pose proof Hd as Hd1. eapply refines_lookup in Hd1; [|exact R1].
    destruct Hd1 as (d1 & Hd1 & (_ & Ho & _)).
    destruct (O1 _ _ Hd1) as (d' & Hd' & _ & Hcase).
    assert (d' = d) by congruence. subst d'.
    unfold f, occupancy_of. rewrite Hd, <- Ho.
    destruct (Hcase (Hina _ _ Hd1 Hs)) as [Hx|[Hx|[Hx _]]];
      [congruence | exact Hx | contradiction]. }
  split; [|split].
  - intros k Hk Hnz.
    destruct (in_dec string_dec k new) as [Hi|Hn];
      [|exfalso; apply Hnz; now apply Hrest].
    apply Hlms, in_app_iff. left. apply filter_In in Hi. tauto.
  - intros k Hk Hkept. apply Hrest; [exact Hk|].
    intros Hn. apply filter_In in Hn. destruct Hn as [_ Hn].
    rewrite Hkept in Hn. discriminate.
  - intros k k' Hk Hnz Hk' Hkept' Hs'.
    assert (Hkn : In k new).
    { destruct (in_dec string_dec k new) as [Hi|Hn]; [exact Hi|].
      exfalso. apply Hnz. now apply Hrest. }
    assert (Hpost : In k' post).
    { apply Hlms, in_app_iff in Hk'. destruct Hk' as [Hp|Hp]; [|exact Hp].
      exfalso. assert (Hn' : In k' new).
      { apply filter_In. split; [exact Hp|]. now rewrite Hkept'. }
      apply Hnew_lost, Hlost in Hn'. destruct Hn' as (_ & _ & _ & Hs).
      congruence. }
    apply (sorted_app_le f pre post); [| |exact Hpost].
    + rewrite <- E. apply sorted_by_sorted.
    + apply filter_In in Hkn. tauto.
Qed.

Lemma prune_takes_least_occupied_witness :
  In Example.B (deactivated Example.two_minima Example.two_minima_pruned) /\
  In Example.B (active_local_mins Example.two_minima) /\
  occupancy_of (nodes Example.two_minima) Example.B
  <= occupancy_of (nodes Example.two_minima) Example.A.
Proof.
  assert (Hnd : NoDup (map fst (nodes Example.two_minima))).
  { repeat constructor; simpl; intros H; intuition discriminate. }
  destruct (prune Example.two_minima (3 # 10) 10 (Some []))
    as [[[L' pn] dn]|f] eqn:Hpr; [|vm_compute in Hpr; discriminate].
  assert (E : L' = Example.two_minima_pruned).
  { vm_compute in Hpr. injection Hpr as <- _ _. reflexivity. }
  subst L'.
  destruct (@prune_takes_least_occupied Example.two_minima
              Example.two_minima_pruned (3 # 10) 10 (Some []) pn dn Hnd
              ltac:(lia) Hpr) as (Hlm & _ & Hord).
  assert (Hin : In Example.B
                   (deactivated Example.two_minima Example.two_minima_pruned))
    by (vm_compute; left; reflexivity).
  assert (Hnz : ~ occupancy_of (nodes Example.two_minima) Example.B == 0)
    by (simpl; intros H; unfold Qeq in H; simpl in H; lia).
  split; [exact Hin|]. split; [exact (Hlm _ Hin Hnz)|].
  apply (Hord Example.B Example.A Hin Hnz);
    [left; reflexivity | reflexivity | reflexivity].
Defined.

(** ** What [get_coarse_network] passes on and stores *)

Lemma filterM_filter {A : Type} (p : A -> result bool) (q : A -> bool)
      (l l' : list A) :
  (forall x b, In x l -> p x = Ok b -> b = q x) ->
  filterM p l = Ok l' -> l' = filter q l.
Proof.
  revert l'. induction l as [|x l IH]; simpl; intros l' Hq H.
  - injection H as <-. reflexivity.
  - apply bind_Ok in H. destruct H as [b [Hb H]].
    apply bind_Ok in H. destruct H as [r' [Hr H]]. injection H as <-.
    rewrite <- (Hq x b (or_introl eq_refl) Hb).
    rewrite (IH r'); [reflexivity | | exact Hr].
    intros y c Hy. apply Hq. now right.
Qed.

(** The test on an edge in the first loop's state, read in [L]. *)
Lemma both_active_still (L : landscape) (ns1 : nodes_t)
      (e : (key * key) * edge) (b : bool) :
  refines T_rel (nodes L) ns1 ->
  both_active ns1 e = Ok b ->
  b = still_active L (fst (fst e)) && still_active L (snd (fst e)).
Proof.
  intros R H. unfold both_active in H.
  apply bind_Ok in H. destruct H as [d0 [Hd0 H]]. apply node_at_Ok in Hd0.
  eapply refines_lookup_inv in Hd0; [|exact R].
  destruct Hd0 as (c0 & Hc0 & (_ & A0 & _)).
  unfold still_active. rewrite Hc0, <- A0.
  destruct (active d0); [|injection H as <-; reflexivity].
  apply bind_Ok in H. destruct H as [d1 [Hd1 H]]. apply node_at_Ok in Hd1.
  injection H as <-.
  eapply refines_lookup_inv in Hd1; [|exact R].
  destruct Hd1 as (c1 & Hc1 & (_ & A1 & _)).
  rewrite Hc1, <- A1. reflexivity.
Qed.

(** X16: [get_coarse_network] calls [top_down_coarse_graining] on the
    active nodes, in the order of the dictionary and with the records its
    first loop leaves, and on the fine-grained edges both ends of which
    are active.  Whatever the coarse edges were before, afterwards they are
    exactly the edges that call returned, each with the saddle energy
    returned for it; the two numbers returned are the numbers of coarse
    nodes and coarse edges of that result; the fine-grained edges and the
    keys of the nodes are left as they were. *)
Theorem coarse_edges_replaced {X : Externals} (L L' : landscape)
        (n m : nat) :
  get_coarse_network L = Ok (L', n, m) ->
  exists ns1,
    transfer_inactive (nodes L) = Ok ns1 /\
    let ndata := filter (fun kd => active (snd kd)) ns1 in
    let edata :=
      filter (fun e => still_active L (fst (fst e))
                       && still_active L (snd (fst e))) (edges L) in
    let cg := top_down_coarse_graining ndata edata (minh L) in
    map fst ndata = active_nodes L /\
    n = List.length (fst (fst cg)) /\
    m = List.length (snd (fst cg)) /\
    (forall x y, has_cg_edge L' x y = true <->
                 In (x, y) (map fst (snd (fst cg)))) /\
    (forall x y se, get_cg_saddle L' x y = Some se ->
                    In ((x, y), se) (snd (fst cg))) /\
    edges L' = edges L /\
    map fst (nodes L') = map fst (nodes L).
Proof.
  intros H. pose proof (gcn_refines _ H) as Rall.
  apply gcn_stages in H.
  destruct H as (ns1 & edata & ce & ns2 & ns3 & H1 & H2 & _ & H4 & _ & _ &
                 -> & -> & ->).
  cbv zeta in H4. exists ns1. split; [exact H1|].
  pose proof (transfer_inactive_spec _ H1) as (RT & _).
  assert (Hed : edata
                = filter (fun e => still_active L (fst (fst e))
                                   && still_active L (snd (fst e)))
                         (edges L)).
  { eapply filterM_filter; [|exact H2].
    intros e b _ Hb. eapply both_active_still; eauto. }
  cbv zeta. rewrite <- Hed.
  cbn [nodes edges cg_edges with_nodes with_cg_edges] in *.
  apply store_cg_edge_keys in H4. destruct H4 as [Hk Hs].
  split; [|split; [reflexivity|split; [reflexivity|split;
                   [|split; [|split; [reflexivity|]]]]]].
  - change (keys_where active ns1 = keys_where active (nodes L)).
    eapply keys_where_refines; [|exact RT].
    intros d d' (_ & A & _). exact A.
  - intros x y. unfold has_cg_edge. cbn [cg_edges with_nodes with_cg_edges].
    rewrite (has_key_true _ pair_eqb_spec). apply Hk.
  - intros x y se Hse. unfold get_cg_saddle, has_cg_edge in Hse.
    cbn [cg_edges with_nodes with_cg_edges] in Hse.
    destruct (has_key pair_eqb (x, y) ce); [|discriminate].
    destruct (lookup pair_eqb (x, y) ce) as [c|] eqn:E; [|discriminate].
    simpl in Hse. injection Hse as <-.
    apply Hs. now apply (lookup_In _ pair_eqb_spec).
  - exact (refines_keys Rall).
Qed.

Lemma coarse_edges_replaced_witness :
  exists ns1,
    transfer_inactive (nodes Example.expanded) = Ok ns1 /\
    map fst (filter (fun kd => active (snd kd)) ns1)
    = [Example.open_chain; Example.hairpin1; Example.hairpin2] /\
    has_cg_edge Example.coarse Example.hairpin1 Example.hairpin2 = true /\
    edges Example.coarse = edges Example.expanded.
Proof.
  destruct (@coarse_edges_replaced Example.collaborators Example.expanded
              Example.coarse 2 2 eq_refl)
    as (ns1 & H1 & Hn & _ & _ & _ & _ & He & _).
  exists ns1. split; [exact H1|]. split; [exact Hn|].
  split; [reflexivity | exact He].
Defined.
